(** * Download transport subsystem of the Jira ticket extractor

    A shallow embedding of the streaming download path of the browser
    extension: the service worker that fetches a file and relays it over a
    runtime port in bounded messages (background.js), and the content
    script that reassembles the stream, runs the fallback cascade of
    download strategies and names the files it archives (extractor.js). *)

From Stdlib Require Import Strings.String Strings.Ascii Strings.Byte.
From Stdlib Require Import Arith NArith Lia Bool PeanoNat List Sorted.
From Stdlib Require Import DecimalString DecimalNat Lists.Finite.
From Equations Require Import Equations.
Import ListNotations.

(** Binary payloads: an ArrayBuffer / Uint8Array is a list of bytes. *)
Definition bytes := list byte.

(** [ArrayBuffer.prototype.slice(begin, end)] for non-negative arguments:
    the bytes from [begin] up to, not including, [end]; [end] is clamped
    to the length of the buffer. *)
Definition slice (buf : bytes) (b e : nat) : bytes :=
  firstn (e - b) (skipn b buf).

(** ceil(a / b) on naturals. *)
Definition ceil_div (a b : nat) : nat := (a + b - 1) / b.

(** [Response.type] *)
Inductive ResponseType := basic | cors | opaque | opaqueredirect | error_response.

Definition is_opaque (t : ResponseType) : bool :=
  match t with opaque => true | _ => false end.

(** Decimal rendering of a number in a template literal. *)
Definition string_of_nat (n : nat) : string :=
  NilEmpty.string_of_uint (Nat.to_uint n).

(** [String.prototype.includes] *)
Fixpoint includes (s sub : string) : bool :=
  String.prefix sub s
  || match s with
     | EmptyString => false
     | String _ s' => includes s' sub
     end.

(** [String.prototype.startsWith] *)
Definition startsWith (s pre : string) : bool := String.prefix pre s.

(** ** Wire contract of the port named [downloadFileStream] *)

Module Msg.

(** A message as the listeners see it: a JS object whose fields are read
    one by one.  An absent (or falsy) field is [None]. *)
Record message := {
  type_ : string;
  requestId : string;
  chunk : option bytes;
  done : option bool;
  contentType : option string;
  error : option string
}.

(** [{ type: 'chunk', requestId, chunk, done: false }] *)
Definition chunk_message (rid : string) (b : bytes) : message :=
  {| type_ := "chunk"; requestId := rid; chunk := Some b;
     done := Some false; contentType := None; error := None |}.

(** [{ type: 'complete', requestId, contentType }] *)
Definition complete_message (rid ct : string) : message :=
  {| type_ := "complete"; requestId := rid; chunk := None;
     done := None; contentType := Some ct; error := None |}.

(** [{ type: 'error', requestId, error }] *)
Definition error_message (rid err : string) : message :=
  {| type_ := "error"; requestId := rid; chunk := None;
     done := None; contentType := None; error := Some err |}.

Definition is_chunk (m : message) : bool := String.eqb (type_ m) "chunk".
Definition is_complete (m : message) : bool := String.eqb (type_ m) "complete".
Definition is_error (m : message) : bool := String.eqb (type_ m) "error".

(** The bytes a message carries (none when it has no [chunk] field). *)
Definition payload (m : message) : bytes :=
  match chunk m with Some b => b | None => [] end.

End Msg.
Import Msg.

(** ** background.js: the service worker *)

Module Background.

(** [const MAX_CHUNK_SIZE = 64 * 1024;] *)
Definition MAX_CHUNK_SIZE : nat := 64 * 1024.

(** The subdividing loop of the streaming handler,
[[
   for (let offset = 0; offset < baseBuffer.byteLength; offset += MAX_CHUNK_SIZE) {
     if (disconnected) break;
     const slice = baseBuffer.slice(offset, offset + MAX_CHUNK_SIZE);
     port.postMessage({ type: 'chunk', requestId, chunk: slice, done: false }, [slice]);
   }
]]
    as the list of messages it posts.  The loop body is synchronous, so
    [disconnected] is the same at every iteration. *)
Equations? for_loop (disconnected : bool) (rid : string) (baseBuffer : bytes)
    (offset : nat) : list message by wf (length baseBuffer - offset) lt :=
  for_loop disconnected rid baseBuffer offset
    with lt_dec offset (length baseBuffer) := {
    | left _ =>
        if disconnected then []
        else chunk_message rid (slice baseBuffer offset (offset + MAX_CHUNK_SIZE))
               :: for_loop disconnected rid baseBuffer (offset + MAX_CHUNK_SIZE)
    | right _ => []
    }.
Proof. unfold MAX_CHUNK_SIZE. lia. Qed.

(** What one successful [reader.read()] with a value posts:
[[
   const baseBuffer = value.buffer.slice(value.byteOffset, value.byteOffset + value.byteLength);
   if (baseBuffer.byteLength > MAX_CHUNK_SIZE) { for ... } else {
     port.postMessage({ type: 'chunk', requestId, chunk: baseBuffer, done: false }, [baseBuffer]);
   }
]]
    [value] is the list of the bytes the Uint8Array views, so the copy
    [baseBuffer] has the same bytes. *)
Definition relay_value (disconnected : bool) (rid : string) (value : bytes)
  : list message :=
  let baseBuffer := slice value 0 (0 + length value) in
  if MAX_CHUNK_SIZE <? length baseBuffer
  then for_loop disconnected rid baseBuffer 0
  else [chunk_message rid baseBuffer].

(** *** The streaming handler as a machine over its suspension points

    The handler is an [async] function: it runs synchronously from one
    [await] to the next, and everything else (the port being disconnected,
    a fetch or a read settling) happens while it is suspended.  A state is
    the handler suspended at an [await]; an event is what wakes it up. *)

(** The [credentials] option of [fetch]. *)
Inductive credentials_mode := include | same_origin | omit.

(** The init dictionary of a [fetch] call; [credentials = None] when the
    call does not give the option. *)
Record RequestInit := {
  credentials : option credentials_mode;
  mode : string;
  redirect : string;
  signal : bool   (* [signal: controller.signal] is passed *)
}.

(** The fields of a [Response] the handler reads. *)
Record Response := {
  ok : bool;
  status : nat;
  statusText : string;
  type : ResponseType;
  content_type : option string;   (* [headers.get('content-type')] *)
  has_body : bool                 (* [response.body] is not null *)
}.

(** The message that starts a session:
    [{ action: "downloadFileStream", url, requestId }]. *)
Record request := {
  action : string;
  url : string;
  req_id : string
}.

Inductive event :=
| PortDisconnect                                      (* [port.onDisconnect] fires *)
| FetchFulfilled (response : Response)                (* the pending [fetch] resolves *)
| ReadFulfilled (rdone : bool) (value : option bytes) (* [reader.read()] resolves *)
| Rejected (msg : string).                            (* the pending promise rejects *)

(** Where the handler is suspended. *)
Inductive pc :=
| AwaitFetch1                       (* first [fetch], credentials included *)
| AwaitFetch2                       (* the retry *)
| AwaitRead (contentType : string)  (* [reader.read()] in the while loop *)
| Finished.                         (* the handler has returned *)

Record state := {
  at_ : pc;
  disconnected : bool;      (* [let disconnected] *)
  aborted : bool;           (* [controller.signal.aborted] *)
  listening : bool;         (* [disconnectHandler] is registered *)
  port_open : bool;         (* the port is still connected *)
  fetches : list (string * RequestInit);   (* the [fetch] calls made *)
  reads : nat;              (* the [reader.read()] calls made *)
  posted : list message;    (* messages handed to the open port, in order *)
  refused : list message    (* [postMessage] calls on the closed port *)
}.

Definition set_at (s : state) (p : pc) : state :=
  {| at_ := p; disconnected := disconnected s; aborted := aborted s;
     listening := listening s; port_open := port_open s;
     fetches := fetches s; reads := reads s; posted := posted s;
     refused := refused s |}.

(** [port.postMessage(m)]: a disconnected port throws and delivers
    nothing.  The boolean says whether the call threw. *)
Definition postMessage (s : state) (m : message) : state * bool :=
  if port_open s
  then ({| at_ := at_ s; disconnected := disconnected s; aborted := aborted s;
           listening := listening s; port_open := port_open s;
           fetches := fetches s; reads := reads s;
           posted := posted s ++ [m]; refused := refused s |}, false)
  else ({| at_ := at_ s; disconnected := disconnected s; aborted := aborted s;
           listening := listening s; port_open := port_open s;
           fetches := fetches s; reads := reads s;
           posted := posted s; refused := refused s ++ [m] |}, true).

(** Consecutive [postMessage] calls; the first one that throws ends them. *)
Fixpoint post_all (s : state) (ms : list message) : state * bool :=
  match ms with
  | [] => (s, false)
  | m :: ms' =>
      let (s', threw) := postMessage s m in
      if threw then (s', true) else post_all s' ms'
  end.

(** [fetch(url, init)] is called. *)
Definition call_fetch (s : state) (u : string) (init : RequestInit) (p : pc) : state :=
  {| at_ := p; disconnected := disconnected s; aborted := aborted s;
     listening := listening s; port_open := port_open s;
     fetches := fetches s ++ [(u, init)]; reads := reads s;
     posted := posted s; refused := refused s |}.

(** [reader.read()] is called. *)
Definition call_read (s : state) (ct : string) : state :=
  {| at_ := AwaitRead ct; disconnected := disconnected s; aborted := aborted s;
     listening := listening s; port_open := port_open s;
     fetches := fetches s; reads := S (reads s);
     posted := posted s; refused := refused s |}.

(** [{ credentials: 'include', mode: 'cors', redirect: 'follow', signal }] *)
Definition init_with_credentials : RequestInit :=
  {| credentials := Some include; mode := "cors"; redirect := "follow";
     signal := true |}.

(** [{ mode: 'cors', redirect: 'follow', signal }] *)
Definition init_without_credentials : RequestInit :=
  {| credentials := None; mode := "cors"; redirect := "follow";
     signal := true |}.

Section Handler.

Variable request_url : string.
Variable rid : string.

(** [disconnectHandler]: [disconnected = true; controller.abort();] *)
Definition disconnectHandler (s : state) : state :=
  {| at_ := at_ s; disconnected := true; aborted := true;
     listening := listening s; port_open := port_open s;
     fetches := fetches s; reads := reads s; posted := posted s;
     refused := refused s |}.

(** [finally { port.onDisconnect.removeListener(disconnectHandler); }] *)
Definition finally_block (s : state) : state :=
  {| at_ := Finished; disconnected := disconnected s; aborted := aborted s;
     listening := false; port_open := port_open s;
     fetches := fetches s; reads := reads s; posted := posted s;
     refused := refused s |}.

(** [catch (error) { if (!disconnected) port.postMessage({ type: 'error',
    requestId, error: error.message || 'Download failed' }); }] *)
Definition catch_block (s : state) (msg : string) : state :=
  if disconnected s then s
  else fst (postMessage s
              (error_message rid
                 (if String.eqb msg "" then "Download failed" else msg)%string)).

(** An exception inside the [try]: the [catch] block, then [finally]. *)
Definition throw (s : state) (msg : string) : state :=
  finally_block (catch_block s msg).

Definition disconnected_port_error : string :=
  "Attempting to use a disconnected port object".

(** After the loop: [if (!disconnected) port.postMessage({ type:
    'complete', requestId, contentType });] and the [finally] block. *)
Definition after_loop (s : state) (ct : string) : state :=
  if disconnected s then finally_block s
  else let (s', threw) := postMessage s (complete_message rid ct) in
       if threw then throw s' disconnected_port_error else finally_block s'.

(** The head of [while (!disconnected) { ... await reader.read() ... }]. *)
Definition while_loop (s : state) (ct : string) : state :=
  if disconnected s then after_loop s ct else call_read s ct.

(** [`HTTP ${response.status}: ${response.statusText}`] *)
Definition http_error (response : Response) : string :=
  ("HTTP " ++ string_of_nat (status response) ++ ": " ++ statusText response)%string.

(** [response.headers.get('content-type') || 'application/octet-stream'] *)
Definition response_contentType (response : Response) : string :=
  match content_type response with
  | Some c => if String.eqb c "" then "application/octet-stream"%string else c
  | None => "application/octet-stream"%string
  end.

(** From the check of the final response to the first read. *)
Definition after_fetch (s : state) (response : Response) : state :=
  if negb (ok response)
  then throw s (http_error response)
  else
    let contentType := response_contentType response in
    if negb (has_body response)
    then throw s "Readable stream not available for download"
    else while_loop s contentType.

(** The condition of the retry:
    [!response.ok && (response.status === 403 || response.type === 'opaque')]. *)
Definition retry_condition (response : Response) : bool :=
  negb (ok response) && ((status response =? 403) || is_opaque (type response)).

(** The port is disconnected: the port closes and, if the handler is
    still registered, [disconnectHandler] runs. *)
Definition on_disconnect (s : state) : state :=
  let s' := {| at_ := at_ s; disconnected := disconnected s; aborted := aborted s;
               listening := listening s; port_open := false;
               fetches := fetches s; reads := reads s; posted := posted s;
               refused := refused s |} in
  if listening s then disconnectHandler s' else s'.

(** One wake-up of the handler: the synchronous run up to the next
    [await] or to the end. *)
Definition step (s : state) (e : event) : state :=
  match e with
  | PortDisconnect => on_disconnect s
  | FetchFulfilled response =>
      match at_ s with
      | AwaitFetch1 =>
          if retry_condition response
          then call_fetch s request_url init_without_credentials AwaitFetch2
          else after_fetch s response
      | AwaitFetch2 => after_fetch s response
      | _ => s
      end
  | ReadFulfilled rdone value =>
      match at_ s with
      | AwaitRead ct =>
          if rdone then after_loop s ct
          else match value with
               | None => while_loop s ct          (* [if (!value) continue;] *)
               | Some v =>
                   let (s', threw) :=
                     post_all s (relay_value (disconnected s) rid v) in
                   if threw then throw s' disconnected_port_error
                   else while_loop s' ct
               end
      | _ => s
      end
  | Rejected msg =>
      match at_ s with
      | Finished => s
      | _ => throw s msg
      end
  end.

(** The handler right after it is started on a fresh port: the listener
    is registered and the first [fetch] is in flight. *)
Definition started : state :=
  {| at_ := AwaitFetch1; disconnected := false; aborted := false;
     listening := true; port_open := true;
     fetches := [(request_url, init_with_credentials)]; reads := 0;
     posted := []; refused := [] |}.

Definition run (s : state) (es : list event) : state := fold_left step es s.

End Handler.

(** [port.onMessage] listener of the service worker: messages with another
    action or without a url start nothing. *)
Definition on_request (m : request) : option state :=
  if negb (String.eqb (action m) "downloadFileStream") || String.eqb (url m) ""
  then None
  else Some (started (url m)).

(** *** Vocabulary of the statements about the handler *)

Definition finished (s : state) : bool :=
  match at_ s with Finished => true | _ => false end.

Definition append_posted (s : state) (ms : list message) : state :=
  {| at_ := at_ s; disconnected := disconnected s; aborted := aborted s;
     listening := listening s; port_open := port_open s;
     fetches := fetches s; reads := reads s;
     posted := posted s ++ ms; refused := refused s |}.

Definition append_refused (s : state) (ms : list message) : state :=
  {| at_ := at_ s; disconnected := disconnected s; aborted := aborted s;
     listening := listening s; port_open := port_open s;
     fetches := fetches s; reads := reads s;
     posted := posted s; refused := refused s ++ ms |}.

(** What holds of every state the handler can be in. *)
Record invariant (s : state) : Prop := {
  inv_listening : listening s = negb (finished s);
  inv_flag : finished s = false -> disconnected s = negb (port_open s);
  inv_aborted : aborted s = disconnected s;
  inv_refused : finished s = false -> refused s = [];
  inv_refused_length : length (refused s) <= 1;
  inv_refused_chunks : Forall (fun m => is_chunk m = true) (refused s)
}.

(** Every message handed to [postMessage] so far satisfies [P]. *)
Definition all_posted (P : message -> Prop) (s : state) : Prop :=
  Forall P (posted s) /\ Forall P (refused s).

(** A download that nothing interrupts: the fetch resolves with
    [response], the reader hands out [values] one read at a time and then
    reports the end of the body. *)
Definition download_events (response : Response) (values : list (option bytes))
  : list event :=
  FetchFulfilled response
    :: map (ReadFulfilled false) values ++ [ReadFulfilled true None].

(** The response body: the bytes of the reads, in order. *)
Definition body_of (values : list (option bytes)) : bytes :=
  concat (map (fun v => match v with Some b => b | None => [] end) values).

(** The messages the reads are relayed in. *)
Definition relayed (rid : string) (values : list (option bytes)) : list message :=
  flat_map (fun v => match v with
                     | Some b => relay_value false rid b
                     | None => []
                     end) values.

(** A response the handler streams: [200 OK] with a body. *)
Definition ok_response : Response :=
  {| ok := true; status := 200; statusText := "OK"; type := cors;
     content_type := Some "application/pdf"%string; has_body := true |}.



(** The chunk messages among the posted ones. *)
Definition chunk_messages (ms : list message) : list message :=
  filter is_chunk ms.

End Background.

(** ** extractor.js: the content script *)

Module Extractor.

(** A [Blob]: its bytes and its MIME type. *)
Record Blob := {
  blob_bytes : bytes;
  blob_type : string
}.

Definition size (b : Blob) : nat := length (blob_bytes b).

(** The value a strategy resolves with, [{ filename, blob }]; [null] is
    [None]. *)
Record download := {
  filename : string;
  blob : Blob
}.

(** *** [downloadFileViaBackground]: the client of the streaming port *)

(** [TypedArray.prototype.set(source, offset)]; a source that does not fit
    raises a RangeError ([None]). *)
Definition set_bytes (target source : bytes) (offset : nat) : option bytes :=
  if offset + length source <=? length target
  then Some (firstn offset target ++ source
               ++ skipn (offset + length source) target)
  else None.

(** [let offset = 0; chunks.forEach(chunk => { combined.set(chunk, offset);
    offset += chunk.byteLength; });] *)
Fixpoint set_all (combined : bytes) (offset : nat) (chunks : list bytes)
  : option bytes :=
  match chunks with
  | [] => Some combined
  | c :: rest =>
      match set_bytes combined c offset with
      | Some combined' => set_all combined' (offset + length c) rest
      | None => None
      end
  end.

(** [new Uint8Array(totalLength)]: zero-filled. *)
Definition new_Uint8Array (n : nat) : bytes := repeat x00 n.

(** The local variables of one call, and what it has done to the outside:
    the values passed to [resolve] and the calls of [port.disconnect()]. *)
Record session := {
  chunks : list bytes;
  totalLength : nat;
  contentType : string;
  settled : bool;
  timer : bool;                       (* the timeout is armed *)
  resolved : list (option download);  (* [resolve(result)] calls, in order *)
  disconnects : nat                   (* [port.disconnect()] calls *)
}.

Inductive port_event :=
| Message (m : message)   (* [port.onMessage] *)
| Disconnected            (* [port.onDisconnect] *)
| TimedOut.               (* the two-minute timer *)

Section Session.

Variable requestId : string.
Variable filename_ : string.

Definition opened : session :=
  {| chunks := []; totalLength := 0;
     contentType := "application/octet-stream";
     settled := false; timer := true; resolved := []; disconnects := 0 |}.

(** [finalize(result)]: nothing once settled; otherwise [settled = true;
    cleanup(); resolve(result);] where [cleanup] disconnects the port. *)
Definition finalize (s : session) (result : option download) : session :=
  if settled s then s
  else {| chunks := chunks s; totalLength := totalLength s;
          contentType := contentType s; settled := true; timer := timer s;
          resolved := resolved s ++ [result];
          disconnects := S (disconnects s) |}.

Definition clearTimeout (s : session) : session :=
  {| chunks := chunks s; totalLength := totalLength s;
     contentType := contentType s; settled := settled s; timer := false;
     resolved := resolved s; disconnects := disconnects s |}.

Definition set_contentType (s : session) (ct : string) : session :=
  {| chunks := chunks s; totalLength := totalLength s;
     contentType := ct; settled := settled s; timer := timer s;
     resolved := resolved s; disconnects := disconnects s |}.

(** [chunks.push(view); totalLength += view.byteLength;] *)
Definition push_chunk (s : session) (view : bytes) : session :=
  {| chunks := chunks s ++ [view]; totalLength := totalLength s + length view;
     contentType := contentType s; settled := settled s; timer := timer s;
     resolved := resolved s; disconnects := disconnects s |}.

(** The body of the [port.onMessage] listener. *)
Definition onMessage (s : session) (m : message) : session :=
  if negb (String.eqb (Msg.requestId m) requestId) then s
  else
    match (if String.eqb (type_ m) "chunk" then chunk m else None) with
    | Some view =>
        if length view =? 0 then s            (* ignore empty chunks *)
        else push_chunk s view
    | None =>
        if String.eqb (type_ m) "complete" then
          let s1 := clearTimeout s in
          let s2 := set_contentType s1
                      (match Msg.contentType m with
                       | Some ct => if String.eqb ct "" then contentType s1 else ct
                       | None => contentType s1
                       end) in
          if totalLength s2 =? 0 then finalize s2 None
          else
            match set_all (new_Uint8Array (totalLength s2)) 0 (chunks s2) with
            | Some combined =>
                let b := {| blob_bytes := combined; blob_type := contentType s2 |} in
                finalize s2 (if 0 <? size b
                             then Some {| filename := filename_; blob := b |}
                             else None)
            | None => s2     (* RangeError escapes the listener *)
            end
        else if String.eqb (type_ m) "error" then finalize (clearTimeout s) None
        else s
    end.

(** [port.onDisconnect]: [clearTimeout(timeout); finalize(null);] *)
Definition onDisconnect (s : session) : session :=
  finalize (clearTimeout s) None.

(** The timer fires, if it is still armed: [finalize(null)].  A timer
    that has fired is no longer armed. *)
Definition onTimeout (s : session) : session :=
  if timer s then finalize (clearTimeout s) None else s.

Definition handle (s : session) (e : port_event) : session :=
  match e with
  | Message m => onMessage s m
  | Disconnected => onDisconnect s
  | TimedOut => onTimeout s
  end.

Definition receive (s : session) (es : list port_event) : session :=
  fold_left handle es s.

Definition nonempty (b : bytes) : bool := negb (length b =? 0).

(** The events that end a session: a complete or an error message of the
    session, the port being disconnected, the timer. *)
Definition terminal (e : port_event) : bool :=
  match e with
  | Message m =>
      String.eqb (Msg.requestId m) requestId && (is_complete m || is_error m)
  | Disconnected => true
  | TimedOut => true
  end.

(** What holds of every state of a session. *)
Record consistent (s : session) : Prop := {
  total_is_length : totalLength s = length (concat (chunks s));
  open_armed : settled s = false -> timer s = true;
  resolved_once : length (resolved s) = if settled s then 1 else 0;
  disconnected_once : disconnects s = if settled s then 1 else 0
}.

End Session.

(** [downloadFileViaBackground(url, filename)]: the value the promise
    resolves with.  [events] is what the port delivers; the timer the
    function arms fires after them if nothing has cleared it. *)
Definition downloadFileViaBackground (requestId filename_ : string)
    (events : list port_event) : option download :=
  match resolved (receive requestId filename_ opened (events ++ [TimedOut])) with
  | result :: _ => result
  | [] => None
  end.

(** *** [downloadFileViaXHR] *)

(** How an XMLHttpRequest ends. *)
Inductive xhr_outcome :=
| XLoad (status : nat) (response : option Blob)   (* [onload] *)
| XError                                          (* [onerror] *)
| XTimeout.                                       (* [ontimeout] *)

(** [first] is the request with [withCredentials = true], [second] the
    one without, sent only from the [onerror] of the first. *)
Definition downloadFileViaXHR (filename_ : string) (first second : xhr_outcome)
  : option download :=
  let onload status response :=
    if status =? 200 then
      match response with
      | Some b => if 0 <? size b
                  then Some {| filename := filename_; blob := b |}
                  else None
      | None => None
      end
    else None in
  match first with
  | XLoad status response => onload status response
  | XError =>
      match second with
      | XLoad status response => onload status response
      | XError => None
      | XTimeout => None
      end
  | XTimeout => None
  end.

(** *** [downloadFileViaBackgroundBlob] *)

(** The reply of the service worker to [downloadFileAsBlob]; [decoded] is
    what [atob(response.blob)] returns, [None] when it throws. *)
Record reply := {
  success : bool;
  blob_base64 : string;
  decoded : option bytes;
  reply_type : string
}.

Inductive sendMessage_outcome :=
| LastError                         (* [chrome.runtime.lastError] is set *)
| Replied (response : option reply).

Definition downloadFileViaBackgroundBlob (filename_ : string)
    (o : sendMessage_outcome) : option download :=
  match o with
  | LastError => None
  | Replied None => None
  | Replied (Some response) =>
      if success response && negb (String.eqb (blob_base64 response) "")
      then match decoded response with
           | Some byteArray =>
               Some {| filename := filename_;
                       blob := {| blob_bytes := byteArray;
                                  blob_type := reply_type response |} |}
           | None => None
           end
      else None
  end.

(** *** [downloadFile]: the cascade *)

(** The fields of a [Response] that [downloadFile] reads; [r_blob] is what
    [response.blob()] resolves with, [None] when it rejects. *)
Record PageResponse := {
  r_ok : bool;
  r_status : nat;
  r_type : ResponseType;
  r_blob : option Blob
}.

Inductive fetch_outcome :=
| Throws
| Responds (response : PageResponse).

(** The network operations [downloadFile] can start, by call site. *)
Inductive attempt :=
| LocalHandle                 (* [fetch(blobUrl)] *)
| OneShotAuth                 (* [downloadFileViaBackgroundBlob] with the auth header *)
| XhrFirst                    (* [downloadFileViaXHR] for attachment URLs *)
| FetchSameOrigin (authorization : bool)   (* [credentials: 'same-origin'] *)
| FetchInclude                (* [credentials: 'include'] *)
| FetchSameOriginAgain        (* after a 403 under API auth *)
| XhrFallback                 (* [downloadFileViaXHR] after the fetches *)
| Streaming.                  (* [downloadFileViaBackground] *)

(** What each operation does when it is started. *)
Record world := {
  local_fetch : fetch_outcome;
  one_shot : sendMessage_outcome;
  xhr_first : xhr_outcome * xhr_outcome;
  fetch_same_origin : fetch_outcome;
  fetch_include : fetch_outcome;
  fetch_same_origin_again : fetch_outcome;
  xhr_fallback : xhr_outcome * xhr_outcome;
  stream_requestId : string;
  stream : list port_event
}.

Section Cascade.

Variable url : string.
Variable filename_ : string.
Variable blobUrl : option string.
Variable useApiAuth : bool.
Variable apiAuthHeader : option string.
Variable w : world.

(** Truthiness of a string that may be [null]. *)
Definition truthy (s : option string) : bool :=
  match s with
  | Some v => negb (String.eqb v "")
  | None => false
  end.

(** The result of the cascade with the operations it started, in order. *)
Definition outcome : Type := list attempt * option download.

(** [return await downloadFileViaBackground(url, filename);] *)
Definition via_background (tr : list attempt) : outcome :=
  (tr ++ [Streaming],
   downloadFileViaBackground (stream_requestId w) filename_ (stream w)).

(** [const xhrResult = await downloadFileViaXHR(url, filename);
    if (xhrResult) return xhrResult;
    return await downloadFileViaBackground(url, filename);] *)
Definition xhr_then_background (tr : list attempt) : outcome :=
  match downloadFileViaXHR filename_ (fst (xhr_fallback w)) (snd (xhr_fallback w)) with
  | Some xhrResult => (tr ++ [XhrFallback], Some xhrResult)
  | None => via_background (tr ++ [XhrFallback])
  end.

(** [const blob = await response.blob(); if (blob.size === 0) return null;
    return { filename, blob };]  A rejected [blob()] lands in the outer
    [catch]. *)
Definition read_blob (tr : list attempt) (response : PageResponse) : outcome :=
  match r_blob response with
  | None => via_background tr
  | Some b =>
      if size b =? 0 then (tr, None)
      else (tr, Some {| filename := filename_; blob := b |})
  end.

(** After the inner [try]: [if (!response.ok) { ... }] and the blob. *)
Definition check_response (tr : list attempt) (response : PageResponse) : outcome :=
  if negb (r_ok response) then
    if (r_status response =? 403) || is_opaque (r_type response)
    then xhr_then_background tr
    else via_background tr          (* [throw new Error(`HTTP ...`)] *)
  else read_blob tr response.

(** The inner [try] with its [catch (corsError)]. *)
Definition fetch_phase (tr : list attempt) : outcome :=
  let authorization :=
    useApiAuth && truthy apiAuthHeader && includes url "/rest/api/" in
  let tr1 := tr ++ [FetchSameOrigin authorization] in
  match fetch_same_origin w with
  | Throws => xhr_then_background tr1
  | Responds r1 =>
      let '(tr2, response) :=
        if negb (r_ok r1)
        then (tr1 ++ [FetchInclude],
              match fetch_include w with     (* [.catch(() => null)] *)
              | Throws => None
              | Responds r2 => Some r2
              end)
        else (tr1, Some r1) in
      match response with
      | None => via_background tr2
      | Some r =>
          if is_opaque (r_type r) then via_background tr2
          else if negb (r_ok r) && (r_status r =? 403)
                  && useApiAuth && truthy apiAuthHeader
          then
            match fetch_same_origin_again w with
            | Throws => xhr_then_background (tr2 ++ [FetchSameOriginAgain])
            | Responds r3 => check_response (tr2 ++ [FetchSameOriginAgain]) r3
            end
          else check_response tr2 r
      end
  end.

(** The first block: the blob URL, when there is one. *)
Definition local_handle : outcome :=
  match blobUrl with
  | Some b =>
      if startsWith b "blob:" then
        match local_fetch w with
        | Responds response =>
            if r_ok response then
              match r_blob response with
              | Some bl =>
                  if 0 <? size bl
                  then ([LocalHandle], Some {| filename := filename_; blob := bl |})
                  else ([LocalHandle], None)
              | None => ([LocalHandle], None)
              end
            else ([LocalHandle], None)
        | Throws => ([LocalHandle], None)
        end
      else ([], None)
  | None => ([], None)
  end.

Definition downloadFile : outcome :=
  match local_handle with
  | (tr, Some result) => (tr, Some result)
  | (tr, None) =>
      if startsWith url "blob:" || startsWith url "data:" then (tr, None)
      else
        let after_auth (tr : list attempt) : outcome :=
          if includes url "/secure/attachment/" || includes url "/attachment/"
          then
            match downloadFileViaXHR filename_ (fst (xhr_first w)) (snd (xhr_first w)) with
            | Some xhrResult => (tr ++ [XhrFirst], Some xhrResult)
            | None => fetch_phase (tr ++ [XhrFirst])
            end
          else fetch_phase tr in
        if useApiAuth && truthy apiAuthHeader then
          match downloadFileViaBackgroundBlob filename_ (one_shot w) with
          | Some bgResult => (tr ++ [OneShotAuth], Some bgResult)
          | None => after_auth (tr ++ [OneShotAuth])
          end
        else after_auth tr
  end.

(** A response the cascade takes the file from: ok, with a body that is
    not empty. *)
Definition accepts (response : PageResponse) : option download :=
  if r_ok response then
    match r_blob response with
    | Some b => if 0 <? size b
                then Some {| filename := filename_; blob := b |}
                else None
    | None => None
    end
  else None.

(** What an operation gives on its own: the download the cascade takes
    from it, if any.  After the first two fetches an opaque response is
    handed to the streaming fetch whatever else it says. *)
Definition yields (a : attempt) : option download :=
  let visible o :=
    match o with
    | Responds response =>
        if is_opaque (r_type response) then None else accepts response
    | Throws => None
    end in
  let plain o :=
    match o with
    | Responds response => accepts response
    | Throws => None
    end in
  match a with
  | LocalHandle => plain (local_fetch w)
  | OneShotAuth => downloadFileViaBackgroundBlob filename_ (one_shot w)
  | XhrFirst => downloadFileViaXHR filename_ (fst (xhr_first w)) (snd (xhr_first w))
  | FetchSameOrigin _ => visible (fetch_same_origin w)
  | FetchInclude => visible (fetch_include w)
  | FetchSameOriginAgain => plain (fetch_same_origin_again w)
  | XhrFallback => downloadFileViaXHR filename_ (fst (xhr_fallback w)) (snd (xhr_fallback w))
  | Streaming => downloadFileViaBackground (stream_requestId w) filename_ (stream w)
  end.

End Cascade.

(** The order in which the code reaches the operations. *)
Definition code_rank (a : attempt) : nat :=
  match a with
  | LocalHandle => 0
  | OneShotAuth => 1
  | XhrFirst => 2
  | FetchSameOrigin _ => 3
  | FetchInclude => 4
  | FetchSameOriginAgain => 5
  | XhrFallback => 6
  | Streaming => 7
  end.

(** The position of an operation in the list of strategies of the
    specification: 1 local handle, 2 request with the explicit auth header,
    3 same-origin request, 4 request including credentials, 5 privileged
    one-shot fetch, 6 low-level request object, 7 privileged streaming. *)
Definition spec_rank (a : attempt) : nat :=
  match a with
  | LocalHandle => 1
  | FetchSameOrigin true => 2
  | FetchSameOrigin false => 3
  | FetchSameOriginAgain => 3
  | FetchInclude => 4
  | OneShotAuth => 5
  | XhrFirst => 6
  | XhrFallback => 6
  | Streaming => 7
  end.

(** The operations are started in the order of the code, none twice. *)
Definition ascending (tr : list attempt) : Prop :=
  StronglySorted (fun a b => code_rank a < code_rank b) tr.

(** The cascade stops at the first operation that yields a download:
    the result, when there is one, is what the last operation started
    yields, and the ones before it yielded nothing. *)
Definition first_success (y : attempt -> option download) (o : outcome) : Prop :=
  match snd o with
  | Some d =>
      exists before a,
        fst o = before ++ [a] /\ y a = Some d
        /\ Forall (fun b => y b = None) before
  | None => True
  end.

(** A result the empty-payload guard lets through. *)
Definition acceptable (r : option download) : Prop :=
  match r with
  | Some d => 0 < size (blob d)
  | None => True
  end.

(** Before a block of the cascade: the operations started so far came in
    order, all rank below [k], and none has yielded a download. *)
Definition so_far (fn : string) (w : world) (k : nat) (tr : list attempt) : Prop :=
  ascending tr
  /\ Forall (fun a => code_rank a < k) tr
  /\ Forall (fun b => yields fn w b = None) tr.

(** After it. *)
Definition settled_well (fn : string) (w : world) (o : outcome) : Prop :=
  ascending (fst o) /\ first_success (yields fn w) o.

(** Every block of the cascade adds to the operations started before it. *)
Definition extends (tr : list attempt) (o : outcome) : Prop :=
  exists more, fst o = tr ++ more.

(** A trace follows a ranking when the ranks never go down. *)
Fixpoint in_order (rank : attempt -> nat) (tr : list attempt) : bool :=
  match tr with
  | a :: ((b :: _) as rest) => (rank a <=? rank b) && in_order rank rest
  | _ => true
  end.

(** Two pages for the cascade to run on. *)

Definition pdf : Blob :=
  {| blob_bytes := [x25; x50; x44; x46]; blob_type := "application/pdf" |}.

Definition empty_blob : Blob :=
  {| blob_bytes := []; blob_type := "text/html" |}.

Definition served (b : Blob) : fetch_outcome :=
  Responds {| r_ok := true; r_status := 200; r_type := basic; r_blob := Some b |}.

(** A page on which the XHR is refused and the same-origin fetch serves
    the file. *)
Definition xhr_refused : world :=
  {| local_fetch := Throws; one_shot := LastError;
     xhr_first := (XLoad 403 None, XTimeout);
     fetch_same_origin := served pdf;
     fetch_include := Throws; fetch_same_origin_again := Throws;
     xhr_fallback := (XTimeout, XTimeout);
     stream_requestId := "1-a"; stream := [] |}.

(** A page on which the same-origin fetch answers 200 with an empty body
    while the streaming fetch would deliver the file. *)
Definition empty_answer : world :=
  {| local_fetch := Throws; one_shot := LastError;
     xhr_first := (XTimeout, XTimeout);
     fetch_same_origin := served empty_blob;
     fetch_include := Throws; fetch_same_origin_again := Throws;
     xhr_fallback := (XTimeout, XTimeout);
     stream_requestId := "1-a";
     stream := [Message (chunk_message "1-a" [x25; x50; x44; x46]);
                Message (complete_message "1-a" "application/pdf")] |}.

(** A page that keeps the file behind a blob URL. *)
Definition handle_served : world :=
  {| local_fetch := served pdf; one_shot := LastError;
     xhr_first := (XTimeout, XTimeout);
     fetch_same_origin := Throws;
     fetch_include := Throws; fetch_same_origin_again := Throws;
     xhr_fallback := (XTimeout, XTimeout);
     stream_requestId := "1-a"; stream := [] |}.

(** *** Naming the downloaded files ([extractTicket], [extractTicketViaAPI])

    Strings are sequences of 8-bit characters; the character classes below
    are the ASCII part of the ones JavaScript uses. *)

Definition double_quote : ascii := ascii_of_nat 34.
Definition backslash : ascii := ascii_of_nat 92.

(** The character class of the regular expression with which
    [filename.replace(..., '_')] cleans a name: the characters
    < > : / | ? * , the double quote and the backslash. *)
Definition invalid_character (c : ascii) : bool :=
  existsb (Ascii.eqb c)
    ["<"; ">"; ":"; double_quote; "/"; backslash; "|"; "?"; "*"]%char.

Fixpoint map_string (f : ascii -> ascii) (s : string) : string :=
  match s with
  | EmptyString => EmptyString
  | String c s' => String (f c) (map_string f s')
  end.

Definition replace_invalid (s : string) : string :=
  map_string (fun c => if invalid_character c then "_"%char else c) s.

Definition is_space (c : ascii) : bool :=
  let n := nat_of_ascii c in
  ((9 <=? n) && (n <=? 13)) || (n =? 32).

Fixpoint trim_start (s : string) : string :=
  match s with
  | EmptyString => EmptyString
  | String c s' => if is_space c then trim_start s' else s
  end.

Definition rev_string (s : string) : string :=
  string_of_list_ascii (rev (list_ascii_of_string s)).

(** [String.prototype.trim] *)
Definition trim (s : string) : string :=
  rev_string (trim_start (rev_string (trim_start s))).

Definition lower (c : ascii) : ascii :=
  let n := nat_of_ascii c in
  if (65 <=? n) && (n <=? 90) then ascii_of_nat (n + 32) else c.

(** [String.prototype.toLowerCase] *)
Definition toLowerCase (s : string) : string := map_string lower s.

(** [String.prototype.endsWith] *)
Definition endsWith (s suffix : string) : bool :=
  String.prefix (rev_string suffix) (rev_string s).

(** The class [[a-z0-9]] under the [i] flag. *)
Definition is_alnum (c : ascii) : bool :=
  let n := nat_of_ascii c in
  ((48 <=? n) && (n <=? 57)) || ((65 <=? n) && (n <=? 90))
  || ((97 <=? n) && (n <=? 122)).

Fixpoint drop_alnum (s : string) : string :=
  match s with
  | EmptyString => EmptyString
  | String c s' => if is_alnum c then drop_alnum s' else s
  end.

(** [filename.match(/\.[a-z0-9]+$/i)] finds something: the string ends
    with a dot followed by one or more letters or digits. *)
Definition has_extension (s : string) : bool :=
  let r := rev_string s in
  let rest := drop_alnum r in
  negb (String.length rest =? String.length r)
  && match rest with
     | String c _ => Ascii.eqb c "."
     | EmptyString => false
     end.

(** [String.prototype.split] with a separator of one character. *)
Fixpoint split (sep : ascii) (s : string) : list string :=
  match s with
  | EmptyString => [EmptyString]
  | String c s' =>
      if Ascii.eqb c sep then EmptyString :: split sep s'
      else match split sep s' with
           | p :: ps => String c p :: ps
           | [] => [String c EmptyString]
           end
  end.

(** [Array.prototype.join] *)
Definition join (sep : string) (parts : list string) : string :=
  String.concat sep parts.

(** An entry of the page's list of files, and an entry of
    [attachmentPaths]. *)
Record file := {
  file_id : nat;
  file_name : string;
  file_url : string
}.

Record attachmentPath := {
  id : nat;
  name : string;
  path : string
}.

(** [let ext = ''; const urlParts = file.url.split('.');
    if (urlParts.length > 1)
      ext = urlParts[urlParts.length - 1].split('?')[0].split('#')[0];] *)
Definition url_extension (file_url_ : string) : string :=
  let urlParts := split "." file_url_ in
  if 1 <? length urlParts
  then hd EmptyString (split "#" (hd EmptyString (split "?" (last urlParts EmptyString))))
  else EmptyString.

(** [filename = filename.replace(..., '_').trim();] *)
Definition clean (file_name_ : string) : string :=
  trim (replace_invalid file_name_).

(** The file name [extractTicket] starts from: the cleaned name, with the
    extension of the URL added when the name has none. *)
Definition dom_filename (f : file) : string :=
  let ext := url_extension (file_url f) in
  let filename_ := clean (file_name f) in
  if negb (String.eqb ext "")
     && negb (endsWith (toLowerCase filename_)
                       (String.append "." (toLowerCase ext)))
  then if has_extension filename_ then filename_
       else String.append filename_ (String.append "." ext)
  else filename_.

(** The file name [extractTicketViaAPI] starts from. *)
Definition api_filename (f : file) : string := clean (file_name f).

(** [`${ticketKey}/raw/attachments/${finalFilename}`] *)
Definition attachment_path (ticketKey finalFilename : string) : string :=
  String.append ticketKey (String.append "/raw/attachments/" finalFilename).

(** [attachmentPaths.some(a => a.path === `.../${finalFilename}`)] *)
Definition taken (ticketKey : string) (attachmentPaths : list attachmentPath)
    (finalFilename : string) : bool :=
  existsb (fun a => String.eqb (path a) (attachment_path ticketKey finalFilename))
          attachmentPaths.

(** The name the loop tries at [counter]:
[[
   const nameParts = filename.split('.');
   if (nameParts.length > 1) {
     const ext = nameParts.pop();
     finalFilename = nameParts.join('.') + `_${counter}.${ext}`;
   } else {
     finalFilename = `${filename}_${counter}`;
   }
]] *)
Definition suffixed (filename_ : string) (counter : nat) : string :=
  let nameParts := split "." filename_ in
  if 1 <? length nameParts
  then String.append (join "." (removelast nameParts))
         (String.append "_"
            (String.append (string_of_nat counter)
               (String.append "." (last nameParts EmptyString))))
  else String.append filename_ (String.append "_" (string_of_nat counter)).

(** [while (attachmentPaths.some(...)) { finalFilename = ...; counter++; }]
    with a bound on the number of iterations; [None] when the bound is
    reached with the name still taken. *)
Fixpoint unique_loop (fuel : nat) (ticketKey : string)
    (attachmentPaths : list attachmentPath) (filename_ finalFilename : string)
    (counter : nat) : option string :=
  if taken ticketKey attachmentPaths finalFilename then
    match fuel with
    | 0 => None
    | S fuel' =>
        unique_loop fuel' ticketKey attachmentPaths filename_
                    (suffixed filename_ counter) (S counter)
    end
  else Some finalFilename.

(** [let finalFilename = filename; let counter = 1; while ...]  One more
    iteration than there are entries is always enough. *)
Definition unique_filename (ticketKey : string)
    (attachmentPaths : list attachmentPath) (filename_ : string) : option string :=
  unique_loop (S (length attachmentPaths)) ticketKey attachmentPaths
              filename_ filename_ 1.

(** The naming step of one downloaded file, given how its first name is
    made: the new [attachmentPaths]. *)
Definition add_file (first_name : file -> string) (ticketKey : string)
    (attachmentPaths : list attachmentPath) (f : file)
  : option (list attachmentPath) :=
  match unique_filename ticketKey attachmentPaths (first_name f) with
  | Some finalFilename =>
      Some (attachmentPaths
              ++ [{| id := file_id f; name := file_name f;
                     path := attachment_path ticketKey finalFilename |}])
  | None => None
  end.

(** The naming steps of a batch of downloaded files, in order. *)
Fixpoint add_files (first_name : file -> string) (ticketKey : string)
    (attachmentPaths : list attachmentPath) (fs : list file)
  : option (list attachmentPath) :=
  match fs with
  | [] => Some attachmentPaths
  | f :: rest =>
      match add_file first_name ticketKey attachmentPaths f with
      | Some attachmentPaths' => add_files first_name ticketKey attachmentPaths' rest
      | None => None
      end
  end.

(** The final file name of an entry: its path without the directory. *)
Definition final_name (ticketKey : string) (a : attachmentPath) : string :=
  let prefix_length := String.length (attachment_path ticketKey EmptyString) in
  String.substring prefix_length (String.length (path a) - prefix_length) (path a).

Definition has_invalid_character (s : string) : bool :=
  existsb invalid_character (list_ascii_of_string s).

(** An attachment without an extension, as Jira serves it. *)
Definition readme : file :=
  {| file_id := 1; file_name := "README";
     file_url := "https://example.com/secure/attachment/10001/README" |}.

End Extractor.

(** ** Vocabulary of the statements about a whole stream *)

Module Stream.
Import Background Extractor.

(** A string that passes [x || fallback]: it is not empty. *)
Definition truthy_string (x : string) : Prop := String.eqb x "" = false.

Definition chunk_of (rid : string) (m : message) : Prop :=
  exists b, m = chunk_message rid b.

(** The two messages that end a stream. *)
Definition closing_of (rid : string) (m : message) : Prop :=
  (exists ct, truthy_string ct /\ m = complete_message rid ct)
  \/ (exists e, truthy_string e /\ m = error_message rid e).

(** The content type a handler in the read loop holds is not empty. *)
Definition typed (s : state) : Prop :=
  match at_ s with AwaitRead ct => truthy_string ct | _ => True end.

(** The messages of a session so far: chunk messages, then at most one
    closing message, which only a finished handler has posted. *)
Definition stream_shape (rid : string) (s : state) : Prop :=
  typed s /\
  exists cs tl,
    posted s = cs ++ tl
    /\ Forall (chunk_of rid) cs
    /\ (tl = [] \/ (finished s = true /\ exists t, tl = [t] /\ closing_of rid t))
    /\ (finished s = false -> tl = []).

(** The chunks of the session [rid] among the events of a port, as the
    listener keeps them: chunk messages of the session that carry at least
    one byte. *)
Definition own_chunks (rid : string) (es : list port_event) : list bytes :=
  flat_map (fun e =>
    match e with
    | Message m =>
        if String.eqb (Msg.requestId m) rid && is_chunk m
        then match chunk m with
             | Some b => if length b =? 0 then [] else [b]
             | None => []
             end
        else []
    | _ => []
    end) es.

End Stream.

(** ** Vocabulary of the statements about what [downloadFile] may start *)

Module CascadeRules.
Import Extractor.

(** The condition under which the code reaches each operation, read off
    the tests in front of its call site. *)
Definition permitted (url : string) (blobUrl : option string) (useApiAuth : bool)
    (apiAuthHeader : option string) (a : attempt) : bool :=
  let remote := negb (startsWith url "blob:" || startsWith url "data:") in
  match a with
  | LocalHandle =>
      match blobUrl with Some b => startsWith b "blob:" | None => false end
  | OneShotAuth => remote && (useApiAuth && truthy apiAuthHeader)
  | XhrFirst =>
      remote && (includes url "/secure/attachment/" || includes url "/attachment/")
  | FetchSameOrigin authorization =>
      remote && Bool.eqb authorization
                  (useApiAuth && truthy apiAuthHeader && includes url "/rest/api/")
  | FetchSameOriginAgain => remote && (useApiAuth && truthy apiAuthHeader)
  | FetchInclude => remote
  | XhrFallback => remote
  | Streaming => remote
  end.

(** Once the streaming fetch is started, its result is the result. *)
Definition stream_decides (fn : string) (w : world) (o : outcome) : Prop :=
  In Streaming (fst o) ->
  snd o = downloadFileViaBackground (stream_requestId w) fn (stream w).

Definition keeps_filename (fn : string) (o : outcome) : Prop :=
  forall d, snd o = Some d -> filename d = fn.

Section Rules.

Variables (url fn : string) (blobUrl : option string) (useApiAuth : bool)
          (apiAuthHeader : option string) (w : world).

Definition allowed (a : attempt) : Prop :=
  permitted url blobUrl useApiAuth apiAuthHeader a = true.

(** Before a block: what has been started was allowed, and the streaming
    fetch is not among it. *)
Definition clean_start (tr : list attempt) : Prop :=
  Forall allowed tr /\ ~ In Streaming tr.

Definition good (o : outcome) : Prop :=
  Forall allowed (fst o) /\ stream_decides fn w o /\ keeps_filename fn o.

End Rules.

End CascadeRules.

(** ** [convertToTktFormat]: the ticket file *)

Module Tkt.
Import Extractor.

Definition LF : ascii := ascii_of_nat 10.
Definition CR : ascii := ascii_of_nat 13.

(** [value.replace(/\|/g, '\\|')]: a backslash in front of every pipe. *)
Fixpoint escapePipe (value : string) : string :=
  match value with
  | EmptyString => EmptyString
  | String c rest =>
      if Ascii.eqb c "|" then String backslash (String "|" (escapePipe rest))
      else String c (escapePipe rest)
  end.

(** [.replace(/\r\n/g, '\n')] *)
Fixpoint replace_CRLF (value : string) : string :=
  match value with
  | EmptyString => EmptyString
  | String c rest =>
      match rest with
      | String d rest' =>
          if Ascii.eqb c CR && Ascii.eqb d LF then String LF (replace_CRLF rest')
          else String c (replace_CRLF rest)
      | EmptyString => String c EmptyString
      end
  end.

(** [.replace(/\r/g, '\n')] *)
Definition replace_CR (value : string) : string :=
  map_string (fun c => if Ascii.eqb c CR then LF else c) value.

(** [.replace(/\n/g, '\\n')]: a backslash and the letter n for every line
    feed. *)
Fixpoint replace_LF (value : string) : string :=
  match value with
  | EmptyString => EmptyString
  | String c rest =>
      if Ascii.eqb c LF then String backslash (String "n" (replace_LF rest))
      else String c (replace_LF rest)
  end.

Definition escapeNewlines (value : string) : string :=
  replace_LF (replace_CR (replace_CRLF value)).

Record comment := {
  comment_id : nat;
  author : string;
  timestamp : string;
  body : string
}.

Record ticketData := {
  ticketKey : string;
  title : string;
  ticket_url : string;
  extractedAt : string;
  description : string;
  comments : list (option comment);          (* [null] entries are skipped *)
  attachments : list (option attachmentPath)
}.

(** [String(x.id || '')] for a number. *)
Definition id_text (n : nat) : string :=
  if n =? 0 then EmptyString else string_of_nat n.

Definition header_line (t : ticketData) : string :=
  ("H|" ++ escapePipe (ticketKey t) ++ "|" ++ escapePipe (title t) ++ "|"
   ++ escapePipe (ticket_url t) ++ "|" ++ escapePipe (extractedAt t))%string.

(** The description block, only for a description that is not blank. *)
Definition description_lines (t : ticketData) : list string :=
  if negb (String.eqb (description t) "") && negb (String.eqb (trim (description t)) "")
  then ["D<<"%string; replace_CR (replace_CRLF (description t)); ">>"%string]
  else [].

Definition comment_line (c : comment) : string :=
  let commentId := escapePipe (id_text (comment_id c)) in
  let commentAuthor := escapePipe (author c) in
  let commentTimestamp := escapePipe (timestamp c) in
  let authorTimestamp := toLowerCase (commentAuthor ++ " " ++ commentTimestamp) in
  let visibility :=
    escapePipe (if includes authorTimestamp "internal note" then "internal" else "") in
  let commentBody := escapeNewlines (body c) in
  ("C|" ++ commentId ++ "|" ++ commentAuthor ++ "|" ++ commentTimestamp ++ "|"
   ++ visibility ++ "|" ++ commentBody)%string.

Definition comment_lines (t : ticketData) : list string :=
  flat_map (fun c => match c with
                     | Some c => [comment_line c]
                     | None => []
                     end) (comments t).

Definition attachment_line (a : attachmentPath) : list string :=
  let attachId := escapePipe (id_text (id a)) in
  let attachName := escapePipe (name a) in
  let attachPath := escapePipe (path a) in
  if negb (String.eqb attachPath "")
  then [("A|" ++ attachId ++ "|" ++ attachName ++ "|" ++ attachPath)%string]
  else [].

Definition attachment_lines (t : ticketData) : list string :=
  flat_map (fun a => match a with
                     | Some a => attachment_line a
                     | None => []
                     end) (attachments t).

(** The array [lines]. *)
Definition lines (t : ticketData) : list string :=
  ["TKT|v1"%string; header_line t]
    ++ description_lines t ++ comment_lines t ++ attachment_lines t.

(** [return lines.join('\n');] *)
Definition convertToTktFormat (t : ticketData) : string :=
  join (String LF EmptyString) (lines t).

(** *** Vocabulary of the statements about the ticket file *)

Definition chars (s : string) : list ascii := list_ascii_of_string s.

(** Every pipe has a backslash in front of it. *)
Fixpoint pipes_escaped (previous : ascii) (s : string) : bool :=
  match s with
  | EmptyString => true
  | String c rest =>
      (negb (Ascii.eqb c "|") || Ascii.eqb previous backslash)
      && pipes_escaped c rest
  end.

End Tkt.

(** ** Regular expressions of the content script *)

Module Regex.

(** The patterns the script uses are sequences of single characters,
    greedy repetitions of a character class and alternatives between
    literal strings.  They are matched as the JavaScript engine does:
    from left to right, a repetition taking as much as it can and giving
    back one character at a time when the rest fails, alternatives tried
    in the order written. *)
Inductive item :=
| Chr (class : ascii -> bool)                 (* one character of the class *)
| Many (least : nat) (class : ascii -> bool)  (* [class+] is [Many 1 class] *)
| OneOf (alternatives : list string).         (* [(png|svg|jpg)] *)

Fixpoint run_length (class : ascii -> bool) (s : string) : nat :=
  match s with
  | String c rest => if class c then S (run_length class rest) else 0
  | EmptyString => 0
  end.

Fixpoint skip (n : nat) (s : string) : string :=
  match n, s with
  | S n', String _ rest => skip n' rest
  | _, _ => s
  end.

Fixpoint take (n : nat) (s : string) : string :=
  match n, s with
  | S n', String c rest => String c (take n' rest)
  | _, _ => EmptyString
  end.

(** The pattern matched at the start of [s]; [to_end] is the anchor [$].
    The result is the text each item has matched. *)
Fixpoint match_here (items : list item) (to_end : bool) (s : string)
  : option (list string) :=
  match items with
  | [] =>
      if to_end
      then match s with EmptyString => Some [] | String _ _ => None end
      else Some []
  | Chr class :: rest =>
      match s with
      | String c s' =>
          if class c
          then option_map (cons (String c EmptyString)) (match_here rest to_end s')
          else None
      | EmptyString => None
      end
  | Many least class :: rest =>
      (fix give_back (taken : nat) : option (list string) :=
         if taken <? least then None
         else
           match match_here rest to_end (skip taken s) with
           | Some texts => Some (take taken s :: texts)
           | None =>
               match taken with
               | S fewer => give_back fewer
               | 0 => None
               end
           end) (run_length class s)
  | OneOf alternatives :: rest =>
      (fix next (alts : list string) : option (list string) :=
         match alts with
         | [] => None
         | a :: others =>
             if String.prefix a s
             then match match_here rest to_end (skip (String.length a) s) with
                  | Some texts => Some (a :: texts)
                  | None => next others
                  end
             else next others
         end) alternatives
  end.

(** The leftmost match: the texts matched and what comes before them. *)
Fixpoint search (items : list item) (to_end : bool) (s : string)
  : option (list string) :=
  match match_here items to_end s with
  | Some texts => Some texts
  | None =>
      match s with
      | String _ rest => search items to_end rest
      | EmptyString => None
      end
  end.

Definition is_some {A} (o : option A) : bool :=
  match o with Some _ => true | None => false end.

(** [regex.test(s)] for a pattern without [^]. *)
Definition test (items : list item) (to_end : bool) (s : string) : bool :=
  is_some (search items to_end s).

(** [regex.test(s)] for a pattern that begins with [^]. *)
Definition test_from_start (items : list item) (to_end : bool) (s : string) : bool :=
  is_some (match_here items to_end s).

Definition literal (c : ascii) : item := Chr (Ascii.eqb c).

Definition literally (s : string) : list item :=
  map literal (list_ascii_of_string s).

(** [\d] *)
Definition digit (c : ascii) : bool :=
  let n := nat_of_ascii c in (48 <=? n) && (n <=? 57).

(** [[a-f0-9]] *)
Definition hex (c : ascii) : bool :=
  let n := nat_of_ascii c in
  ((48 <=? n) && (n <=? 57)) || ((97 <=? n) && (n <=? 102)).

(** [[A-Z]] under the [i] flag *)
Definition letter (c : ascii) : bool :=
  let n := nat_of_ascii c in
  ((65 <=? n) && (n <=? 90)) || ((97 <=? n) && (n <=? 122)).

End Regex.

(** ** Collecting the files of a ticket *)

Module Collect.
Import Extractor Regex.

(** [String.prototype.split] with a character class as separator.  The
    script splits a name at [[-_\s]]; as for [trim], whitespace is the
    ASCII part of the class. *)
Fixpoint split_class (sep : ascii -> bool) (s : string) : list string :=
  match s with
  | EmptyString => [EmptyString]
  | String c s' =>
      if sep c then EmptyString :: split_class sep s'
      else match split_class sep s' with
           | p :: ps => String c p :: ps
           | [] => [String c EmptyString]
           end
  end.

Definition uiPatterns : list string :=
  ["jira icon"; "priority"; "status"; "issue type"; "component"; "emoji";
   "icon.ico"; "icon.svg"; "icon.png"; "fire"; "thumbs up"; "thumbs down";
   "homepage.png"]%string.

Definition genericNames : list string :=
  ["icon"; "image"; "img"; "picture"; "photo"]%string.

(** The pattern of an emoji file at the end of a URL: a slash, digits,
    hexadecimal digits, a dot and one of four extensions. *)
Definition emoji_file : list item :=
  [literal "/"; Many 1 digit; Many 1 hex; literal ".";
   OneOf ["png"; "svg"; "jpg"; "jpeg"]%string].

(** The pattern of a numbered image name, from the start to the end. *)
Definition numbered_image : list item :=
  literally "image-"
    ++ [Many 1 digit; literal "."; OneOf ["svg"; "png"; "jpg"; "jpeg"; "gif"; "ico"]%string].

(** [isUnnecessaryFile(url, name)] *)
Definition isUnnecessaryFile (url name : string) : bool :=
  let urlLower := toLowerCase url in
  let nameLower := toLowerCase name in
  if includes urlLower "avatar" || includes nameLower "avatar" then true
  else if startsWith url "data:" then true
  else if existsb (fun pattern => includes nameLower pattern) uiPatterns then true
  else if includes urlLower "pf-emoji-service"
          || includes urlLower "emoji-service"
          || includes urlLower "atlassian.com/emoji"
          || includes urlLower "atlassian.net/emoji" then true
  else if test emoji_file true urlLower then true
  else if test_from_start numbered_image true nameLower then true
  else if (includes urlLower "atlassian.net" || includes urlLower "atlassian.com")
          && (includes urlLower "/icons/"
              || includes urlLower "/images/"
              || includes urlLower "/assets/"
              || includes urlLower "avatar-management") then true
  else if existsb (fun g => String.eqb nameLower g
                            || startsWith nameLower (String.append g "-"))
                  genericNames
          && (length (split_class (fun c => Ascii.eqb c "-" || Ascii.eqb c "_"
                                            || is_space c) nameLower) <=? 2)
       then true
  else false.

(** *** [extractImages] *)

(** An [img] element with a [src] attribute. *)
Record img := {
  src : string;
  alt : option string
}.

Section Images.

(** [new URL(src, window.location.origin).href]; [None] when the
    constructor throws. *)
Variable resolve : string -> option string.

(** The name of an image: [img.getAttribute('alt') || `image-${index + 1}`]. *)
Definition image_name (index : nat) (i : img) : string :=
  match alt i with
  | Some a => if String.eqb a "" then String.append "image-" (string_of_nat (index + 1))
              else a
  | None => String.append "image-" (string_of_nat (index + 1))
  end.

(** One call of the [forEach] callback on the state [(images,
    seenImageUrls)]; [None] when it throws. *)
Definition image_callback (st : list file * list string) (index : nat) (i : img)
  : option (list file * list string) :=
  if String.eqb (src i) "" then Some st
  else if startsWith (src i) "blob:" then Some st
  else
    match (if startsWith (src i) "http" then Some (src i) else resolve (src i)) with
    | None => None
    | Some url =>
        if existsb (String.eqb url) (snd st) then Some st
        else if isUnnecessaryFile url (image_name index i)
        then Some (fst st, snd st ++ [url])
        else Some (fst st ++ [{| file_id := index + 1;
                                 file_name := image_name index i;
                                 file_url := url |}],
                   snd st ++ [url])
    end.

Fixpoint forEach_images (st : list file * list string) (index : nat) (imgs : list img)
  : option (list file * list string) :=
  match imgs with
  | [] => Some st
  | i :: rest =>
      match image_callback st index i with
      | Some st' => forEach_images st' (S index) rest
      | None => None
      end
  end.

Definition extractImages (imgElements : list img) : option (list file) :=
  option_map fst (forEach_images ([], []) 0 imgElements).

(** What holds of the state of the loop before the image at [index]. *)
Record images_invariant (imgs : list img) (index : nat)
    (st : list file * list string) : Prop := {
  urls_seen : incl (map file_url (fst st)) (snd st);
  urls_distinct : NoDup (map file_url (fst st));
  ids_ascending : StronglySorted lt (map file_id (fst st));
  ids_bound : Forall (fun f => file_id f <= index) (fst st);
  from_page :
    Forall (fun f =>
      isUnnecessaryFile (file_url f) (file_name f) = false
      /\ exists i, nth_error imgs (file_id f - 1) = Some i
           /\ 1 <= file_id f
           /\ alt i = Some (file_name f) /\ file_name f <> EmptyString
           /\ startsWith (src i) "blob:" = false
           /\ (if startsWith (src i) "http" then src i = file_url f
               else resolve (src i) = Some (file_url f))) (fst st)
}.

End Images.

(** *** [extractTicket]: one list of files *)

(** A [Map] with string keys; it keeps the keys in the order in which
    they were first set. *)
Definition Map_has {V} (m : list (string * V)) (key : string) : bool :=
  existsb (fun kv => String.eqb (fst kv) key) m.

Fixpoint Map_set {V} (m : list (string * V)) (key : string) (v : V)
  : list (string * V) :=
  match m with
  | [] => [(key, v)]
  | (k, v') :: rest =>
      if String.eqb k key then (k, v) :: rest else (k, v') :: Map_set rest key v
  end.

(** [[...attachments, ...commentAttachments, ...images].forEach(file => {
    if (!allAttachmentsMap.has(file.url)) allAttachmentsMap.set(file.url, file); });
    const allFiles = Array.from(allAttachmentsMap.values());] *)
Definition allFiles (attachments commentAttachments images : list file) : list file :=
  map snd
    (fold_left (fun m f => if Map_has m (file_url f) then m
                           else Map_set m (file_url f) f)
               (attachments ++ commentAttachments ++ images) []).

(** [l] is [all] with some elements left out, the others in their
    order. *)
Inductive Subsequence {A} : list A -> list A -> Prop :=
| Subsequence_nil : Subsequence [] []
| Subsequence_keep x l all : Subsequence l all -> Subsequence (x :: l) (x :: all)
| Subsequence_drop x l all : Subsequence l all -> Subsequence l (x :: all).

(** What holds of [allAttachmentsMap] after the files [seen]. *)
Record map_invariant (m : list (string * file)) (seen : list file) : Prop := {
  keys_are_urls : Forall (fun kv => fst kv = file_url (snd kv)) m;
  keys_distinct : NoDup (map fst m);
  keys_complete : forall u, In u (map file_url seen) <-> In u (map fst m);
  values_first : Forall (fun g => exists before after,
                           seen = before ++ g :: after
                           /\ ~ In (file_url g) (map file_url before)) (map snd m);
  values_in_order : Subsequence (map snd m) seen
}.

(** *** The download loops *)

Section Loops.

Variable ticketKey : string.
Variable blobUrl_of : file -> option string.     (* [file.blobUrl] *)
(** What the network does for the attempts on a file. *)
Variable session_world : file -> world.

(** [await downloadFile(file.url, file.name, file.blobUrl, false, null)] *)
Definition session_download (f : file) : option download :=
  snd (downloadFile (file_url f) (file_name f) (blobUrl_of f) false None
                    (session_world f)).

(** The files of which the loop of [extractTicket] makes an entry. *)
Definition dom_kept (f : file) : bool :=
  negb (isUnnecessaryFile (file_url f) (file_name f))
  && is_some (session_download f).

(** The state of a loop: [attachmentPaths] and [downloadCount]. *)
Definition loop_state : Type := list attachmentPath * nat.

(** The body of the loop of [extractTicket]. *)
Definition dom_body (st : loop_state) (f : file) : option loop_state :=
  if isUnnecessaryFile (file_url f) (file_name f) then Some st      (* [continue] *)
  else
    match session_download f with
    | Some result =>
        match add_file dom_filename ticketKey (fst st) f with
        | Some attachmentPaths => Some (attachmentPaths, S (snd st))
        | None => None
        end
    | None => Some st
    end.

(** The same body, over what it skips, how it downloads and how it makes
    the first name of a file. *)
Definition body (skipped : file -> bool) (download_of : file -> option download)
    (first_name : file -> string) (st : loop_state) (f : file) : option loop_state :=
  if skipped f then Some st
  else
    match download_of f with
    | Some result =>
        match add_file first_name ticketKey (fst st) f with
        | Some attachmentPaths => Some (attachmentPaths, S (snd st))
        | None => None
        end
    | None => Some st
    end.

(** [for (const file of allFiles) { ... }]; [None] when the naming loop
    of a file has run out of its bound. *)
Fixpoint for_of (body : loop_state -> file -> option loop_state)
    (st : loop_state) (files : list file) : option loop_state :=
  match files with
  | [] => Some st
  | f :: rest =>
      match body st f with
      | Some st' => for_of body st' rest
      | None => None
      end
  end.

End Loops.

(** *** The loop of [extractTicketViaAPI] *)

(** A [const] of a block is in scope from the start of the block and
    stays uninitialised until its declaration has run. *)
Inductive binding (A : Type) : Type :=
| Uninitialised
| Initialised (value : A).

Arguments Uninitialised {A}.
Arguments Initialised {A} value.

Inductive exception := ReferenceError.

(** Reading a binding: a ReferenceError while it is uninitialised. *)
Definition read {A} (b : binding A) : exception + A :=
  match b with
  | Uninitialised => inl ReferenceError
  | Initialised value => inr value
  end.

(** [file.apiUrl || file.url] *)
Definition apiUrl_or_url (apiUrl : option string) (f : file) : string :=
  match apiUrl with
  | Some u => if String.eqb u "" then file_url f else u
  | None => file_url f
  end.

(** What the loop has done: [attachmentPaths], [downloadCount], the calls
    of [downloadFile] (the URL and [useApiAuth]) and the names of the
    files the [catch] has warned about. *)
Record api_state := {
  api_attachmentPaths : list attachmentPath;
  api_downloadCount : nat;
  api_calls : list (string * bool);
  api_warnings : list string
}.

Definition api_start : api_state :=
  {| api_attachmentPaths := []; api_downloadCount := 0;
     api_calls := []; api_warnings := [] |}.

Definition called (st : api_state) (url : string) (useApiAuth : bool) : api_state :=
  {| api_attachmentPaths := api_attachmentPaths st;
     api_downloadCount := api_downloadCount st;
     api_calls := api_calls st ++ [(url, useApiAuth)];
     api_warnings := api_warnings st |}.

Definition archived (st : api_state) (attachmentPaths : list attachmentPath)
  : api_state :=
  {| api_attachmentPaths := attachmentPaths;
     api_downloadCount := S (api_downloadCount st);
     api_calls := api_calls st;
     api_warnings := api_warnings st |}.

Definition warned (st : api_state) (name : string) : api_state :=
  {| api_attachmentPaths := api_attachmentPaths st;
     api_downloadCount := api_downloadCount st;
     api_calls := api_calls st;
     api_warnings := api_warnings st ++ [name] |}.

Section ApiLoop.

Variable ticketKey : string.
Variable blobUrl_of : file -> option string.     (* [file.blobUrl] *)
Variable apiUrl_of : file -> option string.      (* [file.apiUrl] *)
(** [`Basic ${btoa(`${result.jiraEmail}:${result.jiraApiToken}`)}`], for
    what [result] holds. *)
Variable authHeader_of : download -> string.
Variable session_world : file -> world.
Variable api_world : file -> world.

(** The [try] block of one iteration: the state it ends with, or what it
    throws; [None] when the naming loop runs out of its bound.  The block
    declares [const result = downloadResult] after the download, so the
    [result] its first statement reads is that constant, uninitialised. *)
Definition api_try (st : api_state) (f : file) : option (exception + api_state) :=
  if String.eqb (file_url f) "" then Some (inr st)                 (* [continue] *)
  else
    let result : binding download := Uninitialised in
    match read result with                 (* [result.jiraEmail], in [credentials] *)
    | inl e => Some (inl e)
    | inr settings =>
        let authHeader := authHeader_of settings in
        let url := apiUrl_or_url (apiUrl_of f) f in
        let st1 := called st url true in
        let first :=
          snd (downloadFile url (file_name f) (blobUrl_of f) true (Some authHeader)
                            (api_world f)) in
        let st2 :=
          match first with
          | Some _ => st1
          | None => called st1 (file_url f) false
          end in
        let downloadResult :=
          match first with
          | Some d => Some d
          | None => session_download blobUrl_of session_world f
          end in
        match downloadResult with
        | None => Some (inr st2)                                   (* [continue] *)
        | Some _ =>
            match add_file api_filename ticketKey (api_attachmentPaths st2) f with
            | Some attachmentPaths => Some (inr (archived st2 attachmentPaths))
            | None => None
            end
        end
    end.

(** One iteration: [try { ... } catch (error) { console.warn(...) }]. *)
Definition api_body (st : api_state) (f : file) : option api_state :=
  match api_try st f with
  | Some (inr st') => Some st'
  | Some (inl error) => Some (warned st (file_name f))
  | None => None
  end.

(** [for (const file of allFiles) { ... }] *)
Fixpoint api_for_of (st : api_state) (files : list file) : option api_state :=
  match files with
  | [] => Some st
  | f :: rest =>
      match api_body st f with
      | Some st' => api_for_of st' rest
      | None => None
      end
  end.

(** [ticketData.attachments = attachmentPaths;
     const tktContent = convertToTktFormat(ticketData);] after the loop
    over [allFiles], the attachments of the ticket. *)
Definition api_ticket_file (ticketData : Tkt.ticketData) (allFiles : list file)
  : option string :=
  match api_for_of api_start allFiles with
  | Some st =>
      Some (Tkt.convertToTktFormat
              {| Tkt.ticketKey := Tkt.ticketKey ticketData;
                 Tkt.title := Tkt.title ticketData;
                 Tkt.ticket_url := Tkt.ticket_url ticketData;
                 Tkt.extractedAt := Tkt.extractedAt ticketData;
                 Tkt.description := Tkt.description ticketData;
                 Tkt.comments := Tkt.comments ticketData;
                 Tkt.attachments := map Some (api_attachmentPaths st) |})
  | None => None
  end.

End ApiLoop.

End Collect.
(** ** The key of the ticket *)

Module TicketKey.
Import Extractor Regex.

(** A literal character under the [i] flag. *)
Definition literal_i (c : ascii) : item :=
  Chr (fun x => Ascii.eqb (lower x) (lower c)).

(** [[A-Z]+-\d+] under the [i] flag *)
Definition key_pattern : list item :=
  [Many 1 letter; literal "-"; Many 1 digit].

(** [\/browse\/([A-Z]+-\d+)] under the [i] flag *)
Definition browse_pattern : list item :=
  map literal_i (list_ascii_of_string "/browse/") ++ key_pattern.

(** [([A-Z]{2,}\d+-\d+)] under the [i] flag *)
Definition long_key_pattern : list item :=
  [Many 2 letter; Many 1 digit; literal "-"; Many 1 digit].

(** [const m = s.match(pattern); if (m && m[1]) ...]: the text of the
    group, which begins after the first [before] items; [None] when there
    is no match or the group is empty. *)
Definition group (before : nat) (pattern : list item) (s : string) : option string :=
  match search pattern false s with
  | Some texts =>
      let g := String.concat EmptyString (List.skipn before texts) in
      if String.eqb g "" then None else Some g
  | None => None
  end.

Definition browse_key (s : string) : option string := group 8 browse_pattern s.
Definition simple_key (s : string) : option string := group 0 key_pattern s.
Definition long_key (s : string) : option string := group 0 long_key_pattern s.

(** [const parts = s.split('/').filter(p => p); if (parts.length > 0) {
    const last = parts[parts.length - 1];
    if (last.match(/^[A-Z]+-\d+$/i)) ... }] *)
Definition last_segment_key (s : string) : option string :=
  let parts := filter (fun p => negb (String.eqb p "")) (split "/" s) in
  match parts with
  | [] => None
  | _ :: _ =>
      let lastPart := last parts EmptyString in
      if test_from_start key_pattern true lastPart then Some lastPart else None
  end.

Definition UNKNOWN : string := "UNKNOWN".

(** [extractTicketKeyFromUrl(url)] *)
Definition extractTicketKeyFromUrl (url : string) : string :=
  if String.eqb url "" then UNKNOWN
  else
    match browse_key url with
    | Some k => k
    | None =>
        match long_key url with
        | Some k => k
        | None =>
            match simple_key url with
            | Some k => k
            | None => UNKNOWN
            end
        end
    end.

(** An element [document.querySelector] has found: its text and its
    [href] attribute. *)
Record element := {
  text : string;           (* [el.textContent || el.innerText || ''] *)
  href : option string
}.

(** The page as [extractTicketKey] reads it: [window.location.href],
    [window.location.pathname] and what [document.querySelector] finds
    for each of the five selectors, in their order. *)
Record page := {
  location_href : string;
  location_pathname : string;
  found : list (option element)
}.

(** The loop over the selectors: the first key found. *)
Fixpoint from_elements (els : list (option element)) : option string :=
  match els with
  | [] => None
  | None :: rest => from_elements rest
  | Some el :: rest =>
      match simple_key (text el) with
      | Some k => Some k
      | None =>
          match (match href el with
                 | Some h => if String.eqb h "" then None else simple_key h
                 | None => None
                 end) with
          | Some k => Some k
          | None => from_elements rest
          end
      end
  end.

Definition or_else {A} (first : option A) (next : option A) : option A :=
  match first with Some x => Some x | None => next end.

(** [extractTicketKey()] *)
Definition extractTicketKey (p : page) : string :=
  let url := location_href p in
  let pathname := location_pathname p in
  match or_else (browse_key url)
       (or_else (browse_key pathname)
       (or_else (simple_key pathname)
       (or_else (simple_key url)
       (or_else (from_elements (found p))
       (or_else (last_segment_key pathname)
                (last_segment_key url)))))) with
  | Some k => k
  | None => UNKNOWN
  end.

(** The key [extractTicket] settles on before it builds the archive, and
    the name of the folder, [finalTicketKey]. *)
Definition settled_key (p : page) : string :=
  let ticketKey := extractTicketKey p in
  let currentUrl := location_href p in
  let ticketKey :=
    if String.eqb ticketKey UNKNOWN then
      match browse_key currentUrl with
      | Some k => k
      | None =>
          match long_key currentUrl with
          | Some k => k
          | None =>
              match last_segment_key (location_pathname p) with
              | Some k => k
              | None => ticketKey
              end
          end
      end
    else ticketKey in
  if String.eqb ticketKey UNKNOWN then extractTicketKeyFromUrl currentUrl
  else ticketKey.

Definition finalTicketKey (p : page) : string :=
  let ticketKey := settled_key p in
  if negb (String.eqb ticketKey UNKNOWN) then ticketKey else "jira-ticket".

(** *** Vocabulary of the statements about keys *)

(** What an item has matched. *)
Definition item_matches (i : item) (t : string) : Prop :=
  match i with
  | Chr class => exists c, t = String c EmptyString /\ class c = true
  | Many least class =>
      least <= String.length t
      /\ Forall (fun c => class c = true) (list_ascii_of_string t)
  | OneOf alternatives => In t alternatives
  end.

(** Letters, then a hyphen, then digits. *)
Definition plain_key (k : string) : Prop :=
  exists l d,
    k = (l ++ "-" ++ d)%string
    /\ l <> EmptyString /\ d <> EmptyString
    /\ Forall (fun c => letter c = true) (list_ascii_of_string l)
    /\ Forall (fun c => digit c = true) (list_ascii_of_string d).

(** Two letters or more, digits, a hyphen, digits. *)
Definition numbered_key (k : string) : Prop :=
  exists l n d,
    k = (l ++ n ++ "-" ++ d)%string
    /\ 2 <= String.length l /\ n <> EmptyString /\ d <> EmptyString
    /\ Forall (fun c => letter c = true) (list_ascii_of_string l)
    /\ Forall (fun c => digit c = true) (list_ascii_of_string n)
    /\ Forall (fun c => digit c = true) (list_ascii_of_string d).

Definition key_character (c : ascii) : bool :=
  letter c || digit c || Ascii.eqb c "-".

End TicketKey.

(** ** The one-shot fetch: [downloadFileAsBlob] and its client *)

Module OneShot.
Import Extractor.

(** *** Base64, as [FileReader.readAsDataURL] writes it and [atob] reads
    it *)

Definition alphabet : list ascii :=
  list_ascii_of_string
    "ABCDEFGHIJKLMNOPQRSTUVWXYZabcdefghijklmnopqrstuvwxyz0123456789+/".

Definition character_of (sextet : nat) : ascii := nth sextet alphabet "A"%char.

Fixpoint index_of (c : ascii) (l : list ascii) : option nat :=
  match l with
  | [] => None
  | x :: rest =>
      if Ascii.eqb x c then Some 0 else option_map S (index_of c rest)
  end.

Definition sextet_of (c : ascii) : option nat := index_of c alphabet.

(** The encoding of RFC 4648, with padding. *)
Fixpoint encode (data : list nat) : list ascii :=
  match data with
  | [] => []
  | [a] =>
      [character_of (a / 4); character_of ((a mod 4) * 16); "="; "="]%char
  | [a; b] =>
      [character_of (a / 4); character_of ((a mod 4) * 16 + b / 16);
       character_of ((b mod 16) * 4); "="%char]
  | a :: b :: c :: rest =>
      character_of (a / 4) :: character_of ((a mod 4) * 16 + b / 16)
        :: character_of ((b mod 16) * 4 + c / 64) :: character_of (c mod 64)
        :: encode rest
  end.

Definition base64 (b : bytes) : string :=
  string_of_list_ascii (encode (map Byte.to_nat b)).

(** [reader.readAsDataURL(blob)]: [media_type] is what the reader writes
    for the type of the blob. *)
Definition readAsDataURL (media_type : string) (b : Blob) : string :=
  ("data:" ++ media_type ++ ";base64," ++ base64 (blob_bytes b))%string.

(** ASCII whitespace, which [atob] leaves out. *)
Definition ascii_whitespace (c : ascii) : bool :=
  let n := nat_of_ascii c in
  (n =? 9) || (n =? 10) || (n =? 12) || (n =? 13) || (n =? 32).

(** One or two [=] at the end of a text whose length is a multiple of
    four are dropped. *)
Definition strip_padding (cs : list ascii) : list ascii :=
  if length cs mod 4 =? 0 then
    match rev cs with
    | p :: q :: r =>
        if Ascii.eqb p "=" then
          if Ascii.eqb q "=" then rev r else rev (q :: r)
        else cs
    | _ => cs
    end
  else cs.

Fixpoint sextets (cs : list ascii) : option (list nat) :=
  match cs with
  | [] => Some []
  | c :: rest =>
      match sextet_of c, sextets rest with
      | Some s, Some ss => Some (s :: ss)
      | _, _ => None
      end
  end.

(** Four sextets give three bytes; three left over give two, two give
    one. *)
Fixpoint octets (ss : list nat) : list nat :=
  match ss with
  | s1 :: s2 :: s3 :: s4 :: rest =>
      (s1 * 4 + s2 / 16) :: ((s2 mod 16) * 16 + s3 / 4) :: ((s3 mod 4) * 64 + s4)
        :: octets rest
  | [s1; s2; s3] => [s1 * 4 + s2 / 16; (s2 mod 16) * 16 + s3 / 4]
  | [s1; s2] => [s1 * 4 + s2 / 16]
  | _ => []
  end.

Definition byte_of_nat (n : nat) : byte :=
  match Byte.of_nat n with Some b => b | None => x00 end.

(** [atob(data)] followed by the loop over [charCodeAt]: the bytes, or
    [None] when [atob] throws. *)
Definition atob (data : string) : option bytes :=
  let cs := strip_padding
              (filter (fun c => negb (ascii_whitespace c)) (list_ascii_of_string data)) in
  if length cs mod 4 =? 1 then None
  else
    match sextets cs with
    | Some ss => Some (map byte_of_nat (octets ss))
    | None => None
    end.

(** The text of an encoding: the characters of sextets, then the padding;
    the sextets give the data back. *)

Record encoding (data : list nat) (ss : list nat) (pad : list ascii) : Prop := {
  enc_text : encode data = map character_of ss ++ pad;
  enc_sextets : Forall (fun s => s < 64) ss;
  enc_padding : (pad = [] /\ length ss mod 4 = 0)
                \/ (pad = ["="%char] /\ length ss mod 4 = 3)
                \/ (pad = ["="%char; "="%char] /\ length ss mod 4 = 2);
  enc_octets : octets ss = data
}.

(** *** The service worker *)

(** [reader.result.split(',')[1]]; a missing element is [undefined],
    which the client treats like the empty string. *)
Definition base64data (result : string) : string :=
  nth 1 (split "," result) EmptyString.

(** The reply of [downloadFileAsBlob] when the fetch is ok and the reader
    has loaded the blob: [{ success: true, blob: base64data, type:
    blob.type, size: blob.size }].  The client decodes with [atob]. *)
Definition loaded_reply (media_type : string) (b : Blob) : reply :=
  let data := base64data (readAsDataURL media_type b) in
  {| success := true; blob_base64 := data; decoded := atob data;
     reply_type := blob_type b |}.

(** What happens to the request of the service worker: the fetch
    rejects, or it resolves with a response whose [blob()] resolves
    ([Some]) or rejects ([None]); [reader_loads] says whether the
    [FileReader] then loads the blob or fails. *)
Inductive blob_fetch :=
| FetchRejects
| FetchResolves (ok : bool) (body : option Blob) (reader_loads : bool).

(** [{ success: false, error: ... }] *)
Definition failure_reply : reply :=
  {| success := false; blob_base64 := EmptyString; decoded := None;
     reply_type := EmptyString |}.

(** The handler of [downloadFileAsBlob]: the reply it sends. *)
Definition downloadFileAsBlob (media_type : string) (f : blob_fetch) : reply :=
  match f with
  | FetchRejects => failure_reply                    (* [.catch] *)
  | FetchResolves ok body reader_loads =>
      if negb ok then failure_reply                  (* [throw new Error(`HTTP ...`)] *)
      else
        match body with
        | None => failure_reply
        | Some b =>
            if reader_loads then loaded_reply media_type b
            else failure_reply                       (* [reader.onerror] *)
        end
  end.

End OneShot.

(** ** [cleanHtml]: the text of a piece of the page *)

Module Html.

(** A string of the page is a sequence of UTF-16 code units. *)
Definition text : Type := list N.

Definition SPACE : N := 32.

(** The characters [\s] matches and [trim] strips, the white space and
    the line terminators of ECMAScript: U+0009 to U+000D, U+0020, U+00A0,
    U+1680, U+2000 to U+200A, U+2028, U+2029, U+202F, U+205F, U+3000 and
    U+FEFF. *)
Definition is_white_space (c : N) : bool :=
  ((9 <=? c) && (c <=? 13)
   || (c =? 32) || (c =? 160) || (c =? 5760)
   || (8192 <=? c) && (c <=? 8202)
   || (c =? 8232) || (c =? 8233) || (c =? 8239) || (c =? 8287)
   || (c =? 12288) || (c =? 65279))%N.

(** [text.replace(/\s+/g, ' ')]: every run of white space becomes one
    space.  [in_run] says that the code unit before was white space. *)
Fixpoint collapse_from (in_run : bool) (t : text) : text :=
  match t with
  | [] => []
  | c :: rest =>
      if is_white_space c
      then if in_run then collapse_from true rest
           else SPACE :: collapse_from true rest
      else c :: collapse_from false rest
  end.

Definition collapse (t : text) : text := collapse_from false t.

Fixpoint trim_start (t : text) : text :=
  match t with
  | [] => []
  | c :: rest => if is_white_space c then trim_start rest else t
  end.

(** [String.prototype.trim] *)
Definition trim (t : text) : text := rev (trim_start (rev (trim_start t))).

Section Page.

(** What the walk over the parsed nodes gives for a piece of HTML: the
    text, with the struck-through parts between [<s>] and [</s>]. *)
Variable extractTextWithStrikethrough : text -> text.

(** [cleanHtml(html)] *)
Definition cleanHtml (html : text) : text :=
  match html with
  | [] => []                                        (* [if (!html) return '';] *)
  | _ => trim (collapse (extractTextWithStrikethrough html))
  end.

End Page.

(** The text of [a&nbsp;&nbsp;b&nbsp;]: the letters with no-break spaces. *)
Definition nbsp_text : text := [97; 160; 160; 98; 160]%N.

End Html.
(** ** The cascade of [downloadFile] as a list of strategies *)

Module CascadePlan.
Import Extractor.

(** [after tr o]: the outcome [o] of a part of the cascade, behind the
    operations [tr] started before it. *)
Definition after (tr : list attempt) (o : outcome) : outcome := (tr ++ fst o, snd o).

Section Plan.

Variable url : string.
Variable filename_ : string.
Variable blobUrl : option string.
Variable useApiAuth : bool.
Variable apiAuthHeader : option string.
Variable w : world.

(** The tests in front of the call sites. *)

(** [blobUrl && blobUrl.startsWith('blob:')] *)
Definition has_handle : bool :=
  match blobUrl with
  | Some b => startsWith b "blob:"
  | None => false
  end.

(** Not [url.startsWith('blob:') || url.startsWith('data:')], for which
    [downloadFile] returns null after the local handle. *)
Definition remote : bool :=
  negb (startsWith url "blob:" || startsWith url "data:").

(** [useApiAuth && apiAuthHeader] *)
Definition api_auth : bool := useApiAuth && truthy apiAuthHeader.

(** [url.includes('/secure/attachment/') || url.includes('/attachment/')] *)
Definition attachment_url : bool :=
  includes url "/secure/attachment/" || includes url "/attachment/".

(** [url.includes('/rest/api/')] *)
Definition api_url : bool := includes url "/rest/api/".

(** The same-origin fetch carries the Authorization header. *)
Definition sends_authorization : bool := api_auth && api_url.

(** The response in hand after the same-origin fetch and, if that one was
    not ok, the fetch that includes the credentials; [None] when there is
    none (the first fetch threw, or the second did and left null). *)
Definition in_hand : option PageResponse :=
  match fetch_same_origin w with
  | Throws => None
  | Responds r1 =>
      if r_ok r1 then Some r1
      else match fetch_include w with
           | Throws => None
           | Responds r2 => Some r2
           end
  end.

(** A response that is visible (not opaque), not ok, with status 403. *)
Definition forbidden (r : PageResponse) : bool :=
  negb (is_opaque (r_type r)) && negb (r_ok r) && (r_status r =? 403).

(** The second same-origin fetch is due: API auth and a forbidden
    response in hand. *)
Definition again : bool :=
  api_auth && match in_hand with
              | Some r => forbidden r
              | None => false
              end.

(** A response that sends the cascade to the XHR: not ok, with status
    403 or opaque. *)
Definition denied (r : PageResponse) : bool :=
  negb (r_ok r) && ((r_status r =? 403) || is_opaque (r_type r)).

(** The XHR after the fetches is due: the same-origin fetch threw; or
    the second same-origin fetch threw or was denied; or, without a
    second same-origin fetch, the response in hand is visible and
    denied. *)
Definition fallback : bool :=
  match fetch_same_origin w with
  | Throws => true
  | Responds _ =>
      if again then
        match fetch_same_origin_again w with
        | Throws => true
        | Responds r3 => denied r3
        end
      else match in_hand with
           | Some r => negb (is_opaque (r_type r)) && denied r
           | None => false
           end
  end.

(** The condition of each strategy. *)
Definition applicable (a : attempt) : bool :=
  match a with
  | LocalHandle => has_handle
  | OneShotAuth => remote && api_auth
  | XhrFirst => remote && attachment_url
  | FetchSameOrigin _ => remote
  | FetchInclude =>
      remote && match fetch_same_origin w with
                | Responds r1 => negb (r_ok r1)
                | Throws => false
                end
  | FetchSameOriginAgain => remote && again
  | XhrFallback => remote && fallback
  | Streaming => remote
  end.

(** The strategies, in the order of the call sites. *)
Definition strategies : list attempt :=
  [LocalHandle; OneShotAuth; XhrFirst; FetchSameOrigin sends_authorization;
   FetchInclude; FetchSameOriginAgain; XhrFallback; Streaming].

(** A fetch whose transport succeeded with nothing in the body: an ok
    response with a blob of size 0.  After the first two fetches an
    opaque response goes to the streaming fetch before its body is
    looked at. *)
Definition answered_empty (visible_only : bool) (o : fetch_outcome) : bool :=
  match o with
  | Responds r =>
      r_ok r && negb (visible_only && is_opaque (r_type r))
      && match r_blob r with
         | Some b => size b =? 0
         | None => false
         end
  | Throws => false
  end.

(** An XHR that loads with status 200 and an empty blob: the first
    request, or the second one after an error of the first. *)
Definition loaded_empty (x : xhr_outcome * xhr_outcome) : bool :=
  let empty o :=
    match o with
    | XLoad status (Some b) => (status =? 200) && (size b =? 0)
    | _ => false
    end in
  match fst x with
  | XError => empty (snd x)
  | first => empty first
  end.

(** The transport of the operation reported success with a zero-length
    blob. *)
Definition empty_payload (a : attempt) : bool :=
  match a with
  | LocalHandle => answered_empty false (local_fetch w)
  | XhrFirst => loaded_empty (xhr_first w)
  | FetchSameOrigin _ => answered_empty true (fetch_same_origin w)
  | FetchInclude => answered_empty true (fetch_include w)
  | FetchSameOriginAgain => answered_empty false (fetch_same_origin_again w)
  | XhrFallback => loaded_empty (xhr_fallback w)
  | OneShotAuth => false
  | Streaming => false
  end.

(** The three calls of [fetch] in the page. *)
Definition in_page_fetch (a : attempt) : bool :=
  match a with
  | FetchSameOrigin _ | FetchInclude | FetchSameOriginAgain => true
  | _ => false
  end.

(** An in-page fetch answered ok with an empty body. *)
Definition empty_body (a : attempt) : bool := in_page_fetch a && empty_payload a.

(** Trying candidates in order: stop at the first that yields a payload,
    with it; stop with null at an in-page fetch answered ok with an empty
    body; with null when no candidate is left. *)
Fixpoint try_in_order (candidates : list attempt) : outcome :=
  match candidates with
  | [] => ([], None)
  | a :: rest =>
      match yields filename_ w a with
      | Some payload => ([a], Some payload)
      | None =>
          if empty_body a then ([a], None)
          else (a :: fst (try_in_order rest), snd (try_in_order rest))
      end
  end.

(** The candidate ends the cascade. *)
Definition stops (a : attempt) : bool :=
  match yields filename_ w a with
  | Some _ => true
  | None => empty_body a
  end.

(** The cascade, strategy by strategy. *)
Definition cascade : outcome := try_in_order (filter applicable strategies).

End Plan.

(** The callback of [sendMessage] gets nothing, or what the handler of
    [downloadFileAsBlob] in the service worker sends for some request,
    the reader writing a media type without a comma into the data URL. *)
Definition from_worker (o : sendMessage_outcome) : Prop :=
  match o with
  | LastError => True
  | Replied None => True
  | Replied (Some response) =>
      exists media_type f,
        ~ In ","%char (list_ascii_of_string media_type)
        /\ response = OneShot.downloadFileAsBlob media_type f
  end.

End CascadePlan.

(** * Properties *)

(** ** The subdividing loop and the messages of one read *)

Module RelayFacts.
Import Background.

#[local] Arguments MAX_CHUNK_SIZE : simpl never.

Lemma MAX_CHUNK_SIZE_pos : 0 < MAX_CHUNK_SIZE.
Proof. unfold MAX_CHUNK_SIZE. lia. Qed.

(** The loop, unfolded once. *)
Lemma for_loop_unfold d rid buf off :
  for_loop d rid buf off =
  if off <? length buf then
    if d then []
    else chunk_message rid (slice buf off (off + MAX_CHUNK_SIZE))
           :: for_loop d rid buf (off + MAX_CHUNK_SIZE)
  else [].
Proof.
  rewrite for_loop_equation_1. unfold for_loop_clause_1.
  destruct (lt_dec off (length buf)) as [H|H].
  - rewrite (proj2 (Nat.ltb_lt _ _) H). reflexivity.
  - rewrite (proj2 (Nat.ltb_nlt _ _) H). reflexivity.
Qed.

Lemma for_loop_past_end d rid buf off :
  length buf <= off -> for_loop d rid buf off = [].
Proof.
  intros H. rewrite for_loop_unfold.
  destruct (off <? length buf) eqn:E; [apply Nat.ltb_lt in E; lia | reflexivity].
Qed.

Lemma for_loop_disconnected rid buf off : for_loop true rid buf off = [].
Proof. rewrite for_loop_unfold. destruct (off <? length buf); reflexivity. Qed.

(** Induction along the loop: [P] holds of every offset if it holds past
    the end and is carried back over one iteration. *)
Lemma for_loop_ind (buf : bytes) (P : nat -> Prop) :
  (forall off, length buf <= off -> P off) ->
  (forall off, off < length buf -> P (off + MAX_CHUNK_SIZE) -> P off) ->
  forall off, P off.
Proof.
  intros Hend Hstep off.
  remember (length buf - off) as n eqn:Hn.
  revert off Hn. induction n as [n IH] using lt_wf_ind. intros off Hn.
  destruct (le_lt_dec (length buf) off) as [Hle|Hlt].
  - apply Hend, Hle.
  - apply Hstep; [exact Hlt|].
    apply (IH (length buf - (off + MAX_CHUNK_SIZE))); [|reflexivity].
    pose proof MAX_CHUNK_SIZE_pos. lia.
Qed.

Lemma slice_length buf b e : length (slice buf b e) <= e - b.
Proof. unfold slice. rewrite length_firstn. lia. Qed.

Lemma slice_whole (buf : bytes) : slice buf 0 (0 + length buf) = buf.
Proof.
  unfold slice. rewrite Nat.add_0_l, Nat.sub_0_r. simpl skipn.
  apply firstn_all.
Qed.

Lemma payload_chunk_message rid b : payload (chunk_message rid b) = b.
Proof. reflexivity. Qed.

(** The slices of the loop, put end to end, are the buffer from the
    starting offset on. *)
Lemma for_loop_payload rid buf off :
  concat (map payload (for_loop false rid buf off)) = skipn off buf.
Proof.
  revert off. apply (for_loop_ind buf); intros off H.
  - rewrite for_loop_past_end by exact H. cbn [map concat].
    symmetry. apply skipn_all2. exact H.
  - intros IH. rewrite for_loop_unfold.
    rewrite (proj2 (Nat.ltb_lt _ _) H). cbn [map concat]. rewrite IH.
    rewrite payload_chunk_message. unfold slice. replace (off + MAX_CHUNK_SIZE - off) with MAX_CHUNK_SIZE by lia.
    rewrite Nat.add_comm, <- skipn_skipn. apply firstn_skipn.
Qed.

(** No slice is longer than [MAX_CHUNK_SIZE]. *)
Lemma for_loop_bound d rid buf off :
  Forall (fun m => length (payload m) <= MAX_CHUNK_SIZE) (for_loop d rid buf off).
Proof.
  revert off. apply (for_loop_ind buf); intros off H.
  - rewrite for_loop_past_end by exact H. constructor.
  - intros IH. rewrite for_loop_unfold.
    rewrite (proj2 (Nat.ltb_lt _ _) H). destruct d; constructor; [|exact IH].
    rewrite payload_chunk_message.
    pose proof (slice_length buf off (off + MAX_CHUNK_SIZE)). lia.
Qed.

(** Every message of the loop is a chunk message of the session. *)
Lemma for_loop_chunks d rid buf off :
  Forall (fun m => exists b, m = chunk_message rid b) (for_loop d rid buf off).
Proof.
  revert off. apply (for_loop_ind buf); intros off H.
  - rewrite for_loop_past_end by exact H. constructor.
  - intros IH. rewrite for_loop_unfold.
    rewrite (proj2 (Nat.ltb_lt _ _) H). destruct d; constructor; [|exact IH].
    eexists. reflexivity.
Qed.

Lemma ceil_div_small a : a <= MAX_CHUNK_SIZE -> 0 < a -> ceil_div a MAX_CHUNK_SIZE = 1.
Proof.
  intros H1 H2. unfold ceil_div. pose proof MAX_CHUNK_SIZE_pos.
  replace (a + MAX_CHUNK_SIZE - 1) with ((a - 1) + 1 * MAX_CHUNK_SIZE) by lia.
  rewrite Nat.div_add by lia. rewrite Nat.div_small by lia. reflexivity.
Qed.

Lemma ceil_div_zero : ceil_div 0 MAX_CHUNK_SIZE = 0.
Proof.
  unfold ceil_div. pose proof MAX_CHUNK_SIZE_pos.
  apply Nat.div_small. lia.
Qed.

Lemma ceil_div_step a :
  MAX_CHUNK_SIZE < a ->
  ceil_div a MAX_CHUNK_SIZE = S (ceil_div (a - MAX_CHUNK_SIZE) MAX_CHUNK_SIZE).
Proof.
  intros H. unfold ceil_div. pose proof MAX_CHUNK_SIZE_pos.
  replace (a + MAX_CHUNK_SIZE - 1)
    with ((a - MAX_CHUNK_SIZE + MAX_CHUNK_SIZE - 1) + 1 * MAX_CHUNK_SIZE) by lia.
  rewrite Nat.div_add by lia. lia.
Qed.

(** The loop runs ceil(remaining / MAX_CHUNK_SIZE) times. *)
Lemma for_loop_count rid buf off :
  length (for_loop false rid buf off)
  = ceil_div (length buf - off) MAX_CHUNK_SIZE.
Proof.
  revert off. apply (for_loop_ind buf); intros off H.
  - rewrite for_loop_past_end by exact H.
    replace (length buf - off) with 0 by lia. rewrite ceil_div_zero. reflexivity.
  - intros IH. rewrite for_loop_unfold.
    rewrite (proj2 (Nat.ltb_lt _ _) H). cbn [length]. rewrite IH.
    destruct (le_lt_dec (length buf - off) MAX_CHUNK_SIZE) as [Hs|Hl].
    + rewrite (ceil_div_small _ Hs) by lia.
      replace (length buf - (off + MAX_CHUNK_SIZE)) with 0 by lia.
      rewrite ceil_div_zero. reflexivity.
    + rewrite (ceil_div_step _ Hl). f_equal. f_equal. lia.
Qed.

(** *** One read *)

Lemma relay_value_payload rid value :
  concat (map payload (relay_value false rid value)) = value.
Proof.
  unfold relay_value. rewrite slice_whole.
  destruct (MAX_CHUNK_SIZE <? length value).
  - apply for_loop_payload.
  - cbn [map concat]. rewrite payload_chunk_message. apply app_nil_r.
Qed.

Lemma relay_value_bound d rid value :
  Forall (fun m => length (payload m) <= MAX_CHUNK_SIZE) (relay_value d rid value).
Proof.
  unfold relay_value. rewrite slice_whole.
  destruct (MAX_CHUNK_SIZE <? length value) eqn:E.
  - apply for_loop_bound.
  - apply Nat.ltb_ge in E. constructor; [|constructor].
    rewrite payload_chunk_message. exact E.
Qed.

Lemma relay_value_chunks d rid value :
  Forall (fun m => exists b, m = chunk_message rid b) (relay_value d rid value).
Proof.
  unfold relay_value. rewrite slice_whole.
  destruct (MAX_CHUNK_SIZE <? length value).
  - apply for_loop_chunks.
  - constructor; [|constructor]. eexists. reflexivity.
Qed.

(** One read of [n] bytes is relayed in max(1, ceil(n / MAX_CHUNK_SIZE))
    messages. *)
Lemma relay_value_count rid value :
  length (relay_value false rid value)
  = Nat.max 1 (ceil_div (length value) MAX_CHUNK_SIZE).
Proof.
  unfold relay_value. rewrite slice_whole.
  destruct (MAX_CHUNK_SIZE <? length value) eqn:E.
  - apply Nat.ltb_lt in E. rewrite for_loop_count, Nat.sub_0_r.
    rewrite (ceil_div_step _ E). lia.
  - apply Nat.ltb_ge in E. cbn [length].
    destruct (length value) as [|n] eqn:L.
    + rewrite ceil_div_zero. reflexivity.
    + rewrite ceil_div_small by lia. reflexivity.
Qed.

(** The lengths at the boundaries: a read of exactly [MAX_CHUNK_SIZE]
    bytes goes out in one message, one byte more makes two, and
    10 * MAX_CHUNK_SIZE + 37 bytes make eleven. *)
Lemma relay_value_boundaries rid value :
  (length value = 0 -> length (relay_value false rid value) = 1)
  /\ (length value = MAX_CHUNK_SIZE -> length (relay_value false rid value) = 1)
  /\ (length value = MAX_CHUNK_SIZE + 1 -> length (relay_value false rid value) = 2)
  /\ (length value = 10 * MAX_CHUNK_SIZE + 37 ->
      length (relay_value false rid value) = 11).
Proof.
  rewrite relay_value_count. pose proof MAX_CHUNK_SIZE_pos as P.
  repeat split; intros ->.
  - rewrite ceil_div_zero. reflexivity.
  - rewrite ceil_div_small by lia. reflexivity.
  - rewrite ceil_div_step by lia.
    replace (MAX_CHUNK_SIZE + 1 - MAX_CHUNK_SIZE) with 1 by lia.
    rewrite ceil_div_small by (unfold MAX_CHUNK_SIZE; lia). reflexivity.
  - assert (E : ceil_div (10 * MAX_CHUNK_SIZE + 37) MAX_CHUNK_SIZE = 11).
    { unfold ceil_div. symmetry.
      apply Nat.div_unique with (r := 36); unfold MAX_CHUNK_SIZE in *; lia. }
    rewrite E. reflexivity.
Qed.

End RelayFacts.

(** ** The streaming handler *)

Module HandlerFacts.
Import Background RelayFacts.

#[local] Arguments MAX_CHUNK_SIZE : simpl never.
#[local] Arguments relay_value : simpl never.

Lemma append_posted_nil s : append_posted s [] = s.
Proof. destruct s. unfold append_posted. cbn. rewrite app_nil_r. reflexivity. Qed.

Lemma append_posted_app s l1 l2 :
  append_posted (append_posted s l1) l2 = append_posted s (l1 ++ l2).
Proof. unfold append_posted. cbn. rewrite app_assoc. reflexivity. Qed.

Lemma postMessage_open s m :
  port_open s = true -> postMessage s m = (append_posted s [m], false).
Proof. destruct s; cbn; intros ->; reflexivity. Qed.

Lemma postMessage_closed s m :
  port_open s = false -> postMessage s m = (append_refused s [m], true).
Proof. destruct s; cbn; intros ->; reflexivity. Qed.

Lemma post_all_open ms : forall s,
  port_open s = true -> post_all s ms = (append_posted s ms, false).
Proof.
  induction ms as [|m ms IH]; intros s H.
  - cbn. rewrite append_posted_nil. reflexivity.
  - cbn [post_all]. rewrite (postMessage_open _ _ H).
    rewrite IH by exact H. rewrite append_posted_app. reflexivity.
Qed.

Lemma post_all_closed s m ms :
  port_open s = false -> post_all s (m :: ms) = (append_refused s [m], true).
Proof. intros H. cbn [post_all]. rewrite (postMessage_closed _ _ H). reflexivity. Qed.

(** With the flag set the loop posts nothing; only a read that fits in
    one message is still handed to the port. *)
Lemma relay_value_disconnected rid value :
  relay_value true rid value
  = if MAX_CHUNK_SIZE <? length value then [] else [chunk_message rid value].
Proof.
  unfold relay_value. rewrite slice_whole.
  destruct (MAX_CHUNK_SIZE <? length value); [apply for_loop_disconnected | reflexivity].
Qed.

Lemma started_invariant url : invariant (started url).
Proof. constructor; cbn; auto; discriminate. Qed.

Ltac crush_state :=
  unfold step, after_fetch, while_loop, after_loop, throw, catch_block,
    finally_block, call_fetch, call_read, postMessage, on_disconnect,
    disconnectHandler, append_posted, append_refused, finished in *;
  cbn in *;
  repeat match goal with
  | |- context [if ?b then _ else _] => destruct b eqn:?; cbn in *
  | |- context [match ?x with _ => _ end] => destruct x eqn:?; cbn in *
  end.

Ltac finish_invariant :=
  repeat match goal with
  | H : ?x = ?x -> _ |- _ => specialize (H eq_refl)
  end;
  constructor; unfold finished; cbn in *; subst; cbn in *;
  try congruence; try lia; auto.

(** What relaying one read does to the state, by the state of the port. *)
Lemma relay_posts rid s v :
  invariant s -> finished s = false ->
  exists s' threw,
    post_all s (relay_value (disconnected s) rid v) = (s', threw)
    /\ ((port_open s = true /\ threw = false
         /\ s' = append_posted s (relay_value false rid v))
        \/ (port_open s = false /\ threw = false /\ s' = s)
        \/ (port_open s = false /\ threw = true
            /\ s' = append_refused s [chunk_message rid v])).
Proof.
  intros I F. pose proof (inv_flag _ I F) as D.
  destruct (port_open s) eqn:P; cbn in D; rewrite D.
  - rewrite post_all_open by exact P. eauto 10.
  - rewrite relay_value_disconnected. destruct (MAX_CHUNK_SIZE <? length v).
    + cbn. eauto 10.
    + rewrite post_all_closed by exact P. eauto 10.
Qed.

Lemma step_invariant url rid s e : invariant s -> invariant (step url rid s e).
Proof.
  intros I.
  destruct e as [|response|rdone value|msg].
  - destruct I as [I1 I2 I3 I4 I5 I6].
    destruct s as [[| |ct|] d a l p f r po re]; crush_state; finish_invariant.
  - destruct I as [I1 I2 I3 I4 I5 I6].
    destruct s as [[| |ct|] d a l p f r po re]; crush_state; finish_invariant.
  - destruct rdone; [|destruct value as [v|]].
    + destruct I as [I1 I2 I3 I4 I5 I6].
      destruct s as [[| |ct|] d a l p f r po re]; crush_state; finish_invariant.
    + destruct (finished s) eqn:F.
      * unfold step. unfold finished in F. destruct (at_ s); try discriminate. exact I.
      * destruct (relay_posts rid s v I F) as (s' & threw & E & C).
        unfold step. destruct (at_ s) eqn:A; try exact I. rewrite E.
        destruct I as [I1 I2 I3 I4 I5 I6].
        destruct C as [(P & -> & ->) | [(P & -> & ->) | (P & -> & ->)]];
          destruct s as [pc d a l p f r po re]; cbn in A, P; subst;
          crush_state; finish_invariant.
    + destruct I as [I1 I2 I3 I4 I5 I6].
      destruct s as [[| |ct|] d a l p f r po re]; crush_state; finish_invariant.
  - destruct I as [I1 I2 I3 I4 I5 I6].
    destruct s as [[| |ct|] d a l p f r po re]; crush_state; finish_invariant.
Qed.

Lemma run_app url rid s es1 es2 :
  run url rid s (es1 ++ es2) = run url rid (run url rid s es1) es2.
Proof. unfold run. apply fold_left_app. Qed.

Lemma run_invariant url rid es : forall s,
  invariant s -> invariant (run url rid s es).
Proof.
  induction es as [|e es IH]; intros s I; [exact I|].
  apply IH, step_invariant, I.
Qed.

(** *** After the port is disconnected *)

(** Once the port is closed nothing is posted and nothing is read. *)
Lemma step_closed url rid s e :
  invariant s -> port_open s = false ->
  port_open (step url rid s e) = false
  /\ posted (step url rid s e) = posted s
  /\ reads (step url rid s e) = reads s.
Proof.
  intros I C.
  destruct e as [|response|rdone value|msg].
  - destruct I as [I1 I2 I3 I4 I5 I6].
    destruct s as [[| |ct|] d a l p f r po re]; crush_state; subst; cbn in *; auto.
  - destruct I as [I1 I2 I3 I4 I5 I6].
    destruct s as [[| |ct|] d a l p f r po re]; crush_state; subst; cbn in *;
      repeat match goal with H : ?x = ?x -> _ |- _ => specialize (H eq_refl) end;
      try discriminate; auto.
  - destruct rdone; [|destruct value as [v|]].
    + destruct I as [I1 I2 I3 I4 I5 I6].
      destruct s as [[| |ct|] d a l p f r po re]; crush_state; subst; cbn in *;
      repeat match goal with H : ?x = ?x -> _ |- _ => specialize (H eq_refl) end;
      try discriminate; auto.
    + destruct (finished s) eqn:F.
      * unfold step. unfold finished in F. destruct (at_ s); try discriminate. auto.
      * destruct (relay_posts rid s v I F) as (s' & threw & E & K).
        unfold step. destruct (at_ s) eqn:A; auto. rewrite E.
        destruct I as [I1 I2 I3 I4 I5 I6].
        destruct K as [(P & -> & ->) | [(P & -> & ->) | (P & -> & ->)]];
          try congruence;
          destruct s as [pc d a l p f r po re]; cbn in A, P, C; subst;
          crush_state; subst; cbn in *;
          repeat match goal with H : ?x = ?x -> _ |- _ => specialize (H eq_refl) end;
          try discriminate; auto.
    + destruct I as [I1 I2 I3 I4 I5 I6].
      destruct s as [[| |ct|] d a l p f r po re]; crush_state; subst; cbn in *;
      repeat match goal with H : ?x = ?x -> _ |- _ => specialize (H eq_refl) end;
      try discriminate; auto.
  - destruct I as [I1 I2 I3 I4 I5 I6].
    destruct s as [[| |ct|] d a l p f r po re]; crush_state; subst; cbn in *;
      repeat match goal with H : ?x = ?x -> _ |- _ => specialize (H eq_refl) end;
      try discriminate; auto.
Qed.

Lemma run_closed url rid es : forall s,
  invariant s -> port_open s = false ->
  port_open (run url rid s es) = false
  /\ posted (run url rid s es) = posted s
  /\ reads (run url rid s es) = reads s.
Proof.
  induction es as [|e es IH]; intros s I C; [auto|].
  destruct (step_closed url rid s e I C) as (C' & P' & R').
  destruct (IH _ (step_invariant url rid s e I) C') as (C'' & P'' & R'').
  cbn [run fold_left] in *. unfold run in *. repeat split; congruence.
Qed.

(** The flag, once set, stays set. *)
Lemma step_disconnected url rid s e :
  disconnected s = true -> disconnected (step url rid s e) = true.
Proof.
  intros D.
  destruct e as [|response|rdone value|msg]; unfold step.
  - destruct s as [[| |ct|] d a l p f r po re]; crush_state; subst; auto; try congruence.
  - destruct s as [[| |ct|] d a l p f r po re]; crush_state; subst; auto; try congruence.
  - destruct (at_ s); auto. destruct rdone.
    + destruct s as [pc d a l p f r po re]; crush_state; subst; auto; try congruence.
    + destruct value as [v|].
      * rewrite D, relay_value_disconnected.
        destruct (MAX_CHUNK_SIZE <? length v); [cbn [post_all]|];
          [|destruct (port_open s) eqn:P;
            [rewrite post_all_open by exact P | rewrite post_all_closed by exact P]];
          destruct s as [pc d a l p f r po re]; crush_state; subst; auto; try congruence.
      * destruct s as [pc d a l p f r po re]; crush_state; subst; auto; try congruence.
  - destruct s as [[| |ct|] d a l p f r po re]; crush_state; subst; auto; try congruence.
Qed.

Lemma run_disconnected url rid es : forall s,
  disconnected s = true -> disconnected (run url rid s es) = true.
Proof.
  induction es as [|e es IH]; intros s D; [exact D|].
  apply IH, step_disconnected, D.
Qed.

(** A finished handler posts nothing and refuses nothing more. *)
Lemma step_finished url rid s e :
  finished s = true ->
  finished (step url rid s e) = true /\ refused (step url rid s e) = refused s.
Proof.
  intros F. destruct s as [[| |ct|] d a l p f r po re]; try discriminate.
  destruct e; crush_state; auto.
Qed.

Lemma run_finished url rid es : forall s,
  finished s = true ->
  finished (run url rid s es) = true /\ refused (run url rid s es) = refused s.
Proof.
  induction es as [|e es IH]; intros s F; [auto|].
  destruct (step_finished url rid s e F) as (F' & R').
  destruct (IH _ F') as (F'' & R''). unfold run in *. cbn. split; congruence.
Qed.

(** The state right after the port is disconnected under a handler that is
    still running. *)
Lemma disconnect_running url rid s :
  invariant s -> finished s = false ->
  let s1 := step url rid s PortDisconnect in
  port_open s1 = false /\ disconnected s1 = true /\ posted s1 = posted s
  /\ reads s1 = reads s /\ at_ s1 = at_ s /\ refused s1 = [].
Proof.
  intros I F s1.
  assert (L : listening s = true) by (rewrite (inv_listening _ I), F; reflexivity).
  pose proof (inv_refused _ I F) as R.
  unfold s1, step, on_disconnect. rewrite L. cbn. auto 10.
Qed.

(** A rejection that follows the disconnection ends the handler without a
    call of [postMessage]. *)
Lemma rejected_after_disconnect url rid s msg :
  disconnected s = true -> finished s = false ->
  step url rid s (Rejected msg) = finally_block s.
Proof.
  intros D F. unfold step, finished in *.
  destruct (at_ s); try discriminate; unfold throw, catch_block; rewrite D; reflexivity.
Qed.

(** *** The requests the handler makes *)

(** Posting touches nothing but the two lists of messages. *)
Lemma post_all_frame ms : forall s,
  exists l1 l2 t, post_all s ms = (append_refused (append_posted s l1) l2, t).
Proof.
  induction ms as [|m ms IH]; intros s.
  - exists [], [], false. destruct s. unfold append_refused, append_posted. cbn.
    rewrite !app_nil_r. reflexivity.
  - cbn [post_all]. destruct (port_open s) eqn:P.
    + rewrite (postMessage_open _ _ P).
      destruct (IH (append_posted s [m])) as (l1 & l2 & t & E). rewrite E.
      exists (m :: l1), l2, t. unfold append_refused, append_posted. cbn.
      rewrite <- app_assoc. reflexivity.
    + rewrite (postMessage_closed _ _ P).
      exists [], [m], true. unfold append_refused, append_posted. cbn.
      rewrite app_nil_r. reflexivity.
Qed.

Lemma step_fetches_unchanged url rid s e :
  at_ s <> AwaitFetch1 ->
  fetches (step url rid s e) = fetches s /\ at_ (step url rid s e) <> AwaitFetch1.
Proof.
  intros A. destruct e as [|response|rdone value|msg]; unfold step.
  - destruct s as [[| |ct|] d a l p f r po re]; crush_state; subst; auto; try congruence;
      split; congruence.
  - destruct s as [[| |ct|] d a l p f r po re]; crush_state; subst; auto; try congruence;
      split; congruence.
  - destruct (at_ s) eqn:As; try (split; [reflexivity | congruence]).
    destruct rdone; [|destruct value as [v|]].
    + destruct s as [pc d a l p f r po re]; crush_state; subst; auto; split; congruence.
    + destruct (post_all_frame (relay_value (disconnected s) rid v) s) as (l1 & l2 & t & E).
      rewrite E.
      destruct s as [pc d a l p f r po re]; crush_state; subst; auto; split; congruence.
    + destruct s as [pc d a l p f r po re]; crush_state; subst; auto; split; congruence.
  - destruct s as [[| |ct|] d a l p f r po re]; crush_state; subst; auto; try congruence;
      split; congruence.
Qed.

Lemma run_fetches_unchanged url rid es : forall s,
  at_ s <> AwaitFetch1 -> fetches (run url rid s es) = fetches s.
Proof.
  induction es as [|e es IH]; intros s A; [reflexivity|].
  destruct (step_fetches_unchanged url rid s e A) as (F & A').
  cbn. fold (run url rid (step url rid s e) es). rewrite IH by exact A'. exact F.
Qed.

(** While the first fetch is pending only the port can change. *)
Lemma step_first_fetch url rid s e :
  at_ s = AwaitFetch1 -> fetches s = [(url, init_with_credentials)] ->
  (fetches (step url rid s e) = [(url, init_with_credentials)]
   \/ fetches (step url rid s e)
      = [(url, init_with_credentials); (url, init_without_credentials)])
  /\ (at_ (step url rid s e) = AwaitFetch1 ->
      fetches (step url rid s e) = [(url, init_with_credentials)]).
Proof.
  intros A F.
  destruct s as [pc d a l p f r po re]; cbn in A, F; subst.
  destruct e; crush_state; subst; auto; split; auto; congruence.
Qed.

Lemma run_fetches url rid es : forall s,
  at_ s = AwaitFetch1 -> fetches s = [(url, init_with_credentials)] ->
  fetches (run url rid s es) = [(url, init_with_credentials)]
  \/ fetches (run url rid s es)
     = [(url, init_with_credentials); (url, init_without_credentials)].
Proof.
  induction es as [|e es IH]; intros s A F; [left; exact F|].
  cbn. fold (run url rid (step url rid s e) es).
  destruct (step_first_fetch url rid s e A F) as (H1 & H2).
  destruct (at_ (step url rid s e)) eqn:A'.
  - apply IH; auto.
  - rewrite run_fetches_unchanged by congruence. exact H1.
  - rewrite run_fetches_unchanged by congruence. exact H1.
  - rewrite run_fetches_unchanged by congruence. exact H1.
Qed.

(** C5.  When the requester disconnects the port under a handler that is
    still running (for instance after the first chunk), nothing more
    reaches the requester: no chunk, no complete and no error message is
    posted after the ones already sent, and no further read of the body is
    started.  The abort controller of the request has been aborted, and
    every request the handler has made, of which there is at least one,
    was made with the signal of that controller, so that the abort
    reaches the request in flight.  At most one call of [postMessage] is
    still made, for a chunk, on the dead port, which refuses it; when the
    pending fetch or read rejects, as it does for an aborted request,
    there is no such call at all and the handler ends. *)
Theorem disconnect_stops_production url rid pre post :
  let s := run url rid (started url) pre in
  let s' := run url rid (started url) (pre ++ PortDisconnect :: post) in
  at_ s <> Finished ->
  posted s' = posted s
  /\ reads s' = reads s
  /\ aborted s' = true
  /\ fetches s' <> []
  /\ Forall (fun request => signal (snd request) = true) (fetches s')
  /\ length (refused s') <= 1
  /\ Forall (fun m => is_chunk m = true) (refused s')
  /\ (forall msg rest, post = Rejected msg :: rest ->
        refused s' = [] /\ at_ s' = Finished).
Proof.
  intros s s' A.
  assert (I : invariant s) by apply run_invariant, started_invariant.
  assert (F : finished s = false)
    by (unfold finished; destruct (at_ s); congruence).
  destruct (disconnect_running url rid s I F) as (C1 & D1 & P1 & R1 & A1 & Re1).
  remember (step url rid s PortDisconnect) as s1 eqn:Hs1.
  assert (E : s' = run url rid s1 post).
  { unfold s'. rewrite run_app, Hs1. reflexivity. }
  assert (I1 : invariant s1) by (rewrite Hs1; apply step_invariant, I).
  destruct (run_closed url rid post s1 I1 C1) as (_ & P2 & R2).
  assert (I' : invariant s') by (rewrite E; apply run_invariant, I1).
  repeat split.
  - congruence.
  - congruence.
  - rewrite (inv_aborted _ I'), E. apply run_disconnected, D1.
  - destruct (run_fetches url rid (pre ++ PortDisconnect :: post) (started url)
                eq_refl eq_refl) as [H|H]; fold s' in H; rewrite H; discriminate.
  - destruct (run_fetches url rid (pre ++ PortDisconnect :: post) (started url)
                eq_refl eq_refl) as [H|H]; fold s' in H; rewrite H;
      repeat constructor.
  - apply (inv_refused_length _ I').
  - apply (inv_refused_chunks _ I').
  - rewrite E. subst post. change (run url rid s1 (Rejected msg :: rest))
      with (run url rid (step url rid s1 (Rejected msg)) rest).
    rewrite rejected_after_disconnect
      by (try exact D1; unfold finished in *; rewrite A1; exact F).
    destruct (run_finished url rid rest (finally_block s1) eq_refl) as (_ & Rf).
    rewrite Rf. exact Re1.
  - rewrite E. subst post. change (run url rid s1 (Rejected msg :: rest))
      with (run url rid (step url rid s1 (Rejected msg)) rest).
    rewrite rejected_after_disconnect
      by (try exact D1; unfold finished in *; rewrite A1; exact F).
    destruct (run_finished url rid rest (finally_block s1) eq_refl) as (Ff & _).
    unfold finished in Ff.
    destruct (at_ (run url rid (finally_block s1) rest)); congruence.
Qed.

(** The port is disconnected after the first chunk of a download. *)
Lemma disconnect_stops_production_witness :
  let pre := [FetchFulfilled ok_response; ReadFulfilled false (Some [x01])] in
  let post := [ReadFulfilled false (Some [x02]); ReadFulfilled true None] in
  at_ (run "u" "r" (started "u") pre) <> Finished
  /\ posted (run "u" "r" (started "u") (pre ++ PortDisconnect :: post))
     = posted (run "u" "r" (started "u") pre).
Proof.
  intros pre post.
  assert (H : at_ (run "u" "r" (started "u") pre) <> Finished)
    by (vm_compute; discriminate).
  split; [exact H|].
  exact (proj1 (disconnect_stops_production "u" "r" pre post H)).
Defined.



(** *** A property of every message the handler posts *)

Section Posted.

Variable P : message -> Prop.
Variable url rid : string.
Hypothesis P_error : forall e, P (error_message rid e).
Hypothesis P_complete : forall ct, P (complete_message rid ct).
Hypothesis P_relay : forall d v, Forall P (relay_value d rid v).

Lemma postMessage_all_posted s m :
  all_posted P s -> P m -> all_posted P (fst (postMessage s m)).
Proof.
  intros [H1 H2] Hm. unfold postMessage, all_posted.
  destruct (port_open s); cbn; split; auto; apply Forall_app; auto.
Qed.

Lemma post_all_all_posted ms : forall s,
  all_posted P s -> Forall P ms -> all_posted P (fst (post_all s ms)).
Proof.
  induction ms as [|m ms IH]; intros s Hs Hms; [exact Hs|].
  inversion Hms; subst. cbn [post_all].
  pose proof (postMessage_all_posted s m Hs H1) as Hp.
  destruct (postMessage s m) as [s' threw]. cbn in Hp.
  destruct threw; [exact Hp | apply IH; assumption].
Qed.

Lemma throw_all_posted s msg : all_posted P s -> all_posted P (throw rid s msg).
Proof.
  intros H. unfold throw, catch_block.
  destruct (disconnected s).
  - exact H.
  - pose proof (postMessage_all_posted s _ H (P_error (if String.eqb msg "" then "Download failed"%string else msg))) as Hp.
    destruct (postMessage s _) as [s' t]. exact Hp.
Qed.

Lemma after_loop_all_posted s ct : all_posted P s -> all_posted P (after_loop rid s ct).
Proof.
  intros H. unfold after_loop. destruct (disconnected s); [exact H|].
  pose proof (postMessage_all_posted s _ H (P_complete ct)) as Hp.
  destruct (postMessage s _) as [s' t]. cbn in Hp.
  destruct t; [apply throw_all_posted|]; exact Hp.
Qed.

Lemma while_loop_all_posted s ct : all_posted P s -> all_posted P (while_loop rid s ct).
Proof.
  intros H. unfold while_loop. destruct (disconnected s); [apply after_loop_all_posted|]; exact H.
Qed.

Lemma step_all_posted s e : all_posted P s -> all_posted P (step url rid s e).
Proof.
  intros H. destruct e as [|response|rdone value|msg]; unfold step.
  - unfold on_disconnect. destruct (listening s); exact H.
  - unfold after_fetch.
    destruct (at_ s); try exact H;
      repeat match goal with
      | |- context [if ?b then _ else _] => destruct b
      end;
      try apply throw_all_posted; try apply while_loop_all_posted; exact H.
  - destruct (at_ s); try exact H.
    destruct rdone; [apply after_loop_all_posted, H|].
    destruct value as [v|]; [|apply while_loop_all_posted, H].
    pose proof (post_all_all_posted _ s H (P_relay (disconnected s) v)) as Hp.
    destruct (post_all s _) as [s' t]. cbn in Hp.
    destruct t; [apply throw_all_posted | apply while_loop_all_posted]; exact Hp.
  - destruct (at_ s); try exact H; apply throw_all_posted, H.
Qed.

Lemma run_all_posted es : forall s, all_posted P s -> all_posted P (run url rid s es).
Proof.
  induction es as [|e es IH]; intros s H; [exact H|].
  apply IH, step_all_posted, H.
Qed.

End Posted.

(** *** A download that runs to its end *)

Lemma relayed_cons rid v values :
  relayed rid (v :: values)
  = match v with Some b => relay_value false rid b | None => [] end
    ++ relayed rid values.
Proof. reflexivity. Qed.

(** The reads of an open session: every value is relayed and the next
    read is started. *)
Lemma run_reads url rid ct values : forall s,
  at_ s = AwaitRead ct -> disconnected s = false -> port_open s = true ->
  run url rid s (map (ReadFulfilled false) values)
  = {| at_ := AwaitRead ct; disconnected := false; aborted := aborted s;
       listening := listening s; port_open := true;
       fetches := fetches s; reads := length values + reads s;
       posted := posted s ++ relayed rid values; refused := refused s |}.
Proof.
  induction values as [|v values IH]; intros s A D P.
  - destruct s; cbn in *; subst. rewrite app_nil_r. reflexivity.
  - cbn [map]. change (run url rid s (ReadFulfilled false v :: map (ReadFulfilled false) values))
      with (run url rid (step url rid s (ReadFulfilled false v)) (map (ReadFulfilled false) values)).
    assert (S : step url rid s (ReadFulfilled false v)
                = call_read (append_posted s (match v with
                                              | Some b => relay_value false rid b
                                              | None => []
                                              end)) ct).
    { unfold step. rewrite A. destruct v as [b|].
      - rewrite D, post_all_open by exact P. unfold while_loop. cbn. rewrite D. reflexivity.
      - unfold while_loop. rewrite D, append_posted_nil. reflexivity. }
    rewrite S, IH by (cbn; auto).
    rewrite relayed_cons. cbn. rewrite <- app_assoc, Nat.add_succ_r. reflexivity.
Qed.

(** The whole of an uninterrupted download. *)
Lemma run_download url rid response values :
  ok response = true -> has_body response = true ->
  run url rid (started url) (download_events response values)
  = {| at_ := Finished; disconnected := false; aborted := false;
       listening := false; port_open := true;
       fetches := [(url, init_with_credentials)];
       reads := S (length values);
       posted := relayed rid values
                 ++ [complete_message rid (response_contentType response)];
       refused := [] |}.
Proof.
  intros OK HB. unfold download_events.
  change (run url rid (started url) (FetchFulfilled response :: ?es))
    with (run url rid (step url rid (started url) (FetchFulfilled response)) es).
  assert (S : step url rid (started url) (FetchFulfilled response)
              = call_read (started url) (response_contentType response)).
  { unfold step, retry_condition, after_fetch. cbn [at_ started].
    rewrite OK, HB. reflexivity. }
  rewrite S, run_app, (run_reads url rid (response_contentType response)) by reflexivity.
  cbn. rewrite Nat.add_1_r. reflexivity.
Qed.

(** The same download after a retry: the second fetch is the only
    difference. *)
Lemma run_download_retried url rid r1 response values :
  retry_condition r1 = true ->
  ok response = true -> has_body response = true ->
  run url rid (started url) (FetchFulfilled r1 :: download_events response values)
  = {| at_ := Finished; disconnected := false; aborted := false;
       listening := false; port_open := true;
       fetches := [(url, init_with_credentials); (url, init_without_credentials)];
       reads := S (length values);
       posted := relayed rid values
                 ++ [complete_message rid (response_contentType response)];
       refused := [] |}.
Proof.
  intros RC OK HB. unfold download_events.
  change (run url rid (started url) (FetchFulfilled r1 :: FetchFulfilled response :: ?es))
    with (run url rid
            (step url rid (step url rid (started url) (FetchFulfilled r1))
                  (FetchFulfilled response)) es).
  assert (S : step url rid (step url rid (started url) (FetchFulfilled r1))
                   (FetchFulfilled response)
              = call_read (call_fetch (started url) url init_without_credentials
                                      AwaitFetch2)
                          (response_contentType response)).
  { unfold step at 2. cbn [at_ started]. rewrite RC.
    unfold step, call_fetch, after_fetch. cbn [at_]. rewrite OK, HB. reflexivity. }
  rewrite S, run_app, (run_reads url rid (response_contentType response)) by reflexivity.
  cbn. rewrite Nat.add_1_r. reflexivity.
Qed.

Lemma relayed_chunks rid values :
  Forall (fun m => exists b, m = chunk_message rid b) (relayed rid values).
Proof.
  induction values as [|[b|] values IH]; [constructor| |exact IH].
  rewrite relayed_cons. apply Forall_app. split; [apply relay_value_chunks | exact IH].
Qed.

Lemma relayed_payload rid values :
  concat (map payload (relayed rid values)) = body_of values.
Proof.
  unfold body_of.
  induction values as [|[b|] values IH]; [reflexivity| |exact IH].
  rewrite relayed_cons, map_app, concat_app, relay_value_payload, IH. reflexivity.
Qed.

Lemma relayed_count rid values :
  length (relayed rid values)
  = list_sum (map (fun v => match v with
                            | Some b => Nat.max 1 (ceil_div (length b) MAX_CHUNK_SIZE)
                            | None => 0
                            end) values).
Proof.
  induction values as [|[b|] values IH]; [reflexivity| |exact IH].
  rewrite relayed_cons, length_app, relay_value_count, IH. reflexivity.
Qed.

Lemma chunk_messages_chunks rid ms :
  Forall (fun m => exists b, m = chunk_message rid b) ms -> chunk_messages ms = ms.
Proof.
  induction 1 as [|m ms [b ->] _ IH]; [reflexivity|].
  unfold chunk_messages in *. cbn. rewrite IH. reflexivity.
Qed.

Lemma chunk_messages_download url rid response values :
  ok response = true -> has_body response = true ->
  chunk_messages (posted (run url rid (started url) (download_events response values)))
  = relayed rid values.
Proof.
  intros OK HB. rewrite run_download by assumption. cbn [posted].
  unfold chunk_messages. rewrite filter_app. cbn.
  rewrite app_nil_r. apply chunk_messages_chunks with (rid := rid), relayed_chunks.
Qed.

Lemma ceil_div_le a : a <= ceil_div a MAX_CHUNK_SIZE * MAX_CHUNK_SIZE.
Proof.
  unfold ceil_div. pose proof MAX_CHUNK_SIZE_pos.
  pose proof (Nat.div_mod_eq (a + MAX_CHUNK_SIZE - 1) MAX_CHUNK_SIZE).
  pose proof (Nat.mod_upper_bound (a + MAX_CHUNK_SIZE - 1) MAX_CHUNK_SIZE).
  nia.
Qed.

Lemma ceil_div_least a q : a <= q * MAX_CHUNK_SIZE -> ceil_div a MAX_CHUNK_SIZE <= q.
Proof.
  intros H. unfold ceil_div. pose proof MAX_CHUNK_SIZE_pos.
  apply Nat.lt_succ_r. apply Nat.Div0.div_lt_upper_bound. nia.
Qed.

Lemma ceil_div_add a b :
  ceil_div (a + b) MAX_CHUNK_SIZE
  <= ceil_div a MAX_CHUNK_SIZE + ceil_div b MAX_CHUNK_SIZE.
Proof.
  apply ceil_div_least. pose proof (ceil_div_le a). pose proof (ceil_div_le b). nia.
Qed.

Lemma list_sum_cons a l : list_sum (a :: l) = a + list_sum l.
Proof. reflexivity. Qed.

Lemma relayed_at_least rid values :
  ceil_div (length (body_of values)) MAX_CHUNK_SIZE <= length (relayed rid values).
Proof.
  rewrite relayed_count. unfold body_of.
  induction values as [|[b|] values IH].
  - cbn [map concat length list_sum fold_right]. rewrite ceil_div_zero. lia.
  - cbn [map concat]. rewrite list_sum_cons, length_app.
    pose proof (ceil_div_add (length b)
                  (length (concat (map (fun v => match v with
                                                 | Some b => b
                                                 | None => []
                                                 end) values)))).
    lia.
  - cbn [map concat app]. rewrite list_sum_cons. lia.
Qed.

Lemma ceil_div_500KiB : ceil_div (500 * 1024) MAX_CHUNK_SIZE = 8.
Proof.
  unfold ceil_div, MAX_CHUNK_SIZE. symmetry.
  apply Nat.div_unique with (r := 51 * 1024 + 1023); lia.
Qed.

(** C3, as the code has it.  In a download that runs to its end, every
    read that carries a value is relayed in max(1, ceil(n / MAX_CHUNK_SIZE))
    chunk messages, n being the number of bytes of the read.  The total
    is therefore at least ceil(L / MAX_CHUNK_SIZE) for a body of L bytes,
    and it is exactly that when the body arrives in a single read that is
    not empty; 500 KiB in one read make 8 messages. *)
Theorem chunk_message_count url rid response values :
  ok response = true -> has_body response = true ->
  let ms := chunk_messages
              (posted (run url rid (started url) (download_events response values))) in
  length ms
  = list_sum (map (fun v => match v with
                            | Some b => Nat.max 1 (ceil_div (length b) MAX_CHUNK_SIZE)
                            | None => 0
                            end) values)
  /\ ceil_div (length (body_of values)) MAX_CHUNK_SIZE <= length ms
  /\ (forall b, values = [Some b] -> b <> [] ->
        length ms = ceil_div (length (body_of values)) MAX_CHUNK_SIZE)
  /\ (forall b, values = [Some b] -> length b = 500 * 1024 -> length ms = 8).
Proof.
  intros OK HB ms. unfold ms. rewrite chunk_messages_download by assumption.
  split; [apply relayed_count|]. split; [apply relayed_at_least|]. split.
  - intros b -> NE. rewrite relayed_count. unfold body_of. cbn [map concat list_sum fold_right].
    rewrite app_nil_r, Nat.add_0_r.
    destruct b as [|x b]; [congruence|].
    destruct (le_lt_dec (length (x :: b)) MAX_CHUNK_SIZE) as [Hs|Hl].
    + rewrite ceil_div_small by (cbn [length] in *; lia). reflexivity.
    + rewrite (ceil_div_step _ Hl). lia.
  - intros b -> L. rewrite relayed_count. cbn [map list_sum fold_right].
    rewrite L, ceil_div_500KiB. reflexivity.
Qed.

(** Two reads of one byte each. *)
Lemma chunk_message_count_witness :
  let values := [Some [x01]; Some [x02]] in
  ok ok_response = true /\ has_body ok_response = true
  /\ ceil_div (length (body_of values)) MAX_CHUNK_SIZE
     <= length (chunk_messages
                  (posted (run "u" "r" (started "u")
                               (download_events ok_response values)))).
Proof.
  intros values. split; [reflexivity|]. split; [reflexivity|].
  exact (proj1 (proj2 (chunk_message_count "u" "r" ok_response values eq_refl eq_refl))).
Defined.

(** C3 as stated fails: a body of two bytes that arrives in two reads is
    relayed in two chunk messages, and ceil(2 / MAX_CHUNK_SIZE) is 1. *)
Lemma chunk_count_differs :
  let values := [Some [x01]; Some [x02]] in
  length (chunk_messages
            (posted (run "u" "r" (started "u") (download_events ok_response values))))
  <> ceil_div (length (body_of values)) MAX_CHUNK_SIZE.
Proof.
  intros values. rewrite chunk_messages_download by reflexivity.
  rewrite relayed_count. unfold values, body_of. cbn [map concat list_sum fold_right length app].
  rewrite !ceil_div_small by (unfold MAX_CHUNK_SIZE; lia). cbn. discriminate.
Qed.

(** C2.  [MAX_CHUNK_SIZE] is 65536, and whatever happens during a session
    no message the handler posts carries more than [MAX_CHUNK_SIZE] bytes;
    the messages of one read carry exactly its bytes, in order, each
    within the bound. *)
Theorem chunk_size_bounded url rid es :
  N.of_nat MAX_CHUNK_SIZE = 65536%N
  /\ Forall (fun m => length (payload m) <= MAX_CHUNK_SIZE)
            (posted (run url rid (started url) es))
  /\ (forall value,
        concat (map payload (relay_value false rid value)) = value
        /\ Forall (fun m => length (payload m) <= MAX_CHUNK_SIZE)
                  (relay_value false rid value)).
Proof.
  split; [reflexivity|]. split.
  - apply (run_all_posted (fun m => length (payload m) <= MAX_CHUNK_SIZE) url rid).
    + intros e. cbn. lia.
    + intros ct. cbn. lia.
    + intros d v. apply relay_value_bound.
    + split; constructor.
  - intros value. split; [apply relay_value_payload | apply relay_value_bound].
Qed.

End HandlerFacts.

Module SessionFacts.
Import Extractor.

(** ** The client of the streaming port *)

(** *** Building the combined array *)

Lemma set_bytes_at (written rest source : bytes) :
  length source <= length rest ->
  set_bytes (written ++ rest) source (length written)
  = Some ((written ++ source) ++ skipn (length source) rest).
Proof.
  intros H. unfold set_bytes. rewrite length_app.
  rewrite (proj2 (Nat.leb_le _ _)) by lia.
  rewrite firstn_app, firstn_all, Nat.sub_diag, firstn_O, app_nil_r.
  rewrite skipn_app, skipn_all2 by lia.
  replace (length written + length source - length written) with (length source) by lia.
  rewrite <- app_assoc. reflexivity.
Qed.

Lemma set_all_at chunks : forall (written rest : bytes),
  length (concat chunks) <= length rest ->
  set_all (written ++ rest) (length written) chunks
  = Some (written ++ concat chunks ++ skipn (length (concat chunks)) rest).
Proof.
  induction chunks as [|c chunks IH]; intros written rest H.
  - reflexivity.
  - cbn [concat] in *. rewrite length_app in H.
    cbn [set_all]. rewrite set_bytes_at by lia.
    replace (length written + length c) with (length (written ++ c))
      by apply length_app.
    rewrite IH by (rewrite length_skipn; lia).
    rewrite skipn_skipn, length_app, <- !app_assoc.
    replace (length (concat chunks) + length c)
      with (length c + length (concat chunks)) by lia.
    reflexivity.
Qed.

(** Writing the chunks one after the other into a fresh array of their
    total length gives their concatenation. *)
Lemma set_all_concat chunks :
  set_all (new_Uint8Array (length (concat chunks))) 0 chunks = Some (concat chunks).
Proof.
  pose proof (set_all_at chunks [] (new_Uint8Array (length (concat chunks)))) as H.
  cbn [app length] in H. rewrite H.
  - rewrite skipn_all2, app_nil_r; [reflexivity|].
    unfold new_Uint8Array. rewrite repeat_length. lia.
  - unfold new_Uint8Array. rewrite repeat_length. lia.
Qed.

(** *** What holds of every state of a session *)

Lemma opened_consistent : consistent opened.
Proof. constructor; reflexivity. Qed.

Lemma finalize_consistent s result :
  totalLength s = length (concat (chunks s)) ->
  length (resolved s) = (if settled s then 1 else 0) ->
  disconnects s = (if settled s then 1 else 0) ->
  consistent (finalize s result).
Proof.
  intros T R D. unfold finalize. destruct (settled s) eqn:S.
  - constructor; rewrite ?S; auto; discriminate.
  - constructor; cbn; auto; try discriminate.
    rewrite length_app, R. reflexivity.
Qed.

Lemma onMessage_consistent rid fn s m :
  consistent s -> consistent (onMessage rid fn s m).
Proof.
  intros [T A R D]. unfold onMessage.
  destruct (negb (Msg.requestId m =? rid)%string); [constructor; assumption|].
  destruct (if (type_ m =? "chunk")%string then chunk m else None) as [view|].
  - destruct (length view =? 0); [constructor; assumption|].
    constructor; cbn; auto.
    rewrite concat_app, length_app, T. cbn. rewrite app_nil_r. reflexivity.
  - destruct (type_ m =? "complete")%string.
    + cbn [totalLength set_contentType clearTimeout chunks contentType].
      destruct (totalLength s =? 0) eqn:Z.
      * apply finalize_consistent; cbn; assumption.
      * rewrite T, set_all_concat. apply finalize_consistent; cbn; assumption.
    + destruct (type_ m =? "error")%string.
      * apply finalize_consistent; cbn; assumption.
      * constructor; assumption.
Qed.

Lemma handle_consistent rid fn s e :
  consistent s -> consistent (handle rid fn s e).
Proof.
  intros C. destruct e as [m| |]; cbn [handle].
  - apply onMessage_consistent, C.
  - destruct C as [T A R D]. unfold onDisconnect.
    apply finalize_consistent; cbn; assumption.
  - unfold onTimeout. destruct (timer s); [|exact C].
    destruct C as [T A R D]. apply finalize_consistent; cbn; assumption.
Qed.

Lemma receive_consistent rid fn es : forall s,
  consistent s -> consistent (receive rid fn s es).
Proof.
  induction es as [|e es IH]; intros s C; [exact C|].
  apply IH, handle_consistent, C.
Qed.

Lemma receive_app rid fn s es1 es2 :
  receive rid fn s (es1 ++ es2) = receive rid fn (receive rid fn s es1) es2.
Proof. apply fold_left_app. Qed.

(** *** Settling *)

(** Once settled, the outcome is fixed. *)
Lemma handle_settled rid fn s e :
  consistent s -> settled s = true ->
  settled (handle rid fn s e) = true
  /\ resolved (handle rid fn s e) = resolved s
  /\ disconnects (handle rid fn s e) = disconnects s.
Proof.
  intros [T A R D] S. destruct e as [m| |]; cbn [handle].
  - unfold onMessage.
    destruct (negb (Msg.requestId m =? rid)%string); [auto|].
    destruct (if (type_ m =? "chunk")%string then chunk m else None) as [view|].
    + destruct (length view =? 0); cbn; auto.
    + destruct (type_ m =? "complete")%string.
      * cbn [totalLength set_contentType clearTimeout chunks contentType].
        destruct (totalLength s =? 0); [unfold finalize; cbn; rewrite S; cbn; auto|].
        rewrite T, set_all_concat. unfold finalize; cbn; rewrite S; cbn; auto.
      * destruct (type_ m =? "error")%string; [|auto].
        unfold finalize; cbn; rewrite S; cbn; auto.
  - unfold onDisconnect, finalize; cbn; rewrite S; cbn; auto.
  - unfold onTimeout. destruct (timer s); [|auto].
    unfold finalize; cbn; rewrite S; cbn; auto.
Qed.

Lemma receive_settled rid fn es : forall s,
  consistent s -> settled s = true ->
  settled (receive rid fn s es) = true
  /\ resolved (receive rid fn s es) = resolved s
  /\ disconnects (receive rid fn s es) = disconnects s.
Proof.
  induction es as [|e es IH]; intros s C S; [auto|].
  destruct (handle_settled rid fn s e C S) as (S1 & R1 & D1).
  destruct (IH _ (handle_consistent rid fn s e C) S1) as (S2 & R2 & D2).
  cbn. fold (receive rid fn (handle rid fn s e) es). repeat split; congruence.
Qed.

(** A terminal event settles the session. *)
Lemma handle_terminal rid fn s e :
  consistent s -> terminal rid e = true -> settled (handle rid fn s e) = true.
Proof.
  intros [T A R D] E. destruct (settled s) eqn:S.
  { apply handle_settled; [constructor; rewrite ?S; assumption | exact S]. }
  specialize (A eq_refl).
  destruct e as [m| |]; cbn [handle].
  - cbn in E. apply andb_true_iff in E as [E1 E2].
    unfold onMessage. rewrite E1. cbn [negb].
    unfold is_complete, is_error in E2.
    assert (NC : (type_ m =? "chunk")%string = false).
    { destruct (String.eqb_spec (type_ m) "chunk") as [Q|]; [|reflexivity].
      rewrite Q in E2. discriminate. }
    rewrite NC.
    destruct (type_ m =? "complete")%string.
    + cbn [totalLength set_contentType clearTimeout chunks contentType].
      destruct (totalLength s =? 0); [unfold finalize; cbn; rewrite S; reflexivity|].
      rewrite T, set_all_concat. unfold finalize; cbn; rewrite S; reflexivity.
    + cbn in E2. rewrite E2. unfold finalize; cbn; rewrite S; reflexivity.
  - unfold onDisconnect, finalize; cbn; rewrite S; reflexivity.
  - unfold onTimeout. rewrite A. unfold finalize; cbn; rewrite S; reflexivity.
Qed.

Lemma receive_terminal rid fn es : forall s,
  consistent s -> existsb (terminal rid) es = true ->
  settled (receive rid fn s es) = true.
Proof.
  induction es as [|e es IH]; intros s C E; [discriminate|].
  cbn in E. cbn. fold (receive rid fn (handle rid fn s e) es).
  destruct (terminal rid e) eqn:Te.
  - apply receive_settled; [apply handle_consistent, C | apply handle_terminal; assumption].
  - apply IH; [apply handle_consistent, C | exact E].
Qed.

(** C10.  Whatever the port delivers, the promise is resolved at most once
    and the port is disconnected exactly as often as the promise is
    resolved.  As soon as a terminal event has occurred (a complete or an
    error message of the session, the port being disconnected, the timer)
    the promise has been resolved exactly once, and nothing that comes
    later changes the value or disconnects again. *)
Theorem settles_once rid fn es :
  let s := receive rid fn opened es in
  length (resolved s) <= 1
  /\ disconnects s = length (resolved s)
  /\ (existsb (terminal rid) es = true -> length (resolved s) = 1)
  /\ (forall later,
        existsb (terminal rid) es = true ->
        resolved (receive rid fn opened (es ++ later)) = resolved s
        /\ disconnects (receive rid fn opened (es ++ later)) = disconnects s).
Proof.
  intros s.
  assert (C : consistent s) by apply receive_consistent, opened_consistent.
  pose proof (resolved_once _ C) as R. pose proof (disconnected_once _ C) as D.
  repeat split.
  - rewrite R. destruct (settled s); lia.
  - rewrite R, D. reflexivity.
  - intros T. rewrite R.
    unfold s. rewrite (receive_terminal rid fn es opened opened_consistent T). reflexivity.
  - rewrite receive_app. apply receive_settled; [exact C|].
    apply receive_terminal; [apply opened_consistent | assumption].
  - rewrite receive_app. apply receive_settled; [exact C|].
    apply receive_terminal; [apply opened_consistent | assumption].
Qed.

(** The timer fires before the complete message and the disconnection. *)
Lemma settles_once_witness :
  let es := [Message (chunk_message "r" [x01]); TimedOut;
             Message (complete_message "r" "text/plain"); Disconnected] in
  existsb (terminal "r") es = true
  /\ length (resolved (receive "r" "f" opened es)) = 1.
Proof.
  intros es. split; [reflexivity|].
  destruct (settles_once "r" "f" es) as (_ & _ & H & _).
  exact (H eq_refl).
Defined.

(** *** Messages of other requests *)

(** A chunk message of the session that is not empty is appended to the
    buffer. *)
Lemma matching_chunk_appended requestId fn s b :
  b <> [] -> onMessage requestId fn s (chunk_message requestId b) = push_chunk s b.
Proof.
  intros NE. unfold onMessage. cbn [Msg.requestId chunk_message type_ chunk].
  rewrite String.eqb_refl. cbn [negb String.eqb Ascii.eqb Bool.eqb andb].
  destruct b as [|x b]; [congruence | reflexivity].
Qed.

(** C6.  A message whose requestId is not the one of the session leaves
    the session as it is: the chunk buffer, the accumulated length, the
    content type and the result are unchanged, and the session ends up in
    the same state as if the message had never been delivered. *)
Theorem requestId_isolation requestId fn s m :
  Msg.requestId m <> requestId ->
  onMessage requestId fn s m = s
  /\ forall before after,
       receive requestId fn s (before ++ Message m :: after)
       = receive requestId fn s (before ++ after).
Proof.
  intros H.
  assert (E : forall s', onMessage requestId fn s' m = s').
  { intros s'. unfold onMessage.
    destruct (String.eqb_spec (Msg.requestId m) requestId) as [Q|_]; [contradiction|].
    reflexivity. }
  split; [apply E|].
  intros before after. rewrite !receive_app. cbn. rewrite E. reflexivity.
Qed.

(** A chunk of another request arrives on a fresh session. *)
Lemma requestId_isolation_witness :
  Msg.requestId (chunk_message "other" [x01]) <> "mine"%string
  /\ onMessage "mine" "f" opened (chunk_message "other" [x01]) = opened.
Proof.
  assert (H : Msg.requestId (chunk_message "other" [x01]) <> "mine"%string)
    by (cbn; discriminate).
  split; [exact H|].
  exact (proj1 (requestId_isolation "mine" "f" opened (chunk_message "other" [x01]) H)).
Defined.

End SessionFacts.

Module EndToEnd.
Import Background Extractor RelayFacts HandlerFacts SessionFacts.

(** ** From the response body to the reassembled payload *)

Lemma concat_filter_nonempty (l : list bytes) :
  concat (filter nonempty l) = concat l.
Proof.
  induction l as [|b l IH]; [reflexivity|].
  cbn. unfold nonempty at 1. destruct b; cbn; rewrite IH; reflexivity.
Qed.

(** Receiving chunk messages of the session: the chunks that are not empty
    are appended in the order of arrival. *)
Lemma receive_chunk_messages rid fn ms : forall s,
  Forall (fun m => exists b, m = chunk_message rid b) ms ->
  receive rid fn s (map Message ms)
  = {| chunks := chunks s ++ filter nonempty (map payload ms);
       totalLength := totalLength s + length (concat (map payload ms));
       contentType := Extractor.contentType s; settled := settled s;
       timer := timer s; resolved := resolved s;
       disconnects := disconnects s |}.
Proof.
  induction ms as [|m ms IH]; intros s H.
  - destruct s; cbn. rewrite app_nil_r, Nat.add_0_r. reflexivity.
  - inversion H as [|? ? [b ->] H']; subst.
    cbn [map]. change (receive rid fn s (Message (chunk_message rid b) :: map Message ms))
      with (receive rid fn (onMessage rid fn s (chunk_message rid b)) (map Message ms)).
    rewrite IH by exact H'.
    unfold onMessage. cbn [Msg.requestId chunk_message type_ chunk].
    rewrite String.eqb_refl. cbn [negb String.eqb Ascii.eqb Bool.eqb andb].
    cbn [payload chunk_message chunk map concat filter].
    unfold nonempty at 2.
    destruct (length b =? 0) eqn:Z.
    + apply Nat.eqb_eq in Z. apply length_zero_iff_nil in Z. subst b. reflexivity.
    + cbn [negb]. unfold push_chunk. cbn.
      rewrite length_app, <- app_assoc, Nat.add_assoc. reflexivity.
Qed.

Lemma response_contentType_truthy response :
  String.eqb (response_contentType response) "" = false.
Proof.
  unfold response_contentType.
  destruct (content_type response) as [c|]; [|reflexivity].
  destruct (String.eqb c "") eqn:E; [reflexivity | exact E].
Qed.

(** The complete message of a session that has received [chunks_]. *)
Lemma onMessage_complete rid fn ct s :
  String.eqb ct "" = false -> settled s = false ->
  totalLength s = length (concat (chunks s)) ->
  resolved (onMessage rid fn s (complete_message rid ct))
  = resolved s
    ++ [match concat (chunks s) with
        | [] => None
        | _ :: _ =>
            Some {| filename := fn;
                    blob := {| blob_bytes := concat (chunks s); blob_type := ct |} |}
        end].
Proof.
  intros CT S T. unfold onMessage.
  cbn [Msg.requestId complete_message type_ chunk Msg.contentType].
  rewrite String.eqb_refl. cbn [negb String.eqb Ascii.eqb Bool.eqb andb].
  rewrite CT. cbn [totalLength set_contentType clearTimeout chunks Extractor.contentType].
  rewrite T, set_all_concat. unfold size. cbn [blob_bytes].
  destruct (concat (chunks s)) as [|x rest].
  - cbn. unfold finalize. cbn. rewrite S. reflexivity.
  - cbn [length Nat.eqb Nat.ltb Nat.leb].
    unfold finalize. cbn. rewrite S. reflexivity.
Qed.

Lemma finalize_buffer s result :
  chunks (finalize s result) = chunks s
  /\ totalLength (finalize s result) = totalLength s.
Proof. unfold finalize. destruct (settled s); split; reflexivity. Qed.

(** The complete message leaves the buffer as it is. *)
Lemma onMessage_complete_buffer rid fn ct s :
  chunks (onMessage rid fn s (complete_message rid ct)) = chunks s
  /\ totalLength (onMessage rid fn s (complete_message rid ct)) = totalLength s.
Proof.
  unfold onMessage.
  cbn [Msg.requestId complete_message type_ chunk Msg.contentType].
  rewrite String.eqb_refl. cbn [negb String.eqb Ascii.eqb Bool.eqb andb].
  cbn [totalLength set_contentType clearTimeout chunks Extractor.contentType].
  destruct (totalLength s =? 0);
    [rewrite (proj1 (finalize_buffer _ _)), (proj2 (finalize_buffer _ _));
     split; reflexivity|].
  destruct (set_all _ _ _);
    [rewrite (proj1 (finalize_buffer _ _)), (proj2 (finalize_buffer _ _))|];
    split; reflexivity.
Qed.

(** C1.  Take any response the handler streams and any way the reader
    cuts its body into reads, whatever their sizes.  The chunk messages
    the handler posts, received in order by the client, leave in the
    chunk buffer exactly the bytes of the body: neither a byte lost at a
    boundary nor one repeated, and the accumulated length is the length
    of the body.  On the complete message the client resolves with a blob
    whose bytes are the body; for an empty body (L = 0) the buffer is
    empty too and the client resolves with null. *)
Theorem chunk_round_trip url rid fn response values :
  ok response = true -> has_body response = true ->
  let body := body_of values in
  let sent := posted (run url rid (started url) (download_events response values)) in
  let received := receive rid fn opened (map Message sent) in
  concat (chunks received) = body
  /\ totalLength received = length body
  /\ resolved received
     = [match body with
        | [] => None
        | _ :: _ =>
            Some {| filename := fn;
                    blob := {| blob_bytes := body;
                               blob_type := response_contentType response |} |}
        end].
Proof.
  intros OK HB body sent received.
  assert (E : sent = relayed rid values
                     ++ [complete_message rid (response_contentType response)]).
  { unfold sent. rewrite run_download by assumption. reflexivity. }
  unfold received. rewrite E, map_app, receive_app.
  rewrite (receive_chunk_messages rid fn (relayed rid values)) by apply relayed_chunks.
  cbn [map]. change (receive rid fn ?s [Message ?m]) with (onMessage rid fn s m).
  set (s := {| chunks := _ |}).
  assert (B : concat (chunks s) = body).
  { unfold s. cbn. rewrite concat_filter_nonempty. apply relayed_payload. }
  assert (T : totalLength s = length (concat (chunks s))).
  { rewrite B. unfold s. cbn. rewrite relayed_payload. reflexivity. }
  pose proof (onMessage_complete rid fn (response_contentType response) s
                (response_contentType_truthy response) eq_refl T) as R.
  rewrite B in R.
  destruct (onMessage_complete_buffer rid fn (response_contentType response) s)
    as (Ec & Et).
  split; [|split].
  - rewrite Ec. exact B.
  - rewrite Et, T, B. reflexivity.
  - exact R.
Qed.

(** Three bytes that arrive in four reads, one without a value and one
    empty. *)
Lemma chunk_round_trip_witness :
  let values := [Some [x01; x02]; None; Some []; Some [x03]] in
  ok ok_response = true /\ has_body ok_response = true
  /\ concat (chunks (receive "r" "f" opened
                       (map Message
                          (posted (run "u" "r" (started "u")
                                       (download_events ok_response values))))))
     = [x01; x02; x03].
Proof.
  intros values. split; [reflexivity|]. split; [reflexivity|].
  exact (proj1 (chunk_round_trip "u" "r" "f" ok_response values eq_refl eq_refl)).
Defined.

End EndToEnd.

Module CascadeFacts.
Import Extractor SessionFacts.

(** ** The strategies never hand back an empty payload *)

Lemma guard_acceptable fn b :
  acceptable (if 0 <? size b then Some {| filename := fn; blob := b |} else None).
Proof.
  destruct (0 <? size b) eqn:E; [apply Nat.ltb_lt, E | exact I].
Qed.

Lemma downloadFileViaXHR_acceptable fn first second :
  acceptable (downloadFileViaXHR fn first second).
Proof.
  unfold downloadFileViaXHR.
  destruct first as [st [b|]| |];
    [| |destruct second as [st [b|]| |]|];
    try exact I;
    try (destruct (st =? 200); [apply guard_acceptable | exact I]);
    destruct (st =? 200); exact I.
Qed.

Lemma finalize_acceptable s result :
  acceptable result -> Forall acceptable (resolved s) ->
  Forall acceptable (resolved (finalize s result)).
Proof.
  intros A H. unfold finalize. destruct (settled s); [exact H|].
  cbn. apply Forall_app. split; [exact H | constructor; [exact A | constructor]].
Qed.

Lemma handle_acceptable rid fn s e :
  Forall acceptable (resolved s) -> Forall acceptable (resolved (handle rid fn s e)).
Proof.
  intros H. destruct e as [m| |]; cbn [handle].
  - unfold onMessage.
    destruct (negb (Msg.requestId m =? rid)%string); [exact H|].
    destruct (if (type_ m =? "chunk")%string then chunk m else None) as [view|].
    + destruct (length view =? 0); exact H.
    + destruct (type_ m =? "complete")%string.
      * cbn [totalLength set_contentType clearTimeout chunks contentType].
        destruct (totalLength s =? 0); [apply finalize_acceptable; [exact I | exact H]|].
        destruct (set_all _ _ _) as [combined|]; [|exact H].
        apply finalize_acceptable; [apply guard_acceptable | exact H].
      * destruct (type_ m =? "error")%string; [|exact H].
        apply finalize_acceptable; [exact I | exact H].
  - unfold onDisconnect. apply finalize_acceptable; [exact I | exact H].
  - unfold onTimeout. destruct (timer s); [|exact H].
    apply finalize_acceptable; [exact I | exact H].
Qed.

Lemma receive_acceptable rid fn es : forall s,
  Forall acceptable (resolved s) -> Forall acceptable (resolved (receive rid fn s es)).
Proof.
  induction es as [|e es IH]; intros s H; [exact H|].
  apply IH, handle_acceptable, H.
Qed.

Lemma downloadFileViaBackground_acceptable rid fn events :
  acceptable (downloadFileViaBackground rid fn events).
Proof.
  unfold downloadFileViaBackground.
  pose proof (receive_acceptable rid fn (events ++ [TimedOut]) opened (Forall_nil _)) as H.
  destruct (resolved _) as [|r rest]; [exact I|].
  inversion H; assumption.
Qed.

(** The promise of [downloadFileViaBackground] is always resolved: the
    timer sees to it. *)
Lemma downloadFileViaBackground_resolves rid fn events :
  exists result,
    resolved (receive rid fn opened (events ++ [TimedOut])) = [result].
Proof.
  assert (T : existsb (terminal rid) (events ++ [TimedOut]) = true).
  { rewrite existsb_app. cbn. apply orb_true_r. }
  pose proof (receive_terminal rid fn _ opened opened_consistent T) as S.
  pose proof (resolved_once _ (receive_consistent rid fn (events ++ [TimedOut])
                                 opened opened_consistent)) as R.
  rewrite S in R.
  destruct (resolved _) as [|r [|r' rest]]; try discriminate. eauto.
Qed.

(** ** The cascade *)

Lemma ascending_snoc tr a :
  ascending tr -> Forall (fun b => code_rank b < code_rank a) tr ->
  ascending (tr ++ [a]).
Proof.
  unfold ascending. induction 1 as [|b tr S IH F]; intros H.
  - repeat constructor.
  - inversion H; subst. cbn. constructor; [apply IH; assumption|].
    apply Forall_app. split; [exact F | constructor; [assumption | constructor]].
Qed.

Section Cascade.

Variable url fn : string.
Variable blobUrl : option string.
Variable useApiAuth : bool.
Variable apiAuthHeader : option string.
Variable w : world.

Lemma so_far_weaken k k' tr : k <= k' -> so_far fn w k tr -> so_far fn w k' tr.
Proof.
  intros L (A & B & C). repeat split; auto.
  eapply Forall_impl; [|exact B]. cbn. intros; lia.
Qed.

Lemma so_far_snoc k k' tr a :
  so_far fn w k tr -> k <= code_rank a -> code_rank a < k' ->
  yields fn w a = None -> so_far fn w k' (tr ++ [a]).
Proof.
  intros (A & B & C) L1 L2 Y. repeat split.
  - apply ascending_snoc; [exact A|]. eapply Forall_impl; [|exact B]. cbn. intros; lia.
  - apply Forall_app. split.
    + eapply Forall_impl; [|exact B]. cbn. intros; lia.
    + constructor; [exact L2 | constructor].
  - apply Forall_app. split; [exact C | constructor; [exact Y | constructor]].
Qed.

(** An operation that ends the cascade with what it yields. *)
Lemma ends_with k tr a result :
  so_far fn w k tr -> k <= code_rank a -> yields fn w a = result ->
  settled_well fn w (tr ++ [a], result).
Proof.
  intros (A & B & C) L Y. split; cbn [fst].
  - apply ascending_snoc; [exact A|]. eapply Forall_impl; [|exact B]. cbn. intros; lia.
  - unfold first_success. cbn [snd fst]. destruct result as [d|]; [|exact I].
    exists tr, a. auto.
Qed.

Lemma gives_up k tr : so_far fn w k tr -> settled_well fn w (tr, None).
Proof. intros (A & _). split; [exact A | exact I]. Qed.

Lemma via_background_well tr :
  so_far fn w 7 tr -> settled_well fn w (via_background fn w tr).
Proof. intros H. unfold via_background. eapply ends_with; eauto. Qed.

Lemma xhr_then_background_well tr :
  so_far fn w 6 tr -> settled_well fn w (xhr_then_background fn w tr).
Proof.
  intros H. unfold xhr_then_background.
  destruct (downloadFileViaXHR fn _ _) as [d|] eqn:E.
  - eapply ends_with; eauto.
  - apply via_background_well. eapply so_far_snoc; eauto.
Qed.

Lemma read_blob_well k before a response :
  so_far fn w k before -> k <= code_rank a -> code_rank a < 6 ->
  r_ok response = true ->
  yields fn w a = accepts fn response ->
  settled_well fn w (read_blob fn w (before ++ [a]) response).
Proof.
  intros H L1 L2 OK Y. unfold read_blob. unfold accepts in Y. rewrite OK in Y.
  destruct (r_blob response) as [b|].
  - destruct (size b) as [|n] eqn:Z; cbn [Nat.eqb].
    + apply (gives_up 6). eapply so_far_snoc; eauto;
        try (rewrite Y, Z; reflexivity).
    + eapply ends_with; eauto; try (rewrite Y, Z; reflexivity).
  - apply via_background_well. apply (so_far_weaken 6); [lia|].
    eapply so_far_snoc; eauto.
Qed.

Lemma check_response_well k before a response :
  so_far fn w k before -> k <= code_rank a -> code_rank a < 6 ->
  yields fn w a = accepts fn response ->
  settled_well fn w (check_response fn w (before ++ [a]) response).
Proof.
  intros H L1 L2 Y. unfold check_response.
  destruct (r_ok response) eqn:OK; cbn [negb].
  - eapply read_blob_well; eauto.
  - assert (N : yields fn w a = None) by (rewrite Y; unfold accepts; rewrite OK; reflexivity).
    destruct ((r_status response =? 403) || is_opaque (r_type response)).
    + apply xhr_then_background_well. eapply so_far_snoc; eauto.
    + apply via_background_well. apply (so_far_weaken 6); [lia|].
      eapply so_far_snoc; eauto.
Qed.

Lemma fetch_phase_well tr :
  so_far fn w 3 tr ->
  settled_well fn w (fetch_phase url fn useApiAuth apiAuthHeader w tr).
Proof.
  intros H. unfold fetch_phase.
  set (auth := useApiAuth && truthy apiAuthHeader && includes url "/rest/api/").
  destruct (fetch_same_origin w) as [|r1] eqn:F1.
  - apply xhr_then_background_well.
    eapply so_far_snoc; eauto; cbn; try lia. rewrite F1. reflexivity.
  - destruct (r_ok r1) eqn:OK1; cbn [negb].
    + (* the first response is ok *)
      destruct (is_opaque (r_type r1)) eqn:O1.
      * apply via_background_well. eapply so_far_snoc; eauto; cbn; try lia;
          try (rewrite F1, O1; reflexivity).
      * rewrite OK1. cbn [negb andb]. apply (check_response_well 3); auto; cbn; try lia;
          try (rewrite F1, O1; reflexivity).
    + (* it is not: the fetch that includes the credentials *)
      assert (H1 : so_far fn w 4 (tr ++ [FetchSameOrigin auth])).
      { eapply so_far_snoc; eauto; cbn; try lia.
        rewrite F1. unfold accepts. rewrite OK1. destruct (is_opaque _); reflexivity. }
      destruct (fetch_include w) as [|r2] eqn:F2.
      * apply via_background_well. eapply so_far_snoc; eauto; cbn; try lia;
          try (rewrite F2; reflexivity).
      * destruct (is_opaque (r_type r2)) eqn:O2.
        -- apply via_background_well. eapply so_far_snoc; eauto; cbn; try lia;
             try (rewrite F2, O2; reflexivity).
        -- destruct (negb (r_ok r2) && (r_status r2 =? 403) && useApiAuth
                     && truthy apiAuthHeader) eqn:Again.
           ++ assert (N2 : r_ok r2 = false).
              { destruct (r_ok r2); [discriminate | reflexivity]. }
              assert (H2 : so_far fn w 5 ((tr ++ [FetchSameOrigin auth]) ++ [FetchInclude])).
              { eapply so_far_snoc; eauto; cbn; try lia.
                rewrite F2, O2. unfold accepts. rewrite N2. reflexivity. }
              destruct (fetch_same_origin_again w) as [|r3] eqn:F3.
              ** apply xhr_then_background_well. eapply so_far_snoc; eauto; cbn; try lia;
                   try (rewrite F3; reflexivity).
              ** apply (check_response_well 5); auto; cbn; try lia;
                   try (rewrite F3; reflexivity).
           ++ apply (check_response_well 4); auto; cbn; try lia;
                try (rewrite F2, O2; reflexivity).
Qed.

Lemma downloadFile_well :
  settled_well fn w (downloadFile url fn blobUrl useApiAuth apiAuthHeader w).
Proof.
  unfold downloadFile.
  assert (L : match local_handle fn blobUrl w with
              | (tr, Some d) => tr = [LocalHandle] /\ yields fn w LocalHandle = Some d
              | (tr, None) => so_far fn w 1 tr
              end).
  { assert (E : so_far fn w 1 []) by (repeat split; constructor).
    assert (N : yields fn w LocalHandle = None -> so_far fn w 1 [LocalHandle]).
    { intros Y. apply (so_far_snoc 0 1 [] LocalHandle); auto.
      repeat split; constructor. }
    unfold local_handle. cbn [yields] in *. unfold accepts in *.
    destruct blobUrl as [b|]; [|exact E].
    destruct (startsWith b "blob:"); [|exact E].
    destruct (local_fetch w) as [|r]; [apply N; reflexivity|].
    destruct (r_ok r); [|apply N; reflexivity].
    destruct (r_blob r) as [bl|]; [|apply N; reflexivity].
    destruct (0 <? size bl); [split; reflexivity | apply N; reflexivity]. }
  destruct (local_handle fn blobUrl w) as [tr [d|]].
  - destruct L as (-> & Y). apply (ends_with 0 [] LocalHandle); auto.
    repeat split; constructor.
  - destruct (startsWith url "blob:" || startsWith url "data:"); [apply (gives_up 1), L|].
    assert (A : forall tr', so_far fn w 2 tr' ->
              settled_well fn w
                (if includes url "/secure/attachment/" || includes url "/attachment/"
                 then match downloadFileViaXHR fn (fst (xhr_first w)) (snd (xhr_first w)) with
                      | Some xhrResult => (tr' ++ [XhrFirst], Some xhrResult)
                      | None => fetch_phase url fn useApiAuth apiAuthHeader w (tr' ++ [XhrFirst])
                      end
                 else fetch_phase url fn useApiAuth apiAuthHeader w tr')).
    { intros tr' H.
      destruct (includes url "/secure/attachment/" || includes url "/attachment/").
      - destruct (downloadFileViaXHR fn _ _) as [d|] eqn:X.
        + eapply ends_with; eauto.
        + apply fetch_phase_well. eapply so_far_snoc; eauto.
      - apply fetch_phase_well. apply (so_far_weaken 2); [lia | exact H]. }
    destruct (useApiAuth && truthy apiAuthHeader).
    + destruct (downloadFileViaBackgroundBlob fn (one_shot w)) as [d|] eqn:O.
      * eapply ends_with; eauto.
      * apply A. eapply so_far_snoc; eauto.
    + apply A. apply (so_far_weaken 1); [lia | exact L].
Qed.


Lemma extends_snoc tr a o : extends (tr ++ [a]) o -> exists more, fst o = tr ++ a :: more.
Proof. intros [more E]. exists more. rewrite E, <- app_assoc. reflexivity. Qed.

Lemma extends_weaken tr a o : extends (tr ++ [a]) o -> extends tr o.
Proof. intros H. destruct (extends_snoc _ _ _ H) as [more E]. eexists; eauto. Qed.

Lemma extends_refl tr r : extends tr (tr, r).
Proof. exists []. cbn. rewrite app_nil_r. reflexivity. Qed.

Lemma via_background_extends tr : extends (tr ++ [Streaming]) (via_background fn w tr).
Proof. apply extends_refl. Qed.

Lemma xhr_then_background_extends tr :
  extends (tr ++ [XhrFallback]) (xhr_then_background fn w tr).
Proof.
  unfold xhr_then_background. destruct (downloadFileViaXHR fn _ _).
  - apply extends_refl.
  - eapply extends_weaken, via_background_extends.
Qed.

Lemma check_response_extends tr response :
  extends tr (check_response fn w tr response).
Proof.
  unfold check_response, read_blob.
  destruct (negb (r_ok response)).
  - destruct (_ || _).
    + eapply extends_weaken, xhr_then_background_extends.
    + eapply extends_weaken, via_background_extends.
  - destruct (r_blob response) as [b|].
    + destruct (size b =? 0); apply extends_refl.
    + eapply extends_weaken, via_background_extends.
Qed.

Lemma extends_trans tr a o : extends (tr ++ [a]) o -> forall tr', tr = tr' -> extends (tr' ++ [a]) o.
Proof. intros H tr' <-. exact H. Qed.

(** The fetch phase always starts with the same-origin fetch. *)
Lemma fetch_phase_starts tr :
  extends (tr ++ [FetchSameOrigin (useApiAuth && truthy apiAuthHeader
                                   && includes url "/rest/api/")])
          (fetch_phase url fn useApiAuth apiAuthHeader w tr).
Proof.
  unfold fetch_phase.
  set (auth := useApiAuth && truthy apiAuthHeader && includes url "/rest/api/").
  destruct (fetch_same_origin w) as [|r1].
  - eapply extends_weaken, xhr_then_background_extends.
  - destruct (r_ok r1) eqn:OK1; cbn [negb].
    + destruct (is_opaque (r_type r1));
        [eapply extends_weaken, via_background_extends|].
      rewrite OK1. cbn [negb andb]. apply check_response_extends.
    + destruct (fetch_include w) as [|r2].
      * eapply extends_weaken, extends_weaken, via_background_extends.
      * destruct (is_opaque (r_type r2));
          [eapply extends_weaken, extends_weaken, via_background_extends|].
        destruct (negb (r_ok r2) && (r_status r2 =? 403) && useApiAuth
                  && truthy apiAuthHeader).
        -- destruct (fetch_same_origin_again w).
           ++ eapply extends_weaken, extends_weaken, extends_weaken,
                xhr_then_background_extends.
           ++ eapply extends_weaken, extends_weaken, check_response_extends.
        -- eapply extends_weaken, check_response_extends.
Qed.

End Cascade.

Lemma code_rank_bound a : code_rank a <= 7.
Proof. destruct a; cbn; lia. Qed.

Lemma ascending_middle before a after :
  ascending (before ++ a :: after) ->
  Forall (fun b => code_rank b < code_rank a) before
  /\ Forall (fun b => code_rank a < code_rank b) after.
Proof.
  unfold ascending. induction before as [|b before IH]; cbn; intros H.
  - inversion H; subst. split; [constructor | assumption].
  - inversion H as [|? ? S F]; subst. destruct (IH S) as (B & A).
    split; [|exact A]. constructor; [|exact B].
    apply Forall_app in F as (_ & F). inversion F; assumption.
Qed.

(** C8 as stated fails: for an attachment URL the XHR is started before the
    same-origin fetch, which the specification lists three places before
    it. *)
Lemma cascade_not_in_spec_order :
  let o := downloadFile "https://host/secure/attachment/1/report.pdf" "report.pdf"
             None false None xhr_refused in
  fst o = [XhrFirst; FetchSameOrigin false]
  /\ snd o = Some {| filename := "report.pdf"; blob := pdf |}
  /\ in_order spec_rank (fst o) = false.
Proof. repeat split. Qed.

(** C7 as stated fails: the same-origin fetch yields nothing (its body is
    empty), the streaming fetch would yield the file, and the cascade
    ends with null after the fetch alone. *)
Lemma empty_fetch_ends_cascade :
  let o := downloadFile "https://host/files/report.pdf" "report.pdf"
             None false None empty_answer in
  fetch_same_origin empty_answer
  = Responds {| r_ok := true; r_status := 200; r_type := basic;
                r_blob := Some empty_blob |}
  /\ size empty_blob = 0
  /\ yields "report.pdf" empty_answer (FetchSameOrigin false) = None
  /\ yields "report.pdf" empty_answer Streaming
     = Some {| filename := "report.pdf"; blob := pdf |}
  /\ o = ([FetchSameOrigin false], None).
Proof. repeat split. Qed.

Lemma accepts_acceptable fn r : acceptable (accepts fn r).
Proof.
  unfold accepts. destruct (r_ok r); [|exact I].
  destruct (r_blob r) as [b|]; [apply guard_acceptable | exact I].
Qed.

Lemma yields_acceptable fn w a : a <> OneShotAuth -> acceptable (yields fn w a).
Proof.
  intros NA. destruct a; cbn [yields]; try contradiction;
    try apply downloadFileViaXHR_acceptable;
    try apply downloadFileViaBackground_acceptable;
    match goal with
    | |- context [match ?x with _ => _ end] => destruct x as [|r]
    end; try exact I; try apply accepts_acceptable;
    destruct (is_opaque (r_type r)); try exact I; apply accepts_acceptable.
Qed.

End CascadeFacts.

Module NamingFacts.
Import Extractor.

(** ** Naming the files *)

(** *** Strings *)

Lemma chars_append a b :
  list_ascii_of_string (String.append a b)
  = list_ascii_of_string a ++ list_ascii_of_string b.
Proof. induction a as [|c a IH]; cbn; [reflexivity | rewrite IH; reflexivity]. Qed.

Lemma chars_inj a b : list_ascii_of_string a = list_ascii_of_string b -> a = b.
Proof.
  intros H. rewrite <- (string_of_list_ascii_of_string a),
    <- (string_of_list_ascii_of_string b), H. reflexivity.
Qed.

Lemma append_inv_head a x y : String.append a x = String.append a y -> x = y.
Proof.
  intros H. apply chars_inj. apply (f_equal list_ascii_of_string) in H.
  rewrite !chars_append in H. eapply app_inv_head, H.
Qed.

Lemma append_inv_tail b x y : String.append x b = String.append y b -> x = y.
Proof.
  intros H. apply chars_inj. apply (f_equal list_ascii_of_string) in H.
  rewrite !chars_append in H. eapply app_inv_tail, H.
Qed.

Lemma string_of_nat_inj j k : string_of_nat j = string_of_nat k -> j = k.
Proof.
  unfold string_of_nat. intros H.
  apply (f_equal NilEmpty.uint_of_string) in H. rewrite !NilEmpty.usu in H.
  injection H as H. apply (f_equal Nat.of_uint) in H.
  rewrite !Unsigned.of_to in H. exact H.
Qed.

(** *** The candidates of the loop *)

Lemma suffixed_inj filename_ j k :
  suffixed filename_ j = suffixed filename_ k -> j = k.
Proof.
  unfold suffixed. destruct (1 <? length (split "." filename_)); intros H.
  - apply append_inv_head, append_inv_head, append_inv_tail in H.
    apply string_of_nat_inj, H.
  - apply append_inv_head, append_inv_head in H. apply string_of_nat_inj, H.
Qed.

Lemma attachment_path_inj key a b :
  attachment_path key a = attachment_path key b -> a = b.
Proof. unfold attachment_path. intros H. eapply append_inv_head, append_inv_head, H. Qed.

Lemma taken_spec key paths f :
  taken key paths f = true <-> In (attachment_path key f) (map path paths).
Proof.
  unfold taken. rewrite existsb_exists, in_map_iff. split.
  - intros (a & I & E). apply String.eqb_eq in E. eauto.
  - intros (a & E & I). exists a. split; [exact I | apply String.eqb_eq, E].
Qed.

(** A name the loop hands back is free. *)
Lemma unique_loop_free fuel key paths filename_ : forall finalFilename counter f,
  unique_loop fuel key paths filename_ finalFilename counter = Some f ->
  taken key paths f = false.
Proof.
  induction fuel as [|fuel IH]; intros cur k f; cbn [unique_loop];
    destruct (taken key paths cur) eqn:T; intros H; try discriminate.
  - injection H as <-. exact T.
  - eapply IH, H.
  - injection H as <-. exact T.
Qed.

(** When the bound is reached, every candidate tried was taken. *)
Lemma unique_loop_exhausted fuel key paths filename_ : forall finalFilename counter,
  unique_loop fuel key paths filename_ finalFilename counter = None ->
  forall j, counter <= j < counter + fuel ->
    taken key paths (suffixed filename_ j) = true.
Proof.
  induction fuel as [|fuel IH]; intros cur k H j R; [lia|].
  cbn [unique_loop] in H. destruct (taken key paths cur); [|discriminate].
  destruct (Nat.eq_dec j k) as [->|N].
  - destruct fuel; cbn [unique_loop] in H;
      destruct (taken key paths (suffixed filename_ k)); try discriminate; reflexivity.
  - apply (IH _ _ H). lia.
Qed.

(** The loop finds a name within one more iteration than there are
    entries. *)
Lemma unique_filename_total key paths filename_ :
  exists f, unique_filename key paths filename_ = Some f
            /\ taken key paths f = false.
Proof.
  unfold unique_filename.
  destruct (unique_loop (S (length paths)) key paths filename_ filename_ 1)
    as [f|] eqn:E.
  - exists f. split; [reflexivity | eapply unique_loop_free, E].
  - exfalso.
    pose proof (unique_loop_exhausted _ _ _ _ _ _ E) as All.
    set (cands := map (fun j => attachment_path key (suffixed filename_ j))
                      (seq 1 (S (length paths)))).
    assert (ND : NoDup cands).
    { unfold cands. apply Injective_map_NoDup; [|apply seq_NoDup].
      intros j k Q. eapply suffixed_inj, attachment_path_inj, Q. }
    assert (IN : incl cands (map path paths)).
    { intros p Hp. unfold cands in Hp. apply in_map_iff in Hp as (j & <- & Hj).
      apply in_seq in Hj. apply taken_spec, All. lia. }
    pose proof (NoDup_incl_length ND IN) as L.
    unfold cands in L. rewrite !length_map, length_seq in L. lia.
Qed.

Lemma add_file_unique first_name key paths f :
  NoDup (map path paths) ->
  exists paths', add_file first_name key paths f = Some paths'
                 /\ NoDup (map path paths')
                 /\ length paths' = S (length paths).
Proof.
  intros ND. unfold add_file.
  destruct (unique_filename_total key paths (first_name f)) as (n & -> & T).
  eexists. split; [reflexivity|]. split.
  - rewrite map_app. cbn [map path].
    apply NoDup_app; [exact ND | repeat constructor; intros [] |].
    + intros p Hp [<-|[]].
      apply taken_spec in Hp. congruence.
  - rewrite length_app. cbn. lia.
Qed.

(** Whatever the first names are, the naming loop ends for every file and
    the paths it records are pairwise different. *)
Theorem names_unique first_name key fs : forall paths,
  NoDup (map path paths) ->
  exists paths', add_files first_name key paths fs = Some paths'
                 /\ NoDup (map path paths')
                 /\ length paths' = length paths + length fs.
Proof.
  induction fs as [|f fs IH]; intros paths ND.
  - exists paths. cbn. auto.
  - destruct (add_file_unique first_name key paths f ND) as (p1 & E1 & ND1 & L1).
    destruct (IH p1 ND1) as (p2 & E2 & ND2 & L2).
    exists p2. cbn [add_files]. rewrite E1. repeat split; auto. cbn. lia.
Qed.

(** *** Characters of the names *)

Lemma valid_chars s :
  has_invalid_character s = false
  <-> Forall (fun c => invalid_character c = false) (list_ascii_of_string s).
Proof.
  unfold has_invalid_character. induction (list_ascii_of_string s) as [|c l IH]; cbn.
  - split; [constructor | reflexivity].
  - rewrite orb_false_iff, IH. split.
    + intros (A & B). constructor; assumption.
    + intros H. inversion H; auto.
Qed.

Lemma valid_append a b :
  has_invalid_character a = false -> has_invalid_character b = false ->
  has_invalid_character (String.append a b) = false.
Proof.
  rewrite !valid_chars, chars_append. intros A B. apply Forall_app. auto.
Qed.

Lemma valid_replace_invalid s : has_invalid_character (replace_invalid s) = false.
Proof.
  apply valid_chars. unfold replace_invalid.
  induction s as [|c s IH]; cbn [map_string list_ascii_of_string]; constructor;
    [|exact IH].
  destruct (invalid_character c) eqn:E; [reflexivity | exact E].
Qed.

Lemma valid_trim_start s :
  has_invalid_character s = false -> has_invalid_character (trim_start s) = false.
Proof.
  rewrite !valid_chars. induction s as [|c s IH]; cbn [trim_start]; intros H; [exact H|].
  destruct (is_space c); [|exact H].
  apply IH. inversion H; assumption.
Qed.

Lemma valid_rev_string s :
  has_invalid_character s = false -> has_invalid_character (rev_string s) = false.
Proof.
  rewrite !valid_chars. unfold rev_string.
  rewrite list_ascii_of_string_of_list_ascii. apply Forall_rev.
Qed.

(** A cleaned name has none of the characters the cleaning replaces. *)
Lemma valid_clean s : has_invalid_character (clean s) = false.
Proof.
  unfold clean, trim.
  apply valid_rev_string, valid_trim_start, valid_rev_string, valid_trim_start,
    valid_replace_invalid.
Qed.

Lemma valid_String c s :
  invalid_character c = false -> has_invalid_character s = false ->
  has_invalid_character (String c s) = false.
Proof.
  intros Hc Hs. unfold has_invalid_character in *.
  cbn [list_ascii_of_string existsb]. rewrite Hc, Hs. reflexivity.
Qed.

Lemma valid_split sep s :
  has_invalid_character s = false ->
  Forall (fun p => has_invalid_character p = false) (split sep s).
Proof.
  induction s as [|c s IH]; intros H.
  - repeat constructor.
  - assert (Hc : invalid_character c = false /\ has_invalid_character s = false).
    { apply valid_chars in H. cbn in H. inversion H; subst.
      split; [assumption | apply valid_chars; assumption]. }
    destruct Hc as (Hc & Hs). specialize (IH Hs).
    cbn [split]. destruct (Ascii.eqb c sep).
    + constructor; [reflexivity | exact IH].
    + destruct (split sep s) as [|p ps].
      * repeat constructor. apply valid_String; [exact Hc | reflexivity].
      * inversion IH; subst. constructor; [|assumption].
        apply valid_String; assumption.
Qed.

Lemma valid_join sep parts :
  has_invalid_character sep = false ->
  Forall (fun p => has_invalid_character p = false) parts ->
  has_invalid_character (join sep parts) = false.
Proof.
  intros Hs. unfold join. induction 1 as [|p ps Hp H IH]; [reflexivity|].
  cbn [String.concat]. destruct ps as [|q ps]; [exact Hp|].
  apply valid_append; [exact Hp|]. apply valid_append; [exact Hs | exact IH].
Qed.

Lemma Forall_removelast {A} (P : A -> Prop) l : Forall P l -> Forall P (removelast l).
Proof.
  induction 1 as [|x l Hx H IH]; [constructor|].
  cbn. destruct l; [constructor | constructor; assumption].
Qed.

Lemma Forall_last {A} (P : A -> Prop) l d : P d -> Forall P l -> P (last l d).
Proof.
  intros Hd. induction 1 as [|x l Hx H IH]; [exact Hd|].
  cbn. destruct l; assumption.
Qed.

Lemma valid_string_of_uint d :
  has_invalid_character (NilEmpty.string_of_uint d) = false.
Proof.
  apply valid_chars.
  induction d; cbn [NilEmpty.string_of_uint list_ascii_of_string];
    constructor; try assumption; reflexivity.
Qed.

Lemma valid_string_of_nat n : has_invalid_character (string_of_nat n) = false.
Proof. apply valid_string_of_uint. Qed.

(** The suffix adds an underscore, digits and a dot, nothing else. *)
Lemma valid_suffixed filename_ counter :
  has_invalid_character filename_ = false ->
  has_invalid_character (suffixed filename_ counter) = false.
Proof.
  intros H. unfold suffixed.
  pose proof (valid_split "." filename_ H) as Hp.
  destruct (1 <? length (split "." filename_)).
  - repeat apply valid_append; try reflexivity.
    + apply valid_join; [reflexivity | apply Forall_removelast, Hp].
    + apply valid_string_of_nat.
    + apply Forall_last; [reflexivity | exact Hp].
  - repeat apply valid_append; try reflexivity; [exact H | apply valid_string_of_nat].
Qed.

Lemma unique_loop_valid fuel key paths filename_ : forall finalFilename counter f,
  has_invalid_character filename_ = false ->
  has_invalid_character finalFilename = false ->
  unique_loop fuel key paths filename_ finalFilename counter = Some f ->
  has_invalid_character f = false.
Proof.
  induction fuel as [|fuel IH]; intros cur k f Hf Hc; cbn [unique_loop];
    destruct (taken key paths cur); intros H; try discriminate.
  - injection H as <-. exact Hc.
  - eapply IH; [exact Hf | apply valid_suffixed, Hf | exact H].
  - injection H as <-. exact Hc.
Qed.

Lemma substring_skip p : forall n s,
  String.substring (String.length p) n (String.append p s) = String.substring 0 n s.
Proof. induction p as [|c p IH]; intros n s; cbn; [reflexivity | apply IH]. Qed.

Lemma substring_all s : String.substring 0 (String.length s) s = s.
Proof. induction s as [|c s IH]; cbn; [reflexivity | rewrite IH; reflexivity]. Qed.

Lemma length_append a b :
  String.length (String.append a b) = String.length a + String.length b.
Proof. induction a as [|c a IH]; cbn; [reflexivity | rewrite IH; reflexivity]. Qed.

Lemma final_name_path key id_ name_ f :
  final_name key {| id := id_; name := name_; path := attachment_path key f |} = f.
Proof.
  unfold final_name. cbn [path].
  assert (E : attachment_path key f
              = String.append (attachment_path key EmptyString) f).
  { unfold attachment_path. apply chars_inj. rewrite !chars_append. cbn.
    rewrite <- !app_assoc. reflexivity. }
  rewrite E, length_append.
  replace (String.length (attachment_path key "") + String.length f
           - String.length (attachment_path key ""))
    with (String.length f) by lia.
  rewrite substring_skip. apply substring_all.
Qed.

(** When the first names have none of the reserved characters, neither
    have the final ones. *)
Lemma add_files_valid first_name key fs : forall paths paths',
  Forall (fun f => has_invalid_character (first_name f) = false) fs ->
  Forall (fun a => has_invalid_character (final_name key a) = false) paths ->
  add_files first_name key paths fs = Some paths' ->
  Forall (fun a => has_invalid_character (final_name key a) = false) paths'.
Proof.
  induction fs as [|f fs IH]; intros paths paths' Hfs Hp H.
  - injection H as <-. exact Hp.
  - inversion Hfs; subst. cbn [add_files] in H. unfold add_file in H.
    destruct (unique_filename key paths (first_name f)) as [n|] eqn:U; [|discriminate].
    eapply IH; [eassumption | | exact H].
    apply Forall_app. split; [exact Hp|]. constructor; [|constructor].
    rewrite final_name_path. unfold unique_filename in U.
    eapply unique_loop_valid; [| |exact U]; assumption.
Qed.

(** In [extractTicketViaAPI] every archived name is unique and free of
    the reserved characters. *)
Theorem api_names_unique_and_clean key fs :
  exists paths,
    add_files api_filename key [] fs = Some paths
    /\ NoDup (map path paths)
    /\ Forall (fun a => has_invalid_character (final_name key a) = false) paths.
Proof.
  destruct (names_unique api_filename key fs [] (NoDup_nil _)) as (paths & E & ND & _).
  exists paths. repeat split; auto.
  eapply add_files_valid; [| |exact E]; [|constructor].
  apply Forall_forall. intros f _. apply valid_clean.
Qed.

(** C9 fails in [extractTicket]: an attachment called README whose URL
    has no extension of its own is archived under a name that contains
    slashes, because the text after the last dot of the URL is appended
    to the cleaned name as its extension.  [extractTicketViaAPI] names the
    same file README. *)
Theorem dom_name_with_separator :
  add_files dom_filename "PROJ-1" [] [readme]
  = Some [{| id := 1; name := "README";
             path := "PROJ-1/raw/attachments/README.com/secure/attachment/10001/README" |}]
  /\ dom_filename readme = "README.com/secure/attachment/10001/README"%string
  /\ has_invalid_character (dom_filename readme) = true
  /\ api_filename readme = "README"%string.
Proof. repeat split. Qed.

End NamingFacts.

(** ** The stream as a whole: what the handler posts and what the client
    makes of it *)

Module StreamFacts.
Import Background Extractor Stream RelayFacts HandlerFacts SessionFacts EndToEnd.

#[local] Arguments MAX_CHUNK_SIZE : simpl never.
#[local] Arguments relay_value : simpl never.

(** *** The windows of one read *)

Lemma for_loop_index rid buf i : forall off,
  i < length (for_loop false rid buf off) <-> off + i * MAX_CHUNK_SIZE < length buf.
Proof.
  induction i as [|i IH]; intros off; rewrite for_loop_unfold;
    destruct (off <? length buf) eqn:E;
    [apply Nat.ltb_lt in E | apply Nat.ltb_ge in E
    |apply Nat.ltb_lt in E | apply Nat.ltb_ge in E]; cbn [length].
  - lia.
  - lia.
  - rewrite <- Nat.succ_lt_mono, IH. lia.
  - lia.
Qed.

Lemma for_loop_nth rid buf i : forall off,
  off + i * MAX_CHUNK_SIZE < length buf ->
  nth_error (for_loop false rid buf off) i
  = Some (chunk_message rid (firstn MAX_CHUNK_SIZE (skipn (off + i * MAX_CHUNK_SIZE) buf))).
Proof.
  induction i as [|i IH]; intros off H; rewrite for_loop_unfold.
  - rewrite (proj2 (Nat.ltb_lt _ _)) by lia. cbn [nth_error].
    unfold slice. replace (off + MAX_CHUNK_SIZE - off) with MAX_CHUNK_SIZE by lia.
    rewrite Nat.mul_0_l, Nat.add_0_r. reflexivity.
  - rewrite (proj2 (Nat.ltb_lt _ _)) by lia. cbn [nth_error].
    rewrite IH by lia. do 4 f_equal. lia.
Qed.
(** X3.  The messages one read is relayed in are the consecutive windows
    of [MAX_CHUNK_SIZE] bytes of the value: message [i] carries the bytes
    from [i * MAX_CHUNK_SIZE] on, at most [MAX_CHUNK_SIZE] of them.  Every
    message but the last is full, and a value that is not empty gives no
    empty message. *)
Theorem relay_value_windows rid value i :
  i < length (relay_value false rid value) ->
  let window := firstn MAX_CHUNK_SIZE (skipn (i * MAX_CHUNK_SIZE) value) in
  nth_error (relay_value false rid value) i = Some (chunk_message rid window)
  /\ (S i < length (relay_value false rid value) -> length window = MAX_CHUNK_SIZE)
  /\ (value <> [] -> window <> []).
Proof.
  intros H window. pose proof MAX_CHUNK_SIZE_pos as P.
  assert (L : length window = Nat.min MAX_CHUNK_SIZE (length value - i * MAX_CHUNK_SIZE)).
  { unfold window. rewrite length_firstn, length_skipn. reflexivity. }
  unfold relay_value in *. rewrite slice_whole in *.
  destruct (MAX_CHUNK_SIZE <? length value) eqn:E.
  - apply Nat.ltb_lt in E.
    pose proof (proj1 (for_loop_index rid value i 0) H) as B.
    split; [|split].
    + rewrite (for_loop_nth rid value i 0 B). reflexivity.
    + intros H'. apply for_loop_index in H'. lia.
    + intros _ Z. rewrite Z in L. cbn in L. lia.
  - apply Nat.ltb_ge in E. cbn [length] in *.
    assert (i = 0) by lia. subst i.
    split; [|split].
    + unfold window. cbn [Nat.mul skipn nth_error].
      rewrite firstn_all2 by exact E. reflexivity.
    + lia.
    + intros NZ Z. rewrite Z in L. cbn in L.
      destruct value; [congruence | cbn in L; lia].
Qed.
(** Two bytes go out in one message. *)
Lemma relay_value_windows_witness :
  nth_error (relay_value false "r" [x01; x02]) 0
  = Some (chunk_message "r" (firstn MAX_CHUNK_SIZE (skipn (0 * MAX_CHUNK_SIZE) [x01; x02]))).
Proof.
  assert (H : 0 < length (relay_value false "r" [x01; x02])).
  { rewrite relay_value_count. lia. }
  exact (proj1 (relay_value_windows "r" [x01; x02] 0 H)).
Defined.
(** *** The shape of the stream *)

Lemma shape_running rid s :
  finished s = false -> stream_shape rid s -> Forall (chunk_of rid) (posted s).
Proof.
  intros F (_ & cs & tl & E & C & _ & N). rewrite E, (N F), app_nil_r. exact C.
Qed.

Lemma shape_of_chunks rid s :
  typed s -> Forall (chunk_of rid) (posted s) -> stream_shape rid s.
Proof.
  intros Ty H. split; [exact Ty|]. exists (posted s), []. rewrite app_nil_r. auto.
Qed.

Lemma shape_closed rid s cs t :
  finished s = true -> posted s = cs ++ [t] ->
  Forall (chunk_of rid) cs -> closing_of rid t -> stream_shape rid s.
Proof.
  intros F E C T. split.
  { unfold typed. unfold finished in F. destruct (at_ s); try exact I; discriminate. }
  exists cs, [t]. repeat split; auto.
  - right. split; [exact F|]. eauto.
  - congruence.
Qed.

Lemma truthy_or_default (msg d : string) :
  truthy_string d -> truthy_string (if String.eqb msg "" then d else msg).
Proof. intros D. unfold truthy_string. destruct (String.eqb msg "") eqn:E; assumption. Qed.

Lemma closing_error rid e : truthy_string e -> closing_of rid (error_message rid e).
Proof. right. eauto. Qed.

Lemma closing_complete rid ct : truthy_string ct -> closing_of rid (complete_message rid ct).
Proof. left. eauto. Qed.
Lemma http_error_truthy response : truthy_string (http_error response).
Proof. reflexivity. Qed.

Ltac truthy_done :=
  first [ assumption
        | apply response_contentType_truthy
        | apply http_error_truthy
        | apply truthy_or_default; reflexivity
        | reflexivity ].

Ltac shape_done :=
  match goal with
  | |- stream_shape _ {| posted := ?a ++ [?t] |} =>
      apply (shape_closed _ _ a t); cbn;
      [reflexivity | reflexivity | try assumption
      | first [apply closing_error | apply closing_complete]; truthy_done]
  | |- stream_shape _ _ =>
      apply shape_of_chunks; [unfold typed; cbn; try exact I; truthy_done
                             | cbn; try assumption]
  end.

Lemma step_shape url rid s e :
  invariant s -> stream_shape rid s -> stream_shape rid (step url rid s e).
Proof.
  intros I H.
  destruct (finished s) eqn:F.
  { (* a finished handler posts nothing *)
    destruct H as (Ty & cs & tl & E & C & T & N).
    destruct s as [[| |ct|] d a l p f r po re]; try discriminate.
    split; [destruct e; crush_state; exact Logic.I|].
    exists cs, tl.
    destruct e; crush_state; repeat split; auto. }
  pose proof (shape_running rid s F H) as C. destruct H as [Ty _].
  destruct e as [|response|rdone value|msg].
  - destruct s as [[| |ct|] d a l p f r po re]; crush_state; try discriminate;
      shape_done.
  - destruct s as [[| |ct|] d a l p f r po re]; crush_state; try discriminate;
      shape_done.
  - destruct rdone; [|destruct value as [v|]].
    + destruct s as [[| |ct|] d a l p f r po re]; crush_state; try discriminate;
        shape_done.
    + destruct (relay_posts rid s v I F) as (s' & threw & E & K).
      unfold step. destruct (at_ s) eqn:A;
        try (apply shape_of_chunks; [unfold typed; rewrite A; exact Logic.I | exact C]).
      rewrite E.
      pose proof (relay_value_chunks false rid v) as RC.
      destruct K as [(P & -> & ->) | [(P & -> & ->) | (P & -> & ->)]];
        destruct s as [pc d a l p f r po re]; cbn in A, P, C, Ty; subst;
        crush_state; try discriminate; shape_done.
      all: try (apply Forall_app; split; assumption).
    + destruct s as [[| |ct|] d a l p f r po re]; crush_state; try discriminate;
        shape_done.
  - destruct s as [[| |ct|] d a l p f r po re]; crush_state; try discriminate;
      shape_done.
Qed.

Lemma started_shape url rid : stream_shape rid (started url).
Proof. apply shape_of_chunks; [exact I | constructor]. Qed.

Lemma run_shape url rid es : forall s,
  invariant s -> stream_shape rid s -> stream_shape rid (run url rid s es).
Proof.
  induction es as [|e es IH]; intros s I H; [exact H|].
  apply IH; [apply step_invariant, I | apply step_shape; assumption].
Qed.
(** X1.  Whatever happens to the handler (responses, reads, rejections,
    the port being disconnected, in any order), the messages it has
    delivered are chunk messages of the request, followed by at most one
    closing message: a complete message or an error message of the
    request, whose content type or error text is not empty.  A closing
    message is only there once the handler has returned, so nothing
    follows it. *)
Theorem stream_well_formed url rid es :
  let s := run url rid (started url) es in
  exists cs tl,
    posted s = cs ++ tl
    /\ Forall (fun m => exists b, m = chunk_message rid b) cs
    /\ (tl = []
        \/ (at_ s = Finished
            /\ ((exists ct, ct <> ""%string /\ tl = [complete_message rid ct])
                \/ (exists e, e <> ""%string /\ tl = [error_message rid e])))).
Proof.
  intros s.
  destruct (run_shape url rid es (started url) (started_invariant url)
              (started_shape url rid)) as (_ & cs & tl & E & C & T & _).
  fold s in E, T. exists cs, tl. split; [exact E|]. split; [exact C|].
  destruct T as [->|(F & t & -> & [(ct & N & ->)|(e & N & ->)])];
    [left; reflexivity|right|right].
  - split; [unfold finished in F; destruct (at_ s); congruence | left].
    exists ct. split; [|reflexivity]. intros ->. discriminate.
  - split; [unfold finished in F; destruct (at_ s); congruence | right].
    exists e. split; [|reflexivity]. intros ->. discriminate.
Qed.
(** X2.  The disconnect listener is registered exactly as long as the
    handler has not returned, whichever way it ends, and the fetches are
    aborted exactly when the handler has seen the port disconnected. *)
Theorem listener_and_abort url rid es :
  let s := run url rid (started url) es in
  (listening s = true <-> at_ s <> Finished)
  /\ (aborted s = true <-> disconnected s = true).
Proof.
  intros s.
  pose proof (run_invariant url rid es (started url) (started_invariant url)) as I.
  fold s in I. destruct I as [I1 I2 I3 I4 I5 I6].
  unfold finished in *. repeat split.
  - intros L A. rewrite A in I1. cbn in I1. congruence.
  - intros A. rewrite I1. destruct (at_ s); try reflexivity. congruence.
  - congruence.
  - congruence.
Qed.
(** *** Failures *)




(** *** The client: the first terminal event decides *)

Lemma handle_pending rid fn s e :
  terminal rid e = false ->
  handle rid fn s e
  = {| chunks := chunks s ++ own_chunks rid [e];
       totalLength := totalLength s + length (concat (own_chunks rid [e]));
       contentType := Extractor.contentType s; settled := settled s;
       timer := timer s; resolved := resolved s;
       disconnects := disconnects s |}.
Proof.
  assert (Same : s = {| chunks := chunks s ++ [];
       totalLength := totalLength s + 0;
       contentType := Extractor.contentType s; settled := settled s;
       timer := timer s; resolved := resolved s;
       disconnects := disconnects s |}).
  { destruct s; cbn. rewrite app_nil_r, Nat.add_0_r. reflexivity. }
  intros T. destruct e as [m| |]; try discriminate.
  cbn [handle]. cbn in T. unfold onMessage, own_chunks. cbn [flat_map].
  unfold is_chunk, is_complete, is_error in *.
  destruct (Msg.requestId m =? rid)%string; cbn [negb andb] in *; [|exact Same].
  apply orb_false_iff in T as [T1 T2]. rewrite T1, T2.
  destruct (type_ m =? "chunk")%string; [|exact Same].
  destruct (chunk m) as [b|]; [|exact Same].
  destruct (length b =? 0); [exact Same|].
  unfold push_chunk. cbn. rewrite !app_nil_r. reflexivity.
Qed.

Lemma own_chunks_app rid es1 es2 :
  own_chunks rid (es1 ++ es2) = own_chunks rid es1 ++ own_chunks rid es2.
Proof. apply flat_map_app. Qed.

Lemma receive_pending rid fn pre : forall s,
  existsb (terminal rid) pre = false ->
  receive rid fn s pre
  = {| chunks := chunks s ++ own_chunks rid pre;
       totalLength := totalLength s + length (concat (own_chunks rid pre));
       contentType := Extractor.contentType s; settled := settled s;
       timer := timer s; resolved := resolved s;
       disconnects := disconnects s |}.
Proof.
  induction pre as [|e pre IH]; intros s T.
  - destruct s; cbn. rewrite app_nil_r, Nat.add_0_r. reflexivity.
  - cbn in T. apply orb_false_iff in T as [Te T].
    change (receive rid fn s (e :: pre)) with (receive rid fn (handle rid fn s e) pre).
    rewrite IH by exact T. rewrite (handle_pending rid fn s e Te).
    change (e :: pre) with ([e] ++ pre). rewrite (own_chunks_app rid [e] pre).
    cbn [chunks totalLength Extractor.contentType settled timer resolved disconnects].
    rewrite concat_app, length_app, <- app_assoc, Nat.add_assoc. reflexivity.
Qed.
(** The first terminal event [t] of a session that has received [pre]. *)
Lemma handle_first_terminal rid fn s t :
  consistent s -> settled s = false -> terminal rid t = true ->
  resolved (handle rid fn s t)
  = resolved s ++
    [match t with
     | Message m =>
         if is_complete m then
           match concat (chunks s) with
           | [] => None
           | _ :: _ =>
               Some {| filename := fn;
                       blob := {| blob_bytes := concat (chunks s);
                                  blob_type :=
                                    match Msg.contentType m with
                                    | Some ct => if String.eqb ct "" then Extractor.contentType s else ct
                                    | None => Extractor.contentType s
                                    end |} |}
           end
         else None
     | _ => None
     end].
Proof.
  intros [T A R D] S E. specialize (A S).
  destruct t as [m| |]; cbn [handle].
  - cbn in E. apply andb_true_iff in E as [E1 E2].
    unfold onMessage. rewrite E1. cbn [negb].
    unfold is_complete, is_error in *.
    assert (NC : (type_ m =? "chunk")%string = false).
    { destruct (String.eqb_spec (type_ m) "chunk") as [Q|]; [|reflexivity].
      rewrite Q in E2. discriminate. }
    rewrite NC.
    destruct (type_ m =? "complete")%string.
    + cbn [totalLength set_contentType clearTimeout chunks Extractor.contentType].
      rewrite T, set_all_concat. unfold size. cbn [blob_bytes].
      destruct (concat (chunks s)) as [|x rest].
      * cbn. unfold finalize. cbn. rewrite S. reflexivity.
      * cbn [length Nat.eqb Nat.ltb Nat.leb].
        unfold finalize. cbn. rewrite S. reflexivity.
    + cbn in E2. rewrite E2. unfold finalize; cbn; rewrite S; reflexivity.
  - unfold onDisconnect, finalize; cbn; rewrite S; reflexivity.
  - unfold onTimeout. rewrite A. unfold finalize; cbn; rewrite S; reflexivity.
Qed.

Lemma receive_first_terminal rid fn pre t post :
  existsb (terminal rid) pre = false -> terminal rid t = true ->
  resolved (receive rid fn opened (pre ++ t :: post))
  = [match t with
     | Message m =>
         if is_complete m then
           match concat (own_chunks rid pre) with
           | [] => None
           | _ :: _ =>
               Some {| filename := fn;
                       blob := {| blob_bytes := concat (own_chunks rid pre);
                                  blob_type :=
                                    match Msg.contentType m with
                                    | Some ct => if String.eqb ct "" then "application/octet-stream" else ct
                                    | None => "application/octet-stream"
                                    end |} |}
           end
         else None
     | _ => None
     end].
Proof.
  intros P T.
  assert (C : consistent (receive rid fn opened pre))
    by apply receive_consistent, opened_consistent.
  assert (S : settled (receive rid fn opened pre) = false)
    by (rewrite (receive_pending rid fn pre opened P); reflexivity).
  rewrite receive_app.
  change (receive rid fn ?s (t :: post)) with (receive rid fn (handle rid fn s t) post).
  destruct (receive_settled rid fn post (handle rid fn (receive rid fn opened pre) t))
    as (_ & R & _).
  { apply handle_consistent, C. }
  { apply handle_terminal; assumption. }
  rewrite R, (handle_first_terminal rid fn _ t C S T).
  rewrite (receive_pending rid fn pre opened P). reflexivity.
Qed.
Lemma downloadFileViaBackground_first_terminal rid fn pre t post :
  existsb (terminal rid) pre = false -> terminal rid t = true ->
  downloadFileViaBackground rid fn (pre ++ t :: post)
  = match t with
    | Message m =>
        if is_complete m then
          match concat (own_chunks rid pre) with
          | [] => None
          | _ :: _ =>
              Some {| filename := fn;
                      blob := {| blob_bytes := concat (own_chunks rid pre);
                                 blob_type :=
                                   match Msg.contentType m with
                                   | Some ct => if String.eqb ct "" then "application/octet-stream" else ct
                                   | None => "application/octet-stream"
                                   end |} |}
          end
        else None
    | _ => None
    end.
Proof.
  intros P T. unfold downloadFileViaBackground.
  rewrite <- app_assoc. cbn [app].
  rewrite (receive_first_terminal rid fn pre t (post ++ [TimedOut]) P T).
  reflexivity.
Qed.
(** X5.  The promise of [downloadFileViaBackground] is decided by the
    first terminal event the port delivers, whatever comes later.  Only a
    complete message of the session gives a download, and only if chunks
    of the session with at least one byte came before it: then the bytes
    are those chunks in the order of arrival (chunks of other sessions
    and empty ones left out) and the type is the one announced, or
    application/octet-stream.  An error message, the port being
    disconnected and the timer give null, whatever has been received. *)
Theorem first_terminal_decides rid fn pre t post :
  existsb (terminal rid) pre = false -> terminal rid t = true ->
  downloadFileViaBackground rid fn (pre ++ t :: post)
  = match t with
    | Message m =>
        if is_complete m then
          match concat (own_chunks rid pre) with
          | [] => None
          | _ :: _ =>
              Some {| filename := fn;
                      blob := {| blob_bytes := concat (own_chunks rid pre);
                                 blob_type :=
                                   match Msg.contentType m with
                                   | Some ct => if String.eqb ct "" then "application/octet-stream" else ct
                                   | None => "application/octet-stream"
                                   end |} |}
          end
        else None
    | _ => None
    end.
Proof.
  intros P T. unfold downloadFileViaBackground.
  rewrite <- app_assoc. cbn [app].
  assert (C : consistent (receive rid fn opened pre))
    by apply receive_consistent, opened_consistent.
  assert (S : settled (receive rid fn opened pre) = false)
    by (rewrite (receive_pending rid fn pre opened P); reflexivity).
  rewrite receive_app.
  change (receive rid fn ?s (t :: ?l)) with (receive rid fn (handle rid fn s t) l).
  destruct (receive_settled rid fn (post ++ [TimedOut])
              (handle rid fn (receive rid fn opened pre) t)) as (_ & R & _).
  { apply handle_consistent, C. }
  { apply handle_terminal; assumption. }
  rewrite R, (handle_first_terminal rid fn _ t C S T).
  rewrite (receive_pending rid fn pre opened P). reflexivity.
Qed.
(** Two chunks of the session, one of another session, then the complete
    message without a content type. *)
Lemma first_terminal_decides_witness :
  downloadFileViaBackground "r" "f"
    ([Message (chunk_message "r" [x01]); Message (chunk_message "other" [x02]);
      Message (chunk_message "r" [x03])]
     ++ Message (complete_message "r" "") :: [Message (chunk_message "r" [x04]); Disconnected])
  = Some {| filename := "f";
            blob := {| blob_bytes := [x01; x03];
                       blob_type := "application/octet-stream" |} |}.
Proof.
  exact (first_terminal_decides "r" "f"
           [Message (chunk_message "r" [x01]); Message (chunk_message "other" [x02]);
            Message (chunk_message "r" [x03])]
           (Message (complete_message "r" ""))
           [Message (chunk_message "r" [x04]); Disconnected] eq_refl eq_refl).
Defined.
(** X6.  If the port delivers no terminal event (only chunks and
    messages of other sessions), the timer ends the session and the
    promise is resolved with null: the chunks received are dropped. *)
Theorem silent_port_times_out rid fn es :
  existsb (terminal rid) es = false ->
  downloadFileViaBackground rid fn es = None.
Proof.
  intros P. unfold downloadFileViaBackground.
  rewrite (receive_first_terminal rid fn es TimedOut [] P eq_refl). reflexivity.
Qed.
(** A chunk of the session and the complete message of another one. *)
Lemma silent_port_times_out_witness :
  downloadFileViaBackground "r" "f"
    [Message (chunk_message "r" [x01]); Message (complete_message "other" "text/plain")]
  = None.
Proof.
  exact (silent_port_times_out "r" "f"
           [Message (chunk_message "r" [x01]);
            Message (complete_message "other" "text/plain")] eq_refl).
Defined.
(** *** Handler and client together *)

Lemma chunks_pending rid cs :
  Forall (chunk_of rid) cs ->
  existsb (terminal rid) (map Message cs) = false
  /\ own_chunks rid (map Message cs) = filter nonempty (map payload cs)
  /\ Forall (fun m => is_complete m = false) cs.
Proof.
  induction 1 as [|m cs [b ->] _ (IH1 & IH2 & IH3)]; [repeat split; constructor|].
  repeat split.
  - cbn [map existsb]. rewrite IH1. cbn. rewrite andb_false_r. reflexivity.
  - change (map Message (chunk_message rid b :: cs))
      with ([Message (chunk_message rid b)] ++ map Message cs).
    rewrite own_chunks_app, IH2. cbn. rewrite String.eqb_refl. cbn.
    unfold nonempty. destruct b; reflexivity.
  - constructor; [reflexivity | exact IH3].
Qed.
(** X7.  Take any run of the handler, interrupted or not, and let the
    client receive what the handler has delivered.  If the handler has
    posted its complete message and the chunks carry at least one byte,
    the client resolves with exactly the bytes of the chunks and the
    content type of the complete message.  In every other case (failure,
    disconnection, a handler still waiting, an empty body) it resolves
    with null, never with a part of the body. *)
Theorem stream_delivery url rid fn es :
  let sent := posted (run url rid (started url) es) in
  let body := concat (map payload sent) in
  let result := downloadFileViaBackground rid fn (map Message sent) in
  (forall ct, In (complete_message rid ct) sent -> body <> [] ->
     result = Some {| filename := fn;
                      blob := {| blob_bytes := body; blob_type := ct |} |})
  /\ ((forall ct, ~ In (complete_message rid ct) sent) -> result = None)
  /\ (body = [] -> result = None).
Proof.
  intros sent body result.
  destruct (run_shape url rid es (started url) (started_invariant url)
              (started_shape url rid)) as (_ & cs & tl & E & C & T & _).
  fold sent in E.
  destruct (chunks_pending rid cs C) as (P & O & NC).
  assert (NI : forall ct, ~ In (complete_message rid ct) cs).
  { intros ct H. rewrite Forall_forall in NC. specialize (NC _ H). discriminate. }
  destruct T as [->|(_ & t & -> & [(ct & N & ->)|(e & N & ->)])].
  - (* nothing closes the stream: the timer decides *)
    assert (R : result = None).
    { unfold result, downloadFileViaBackground. rewrite E, app_nil_r.
      rewrite (receive_first_terminal rid fn (map Message cs) TimedOut [] P eq_refl).
      reflexivity. }
    rewrite app_nil_r in E. repeat split; auto.
    intros ct H. rewrite E in H. destruct (NI ct H).
  - assert (B : body = concat (own_chunks rid (map Message cs))).
    { unfold body. rewrite E, map_app, concat_app, O, concat_filter_nonempty.
      cbn. rewrite app_nil_r. reflexivity. }
    assert (R : result = match body with
                         | [] => None
                         | _ :: _ => Some {| filename := fn;
                                blob := {| blob_bytes := body; blob_type := ct |} |}
                         end).
    { unfold result. rewrite E, map_app. cbn [map app].
      rewrite (downloadFileViaBackground_first_terminal rid fn (map Message cs)
                 (Message (complete_message rid ct)) [] P).
      - cbn [is_complete complete_message type_ Msg.contentType String.eqb Ascii.eqb Bool.eqb andb].
        rewrite N, <- B. reflexivity.
      - cbn. rewrite String.eqb_refl. reflexivity. }
    repeat split.
    + intros ct' H NE. rewrite E in H. apply in_app_or in H as [H|[H|[]]];
        [destruct (NI ct' H)|]. injection H as <-.
      rewrite R. destruct body; [congruence | reflexivity].
    + intros H. exfalso. apply (H ct). rewrite E. apply in_or_app. right. left. reflexivity.
    + intros Z. rewrite R, Z. reflexivity.
  - assert (R : result = None).
    { unfold result. rewrite E, map_app. cbn [map app].
      rewrite (downloadFileViaBackground_first_terminal rid fn (map Message cs)
                 (Message (error_message rid e)) [] P); [reflexivity|].
      cbn. rewrite String.eqb_refl. reflexivity. }
    repeat split; auto.
    intros ct H. rewrite E in H. apply in_app_or in H as [H|[H|[]]];
      [destruct (NI ct H) | discriminate].
Qed.

(** One read of one byte, then the end of the body. *)
Lemma stream_delivery_witness :
  let es := download_events ok_response [Some [x01]] in
  let sent := posted (run "u" "r" (started "u") es) in
  In (complete_message "r" (response_contentType ok_response)) sent
  /\ downloadFileViaBackground "r" "f" (map Message sent)
     = Some {| filename := "f";
               blob := {| blob_bytes := concat (map payload sent);
                          blob_type := response_contentType ok_response |} |}.
Proof.
  intros es sent.
  assert (H : In (complete_message "r" (response_contentType ok_response)) sent).
  { right. left. reflexivity. }
  split; [exact H|].
  apply (proj1 (stream_delivery "u" "r" "f" es) _ H). discriminate.
Defined.

End StreamFacts.

(** ** More on the names of the files *)

Module NamingMore.
Import Extractor NamingFacts.

(** *** The loop hands back the first free candidate *)

Lemma unique_loop_first fuel key paths filename_ : forall finalFilename counter f,
  unique_loop fuel key paths filename_ finalFilename counter = Some f ->
  (taken key paths finalFilename = false /\ f = finalFilename)
  \/ (taken key paths finalFilename = true
      /\ exists k, counter <= k /\ f = suffixed filename_ k
           /\ forall j, counter <= j < k ->
                taken key paths (suffixed filename_ j) = true).
Proof.
  induction fuel as [|fuel IH]; intros cur c f H; cbn [unique_loop] in H;
    destruct (taken key paths cur) eqn:T; try discriminate.
  - left. split; [reflexivity | congruence].
  - right. split; [reflexivity|].
    destruct (IH _ _ _ H) as [(T' & ->) | (T' & k & K & -> & All)].
    + exists c. split; [lia|]. split; [reflexivity|]. intros j J. lia.
    + exists k. split; [lia|]. split; [reflexivity|].
      intros j J. destruct (Nat.eq_dec j c) as [->|N]; [exact T' | apply All; lia].
  - left. split; [reflexivity | congruence].
Qed.

(** X9.  The naming loop always ends with a name that is free.  A name
    that is free is kept as it is.  Otherwise the result is the name with
    the smallest counter, counted from 1, whose candidate is free: every
    smaller counter gives a path that is already in the list, and the
    counter never exceeds the number of entries by more than one. *)
Theorem unique_filename_first_free key paths filename_ :
  exists f,
    unique_filename key paths filename_ = Some f
    /\ taken key paths f = false
    /\ (taken key paths filename_ = false -> f = filename_)
    /\ (taken key paths filename_ = true ->
        exists k, 1 <= k <= S (length paths) /\ f = suffixed filename_ k
          /\ forall j, 1 <= j < k -> taken key paths (suffixed filename_ j) = true).
Proof.
  destruct (unique_filename_total key paths filename_) as (f & E & Free).
  exists f. split; [exact E|]. split; [exact Free|].
  unfold unique_filename in E.
  destruct (unique_loop_first _ _ _ _ _ _ _ E) as [(T & ->) | (T & k & K & -> & All)].
  - split; [reflexivity | congruence].
  - split; [congruence|]. intros _. exists k. split; [|split; [reflexivity | exact All]].
    split; [exact K|].
    (* the candidates below k are taken and pairwise distinct *)
    destruct (le_lt_dec k (S (length paths))) as [L|L]; [exact L|exfalso].
    set (cands := map (fun j => attachment_path key (suffixed filename_ j))
                      (seq 1 (S (length paths)))).
    assert (ND : NoDup cands).
    { apply Injective_map_NoDup; [|apply seq_NoDup].
      intros a b Hab. apply attachment_path_inj, suffixed_inj in Hab. exact Hab. }
    assert (Inc : incl cands (map path paths)).
    { intros p Hp. apply in_map_iff in Hp as (j & <- & Hj). apply in_seq in Hj.
      apply taken_spec, All. lia. }
    pose proof (NoDup_incl_length ND Inc) as Len.
    unfold cands in Len. rewrite !length_map, length_seq in Len. lia.
Qed.

(** The names a.txt and a_1.txt are taken. *)
Lemma unique_filename_first_free_witness :
  let paths := [{| id := 1; name := "a.txt"; path := "K/raw/attachments/a.txt" |};
                {| id := 2; name := "a.txt"; path := "K/raw/attachments/a_1.txt" |}] in
  taken "K" paths "a.txt" = true
  /\ exists f k, unique_filename "K" paths "a.txt" = Some f
                 /\ f = suffixed "a.txt" k /\ 1 <= k <= 3.
Proof.
  intros paths. split; [reflexivity|].
  destruct (unique_filename_first_free "K" paths "a.txt") as (f & E & _ & _ & H).
  destruct (H eq_refl) as (k & K & F & _).
  exists f, k. auto.
Defined.

(** *** Where the counter goes *)

Lemma split_nonempty sep s : split sep s <> [].
Proof.
  destruct s as [|c s]; cbn; [discriminate|].
  destruct (Ascii.eqb c sep); [discriminate|].
  destruct (split sep s); discriminate.
Qed.

Lemma split_without sep s :
  ~ In sep (list_ascii_of_string s) -> split sep s = [s].
Proof.
  induction s as [|c s IH]; intros H; [reflexivity|].
  cbn in *. destruct (Ascii.eqb_spec c sep) as [->|N]; [destruct H; auto|].
  rewrite IH by tauto. reflexivity.
Qed.

Lemma split_append sep a b :
  split sep (String.append a (String sep b)) = split sep a ++ split sep b.
Proof.
  induction a as [|c a IH]; cbn.
  - rewrite Ascii.eqb_refl. reflexivity.
  - destruct (Ascii.eqb c sep); [rewrite IH; reflexivity|].
    rewrite IH. pose proof (split_nonempty sep a).
    destruct (split sep a); [congruence | reflexivity].
Qed.

Lemma join_split sep s : join (String sep EmptyString) (split sep s) = s.
Proof.
  induction s as [|c s IH]; [reflexivity|].
  cbn [split]. unfold join in *. pose proof (split_nonempty sep s) as NE.
  destruct (Ascii.eqb_spec c sep) as [->|N].
  - cbn [String.concat]. destruct (split sep s) as [|p ps]; [congruence|].
    rewrite IH. reflexivity.
  - destruct (split sep s) as [|p ps]; [congruence|].
    destruct ps as [|q qs]; cbn [String.concat] in *.
    + rewrite IH. reflexivity.
    + rewrite <- IH. reflexivity.
Qed.

(** X10.  The counter goes in front of the last extension: a name
    base.ext, where ext has no dot, becomes base_counter.ext, whatever
    base is (it may be empty or have dots of its own), and a name without
    a dot becomes name_counter. *)
Theorem suffixed_before_extension counter :
  (forall base ext,
     ~ In "."%char (list_ascii_of_string ext) ->
     suffixed (base ++ "." ++ ext) counter
     = (base ++ "_" ++ string_of_nat counter ++ "." ++ ext)%string)
  /\ (forall filename_,
        ~ In "."%char (list_ascii_of_string filename_) ->
        suffixed filename_ counter
        = (filename_ ++ "_" ++ string_of_nat counter)%string).
Proof.
  split.
  - intros base ext H. unfold suffixed.
    change (base ++ "." ++ ext)%string with (String.append base (String "." ext)).
    rewrite split_append, (split_without _ _ H).
    pose proof (split_nonempty "." base) as NE.
    rewrite length_app. cbn [length].
    replace (1 <? length (split "." base) + 1) with true
      by (symmetry; apply Nat.ltb_lt; destruct (split "." base); [congruence | cbn; lia]).
    rewrite removelast_last, last_last, join_split. reflexivity.
  - intros filename_ H. unfold suffixed. rewrite (split_without _ _ H). reflexivity.
Qed.

(** Two extensions, a name that begins with the dot, no dot at all. *)
Lemma suffixed_before_extension_witness :
  suffixed "archive.tar.gz" 2 = "archive.tar_2.gz"%string
  /\ suffixed ".gitignore" 1 = "_1.gitignore"%string
  /\ suffixed "README" 3 = "README_3"%string.
Proof.
  split; [|split].
  - apply (proj1 (suffixed_before_extension 2) "archive.tar"%string "gz"%string).
    cbn. intuition discriminate.
  - apply (proj1 (suffixed_before_extension 1) ""%string "gitignore"%string).
    cbn. intuition discriminate.
  - apply (proj2 (suffixed_before_extension 3) "README"%string).
    cbn. intuition discriminate.
Defined.

(** *** The names of [extractTicket] *)

Lemma valid_dom_filename f :
  has_invalid_character (url_extension (file_url f)) = false ->
  has_invalid_character (dom_filename f) = false.
Proof.
  intros H. unfold dom_filename.
  destruct (_ && _); [|apply valid_clean].
  destruct (has_extension _); [apply valid_clean|].
  apply valid_append; [apply valid_clean|].
  apply valid_append; [reflexivity | exact H].
Qed.

Lemma add_files_entries first_name key fs : forall paths paths',
  add_files first_name key paths fs = Some paths' ->
  map id paths' = map id paths ++ map file_id fs
  /\ map name paths' = map name paths ++ map file_name fs.
Proof.
  induction fs as [|f fs IH]; intros paths paths' H; cbn in H.
  - injection H as <-. rewrite !app_nil_r. auto.
  - unfold add_file in H.
    destruct (unique_filename key paths (first_name f)) as [n|]; [|discriminate].
    destruct (IH _ _ H) as (I & N). rewrite I, N, !map_app. cbn.
    rewrite <- !app_assoc. auto.
Qed.

(** X11.  The names of [extractTicket]: for any list of downloaded files
    the loop ends, the paths are pairwise distinct, and the entries keep
    the ids and the original names of the files, in their order.  If the
    text after the last dot of every URL (up to a question mark or a
    hash) has none of the reserved characters, no final name has one. *)
Theorem dom_names_unique key fs :
  exists paths,
    add_files dom_filename key [] fs = Some paths
    /\ NoDup (map path paths)
    /\ map id paths = map file_id fs
    /\ map name paths = map file_name fs
    /\ (Forall (fun f => has_invalid_character (url_extension (file_url f)) = false) fs ->
        Forall (fun a => has_invalid_character (final_name key a) = false) paths).
Proof.
  destruct (names_unique dom_filename key fs [] (NoDup_nil _)) as (paths & E & ND & _).
  exists paths. split; [exact E|]. split; [exact ND|].
  destruct (add_files_entries _ _ _ _ _ E) as (I & N).
  split; [exact I|]. split; [exact N|].
  intros V. apply (add_files_valid dom_filename key fs [] paths); [|constructor|exact E].
  eapply Forall_impl; [|exact V]. intros f. apply valid_dom_filename.
Qed.

(** A picture whose URL ends in its extension. *)
Lemma dom_names_unique_witness :
  let fs := [{| file_id := 7; file_name := "shot"; file_url := "https://x.test/a/shot.png" |}] in
  Forall (fun f => has_invalid_character (url_extension (file_url f)) = false) fs
  /\ exists paths,
       add_files dom_filename "K" [] fs = Some paths
       /\ Forall (fun a => has_invalid_character (final_name "K" a) = false) paths.
Proof.
  intros fs.
  assert (V : Forall (fun f => has_invalid_character (url_extension (file_url f)) = false) fs)
    by (constructor; [reflexivity | constructor]).
  split; [exact V|].
  destruct (dom_names_unique "K" fs) as (paths & E & _ & _ & _ & H).
  exists paths. split; [exact E | exact (H V)].
Defined.

End NamingMore.

(** ** More on the cascade *)

Module CascadeMore.
Import Extractor Stream CascadeRules SessionFacts StreamFacts CascadeFacts.

Lemma first_terminal_split rid es :
  existsb (terminal rid) es = true ->
  exists pre t post, es = pre ++ t :: post
    /\ existsb (terminal rid) pre = false /\ terminal rid t = true.
Proof.
  induction es as [|e es IH]; [discriminate|].
  cbn. destruct (terminal rid e) eqn:Te.
  - intros _. exists [], e, es. auto.
  - cbn. intros H. destruct (IH H) as (pre & t & post & -> & P & T).
    exists (e :: pre), t, post. cbn. rewrite Te. auto.
Qed.

Section Rules.

Variables (url fn : string) (blobUrl : option string) (useApiAuth : bool)
          (apiAuthHeader : option string) (w : world).

Lemma downloadFileViaXHR_filename a b d :
  downloadFileViaXHR fn a b = Some d -> filename d = fn.
Proof.
  unfold downloadFileViaXHR.
  destruct a as [st [bl|]| |]; try discriminate.
  - destruct (st =? 200); [|discriminate]. destruct (0 <? size bl); [|discriminate].
    intros [= <-]. reflexivity.
  - destruct (st =? 200); discriminate.
  - destruct b as [st [bl|]| |]; try discriminate.
    + destruct (st =? 200); [|discriminate]. destruct (0 <? size bl); [|discriminate].
      intros [= <-]. reflexivity.
    + destruct (st =? 200); discriminate.
Qed.

Lemma downloadFileViaBackgroundBlob_filename o d :
  downloadFileViaBackgroundBlob fn o = Some d -> filename d = fn.
Proof.
  unfold downloadFileViaBackgroundBlob.
  destruct o as [|[r|]]; try discriminate.
  destruct (_ && _); [|discriminate].
  destruct (decoded r); [|discriminate]. intros [= <-]. reflexivity.
Qed.

Lemma downloadFileViaBackground_filename rid es d :
  downloadFileViaBackground rid fn es = Some d -> filename d = fn.
Proof.
  assert (T : existsb (terminal rid) (es ++ [TimedOut]) = true).
  { rewrite existsb_app. cbn. apply orb_true_r. }
  destruct (first_terminal_split rid _ T) as (pre & t & post & E & P & Tt).
  unfold downloadFileViaBackground. rewrite E.
  rewrite (receive_first_terminal rid fn pre t post P Tt).
  destruct t as [m| |]; try discriminate.
  destruct (is_complete m); [|discriminate].
  destruct (concat (own_chunks rid pre)); [discriminate|].
  intros [= <-]. reflexivity.
Qed.

Lemma clean_snoc tr a :
  clean_start url blobUrl useApiAuth apiAuthHeader tr -> allowed url blobUrl useApiAuth apiAuthHeader a -> a <> Streaming -> clean_start url blobUrl useApiAuth apiAuthHeader (tr ++ [a]).
Proof.
  intros (A & N) Q NS. split.
  - apply Forall_app. split; [exact A | constructor; [exact Q | constructor]].
  - intros H. apply in_app_or in H as [H|[H|[]]]; [exact (N H) | exact (NS H)].
Qed.

Lemma good_some tr d : clean_start url blobUrl useApiAuth apiAuthHeader tr -> filename d = fn -> good url fn blobUrl useApiAuth apiAuthHeader w (tr, Some d).
Proof.
  intros (A & N) F. split; [exact A|]. split.
  - intros H. destruct (N H).
  - intros d' [= <-]. exact F.
Qed.

Lemma good_none tr : clean_start url blobUrl useApiAuth apiAuthHeader tr -> good url fn blobUrl useApiAuth apiAuthHeader w (tr, None).
Proof.
  intros (A & N). split; [exact A|]. split.
  - intros H. destruct (N H).
  - intros d' [=].
Qed.

Hypothesis remote : (startsWith url "blob:" || startsWith url "data:") = false.

Lemma allowed_remote a :
  match a with
  | FetchInclude | XhrFallback | Streaming => True
  | _ => False
  end -> allowed url blobUrl useApiAuth apiAuthHeader a.
Proof.
  unfold allowed, permitted. rewrite remote. destruct a; cbn; tauto.
Qed.

Lemma via_background_good tr : clean_start url blobUrl useApiAuth apiAuthHeader tr -> good url fn blobUrl useApiAuth apiAuthHeader w (via_background fn w tr).
Proof.
  intros (A & N). unfold via_background. split; [|split]; cbn [fst snd].
  - apply Forall_app. split; [exact A|]. constructor; [|constructor].
    apply allowed_remote. exact I.
  - intros _. reflexivity.
  - intros d. apply downloadFileViaBackground_filename.
Qed.

Lemma xhr_then_background_good tr :
  clean_start url blobUrl useApiAuth apiAuthHeader tr -> good url fn blobUrl useApiAuth apiAuthHeader w (xhr_then_background fn w tr).
Proof.
  intros C. unfold xhr_then_background.
  assert (C' : clean_start url blobUrl useApiAuth apiAuthHeader (tr ++ [XhrFallback])).
  { apply clean_snoc; [exact C | apply allowed_remote; exact I | discriminate]. }
  destruct (downloadFileViaXHR fn _ _) as [d|] eqn:E.
  - apply good_some; [exact C'|]. eapply downloadFileViaXHR_filename, E.
  - apply via_background_good, C'.
Qed.

Lemma read_blob_good tr response :
  clean_start url blobUrl useApiAuth apiAuthHeader tr -> good url fn blobUrl useApiAuth apiAuthHeader w (read_blob fn w tr response).
Proof.
  intros C. unfold read_blob. destruct (r_blob response) as [b|].
  - destruct (size b =? 0); [apply good_none, C | apply good_some; [exact C | reflexivity]].
  - apply via_background_good, C.
Qed.

Lemma check_response_good tr response :
  clean_start url blobUrl useApiAuth apiAuthHeader tr -> good url fn blobUrl useApiAuth apiAuthHeader w (check_response fn w tr response).
Proof.
  intros C. unfold check_response. destruct (negb (r_ok response)).
  - destruct ((r_status response =? 403) || is_opaque (r_type response));
      [apply xhr_then_background_good, C | apply via_background_good, C].
  - apply read_blob_good, C.
Qed.

Lemma fetch_phase_good tr :
  clean_start url blobUrl useApiAuth apiAuthHeader tr -> good url fn blobUrl useApiAuth apiAuthHeader w (fetch_phase url fn useApiAuth apiAuthHeader w tr).
Proof.
  intros C. unfold fetch_phase.
  set (auth := useApiAuth && truthy apiAuthHeader && includes url "/rest/api/").
  assert (C1 : clean_start url blobUrl useApiAuth apiAuthHeader (tr ++ [FetchSameOrigin auth])).
  { apply clean_snoc; [exact C | | discriminate].
    unfold allowed, permitted. rewrite remote. cbn. apply eqb_reflx. }
  assert (C2 : clean_start url blobUrl useApiAuth apiAuthHeader ((tr ++ [FetchSameOrigin auth]) ++ [FetchInclude])).
  { apply clean_snoc; [exact C1 | apply allowed_remote; exact I | discriminate]. }
  assert (Again : forall t r, clean_start url blobUrl useApiAuth apiAuthHeader t ->
            good url fn blobUrl useApiAuth apiAuthHeader w (if is_opaque (r_type r) then via_background fn w t
                  else if negb (r_ok r) && (r_status r =? 403)
                          && useApiAuth && truthy apiAuthHeader
                  then match fetch_same_origin_again w with
                       | Throws => xhr_then_background fn w (t ++ [FetchSameOriginAgain])
                       | Responds r3 => check_response fn w (t ++ [FetchSameOriginAgain]) r3
                       end
                  else check_response fn w t r)).
  { intros t r Ct. destruct (is_opaque (r_type r)); [apply via_background_good, Ct|].
    destruct (negb (r_ok r) && (r_status r =? 403) && useApiAuth && truthy apiAuthHeader)
      eqn:G; [|apply check_response_good, Ct].
    assert (C3 : clean_start url blobUrl useApiAuth apiAuthHeader (t ++ [FetchSameOriginAgain])).
    { apply clean_snoc; [exact Ct | | discriminate].
      unfold allowed, permitted. rewrite remote. cbn.
      destruct useApiAuth, (truthy apiAuthHeader); try reflexivity;
        rewrite ?andb_false_r in G; discriminate. }
    destruct (fetch_same_origin_again w);
      [apply xhr_then_background_good, C3 | apply check_response_good, C3]. }
  destruct (fetch_same_origin w) as [|r1]; [apply xhr_then_background_good, C1|].
  destruct (negb (r_ok r1)).
  - destruct (fetch_include w) as [|r2]; [apply via_background_good, C2|].
    apply Again, C2.
  - apply Again, C1.
Qed.

End Rules.

Section Whole.

Variables (url fn : string) (blobUrl : option string) (useApiAuth : bool)
          (apiAuthHeader : option string) (w : world).

Lemma local_handle_cases :
  local_handle fn blobUrl w = ([], None)
  \/ (allowed url blobUrl useApiAuth apiAuthHeader LocalHandle
       /\ (local_handle fn blobUrl w = ([LocalHandle], None)
           \/ exists bl, local_handle fn blobUrl w
                         = ([LocalHandle], Some {| filename := fn; blob := bl |}))).
Proof.
  unfold local_handle, allowed, permitted.
  destruct blobUrl as [b|]; [|left; reflexivity].
  destruct (startsWith b "blob:") eqn:S; [|left; reflexivity].
  right. split; [reflexivity|].
  destruct (local_fetch w) as [|r]; [left; reflexivity|].
  destruct (r_ok r); [|left; reflexivity].
  destruct (r_blob r) as [bl|]; [|left; reflexivity].
  destruct (0 <? size bl); [right; eauto | left; reflexivity].
Qed.

Lemma downloadFile_good :
  good url fn blobUrl useApiAuth apiAuthHeader w
       (downloadFile url fn blobUrl useApiAuth apiAuthHeader w).
Proof.
  unfold downloadFile.
  assert (C0 : clean_start url blobUrl useApiAuth apiAuthHeader []).
  { split; [constructor | intros []]. }
  assert (C1 : allowed url blobUrl useApiAuth apiAuthHeader LocalHandle ->
               clean_start url blobUrl useApiAuth apiAuthHeader [LocalHandle]).
  { intros A. apply (clean_snoc url blobUrl useApiAuth apiAuthHeader [] LocalHandle);
      [exact C0 | exact A | discriminate]. }
  assert (Rest : forall tr, clean_start url blobUrl useApiAuth apiAuthHeader tr ->
    good url fn blobUrl useApiAuth apiAuthHeader w
      (if startsWith url "blob:" || startsWith url "data:" then (tr, None)
       else
        let after_auth (tr : list attempt) : outcome :=
          if includes url "/secure/attachment/" || includes url "/attachment/"
          then
            match downloadFileViaXHR fn (fst (xhr_first w)) (snd (xhr_first w)) with
            | Some xhrResult => (tr ++ [XhrFirst], Some xhrResult)
            | None => fetch_phase url fn useApiAuth apiAuthHeader w (tr ++ [XhrFirst])
            end
          else fetch_phase url fn useApiAuth apiAuthHeader w tr in
        if useApiAuth && truthy apiAuthHeader then
          match downloadFileViaBackgroundBlob fn (one_shot w) with
          | Some bgResult => (tr ++ [OneShotAuth], Some bgResult)
          | None => after_auth (tr ++ [OneShotAuth])
          end
        else after_auth tr)).
  { intros tr C.
    destruct (startsWith url "blob:" || startsWith url "data:") eqn:L;
      [apply good_none, C|].
    assert (After : forall t, clean_start url blobUrl useApiAuth apiAuthHeader t ->
      good url fn blobUrl useApiAuth apiAuthHeader w
        (if includes url "/secure/attachment/" || includes url "/attachment/"
         then
           match downloadFileViaXHR fn (fst (xhr_first w)) (snd (xhr_first w)) with
           | Some xhrResult => (t ++ [XhrFirst], Some xhrResult)
           | None => fetch_phase url fn useApiAuth apiAuthHeader w (t ++ [XhrFirst])
           end
         else fetch_phase url fn useApiAuth apiAuthHeader w t)).
    { intros t Ct.
      destruct (includes url "/secure/attachment/" || includes url "/attachment/") eqn:X;
        [|apply fetch_phase_good; assumption].
      assert (Cx : clean_start url blobUrl useApiAuth apiAuthHeader (t ++ [XhrFirst])).
      { apply clean_snoc; [exact Ct | | discriminate].
        unfold allowed, permitted. rewrite L, X. reflexivity. }
      destruct (downloadFileViaXHR fn _ _) as [d|] eqn:E.
      - apply good_some; [exact Cx | eapply downloadFileViaXHR_filename, E].
      - apply fetch_phase_good; assumption. }
    cbv zeta.
    destruct (useApiAuth && truthy apiAuthHeader) eqn:A; [|apply After, C].
    assert (Ca : clean_start url blobUrl useApiAuth apiAuthHeader (tr ++ [OneShotAuth])).
    { apply clean_snoc; [exact C | | discriminate].
      unfold allowed, permitted. rewrite L, A. reflexivity. }
    destruct (downloadFileViaBackgroundBlob fn (one_shot w)) as [d|] eqn:E.
    - apply good_some; [exact Ca | eapply downloadFileViaBackgroundBlob_filename, E].
    - apply After, Ca. }
  destruct local_handle_cases as [-> | (A & [-> | (bl & ->)])].
  - apply Rest, C0.
  - apply Rest, C1, A.
  - apply good_some; [apply C1, A | reflexivity].
Qed.

(** X12.  What [downloadFile] never does.  The one-shot fetch with the
    auth header and the second same-origin fetch are started only when
    API auth is asked for with a header that is not empty; the same-origin
    fetch carries the Authorization header only if, in addition, the URL
    contains /rest/api/; the XHR up front is used only for attachment
    URLs; the local handle is read only from a blob URL that was handed
    in; and for a URL that is itself a blob or data URL nothing but the
    local handle is ever started. *)
Theorem operations_permitted :
  let tr := fst (downloadFile url fn blobUrl useApiAuth apiAuthHeader w) in
  (In OneShotAuth tr -> useApiAuth = true /\ truthy apiAuthHeader = true)
  /\ (forall authorization, In (FetchSameOrigin authorization) tr ->
        authorization = useApiAuth && truthy apiAuthHeader && includes url "/rest/api/")
  /\ (In FetchSameOriginAgain tr -> useApiAuth = true /\ truthy apiAuthHeader = true)
  /\ (In XhrFirst tr ->
        includes url "/secure/attachment/" || includes url "/attachment/" = true)
  /\ (In LocalHandle tr -> exists b, blobUrl = Some b /\ startsWith b "blob:" = true)
  /\ (forall a, In a tr -> a <> LocalHandle ->
        startsWith url "blob:" = false /\ startsWith url "data:" = false).
Proof.
  intros tr. destruct downloadFile_good as (A & _). fold tr in A.
  rewrite Forall_forall in A. unfold allowed, permitted in A.
  repeat split.
  - specialize (A _ H). cbn in A. destruct useApiAuth; [reflexivity|].
    rewrite andb_false_r in A. discriminate.
  - specialize (A _ H). cbn in A. destruct (truthy apiAuthHeader); [reflexivity|].
    rewrite !andb_false_r in A. discriminate.
  - intros b H. specialize (A _ H). cbn in A.
    apply andb_true_iff in A as [_ A]. apply eqb_prop in A. exact A.
  - specialize (A _ H). cbn in A. destruct useApiAuth; [reflexivity|].
    rewrite andb_false_r in A. discriminate.
  - specialize (A _ H). cbn in A. destruct (truthy apiAuthHeader); [reflexivity|].
    rewrite !andb_false_r in A. discriminate.
  - intros H. specialize (A _ H). cbn in A. apply andb_true_iff in A as [_ A]. exact A.
  - intros H. specialize (A _ H). cbn in A.
    destruct blobUrl as [b|]; [eauto | discriminate].
  - specialize (A _ H).
    destruct (startsWith url "blob:"); [|reflexivity].
    destruct a; try congruence; cbn in A; discriminate.
  - specialize (A _ H).
    destruct (startsWith url "data:"); [|reflexivity].
    rewrite orb_true_r in A.
    destruct a; try congruence; cbn in A; discriminate.
Qed.

(** X13.  The streaming fetch is the last resort in the full sense: once
    it is started, its result is the result of [downloadFile], null
    included.  And every download [downloadFile] returns, from whichever
    operation, carries the file name that was passed in. *)
Theorem streaming_decides :
  let o := downloadFile url fn blobUrl useApiAuth apiAuthHeader w in
  (In Streaming (fst o) ->
   snd o = downloadFileViaBackground (stream_requestId w) fn (stream w))
  /\ (forall d, snd o = Some d -> filename d = fn).
Proof.
  intros o. destruct downloadFile_good as (_ & S & K). split; [exact S | exact K].
Qed.
End Whole.

(** An attachment URL on a page where the XHR is refused. *)
Lemma operations_permitted_witness :
  let url := "https://jira.test/secure/attachment/10001/a.pdf"%string in
  let tr := fst (downloadFile url "a.pdf" None false None xhr_refused) in
  In XhrFirst tr
  /\ includes url "/secure/attachment/" || includes url "/attachment/" = true.
Proof.
  intros url tr.
  assert (H : In XhrFirst tr) by (left; reflexivity).
  split; [exact H|].
  destruct (operations_permitted url "a.pdf" None false None xhr_refused)
    as (_ & _ & _ & X & _).
  exact (X H).
Defined.

(** Every request of the page fails; the streaming fetch delivers. *)
Lemma streaming_decides_witness :
  let w := {| local_fetch := Throws; one_shot := LastError;
              xhr_first := (XTimeout, XTimeout);
              fetch_same_origin := Throws;
              fetch_include := Throws; fetch_same_origin_again := Throws;
              xhr_fallback := (XTimeout, XTimeout);
              stream_requestId := "1-a";
              stream := [Message (chunk_message "1-a" [x25; x50]);
                         Message (complete_message "1-a" "application/pdf")] |} in
  let o := downloadFile "https://jira.test/file" "f.pdf" None false None w in
  In Streaming (fst o)
  /\ snd o = downloadFileViaBackground "1-a" "f.pdf" (stream w).
Proof.
  intros w o.
  assert (H : In Streaming (fst o)) by (right; right; left; reflexivity).
  split; [exact H|].
  exact (proj1 (streaming_decides "https://jira.test/file" "f.pdf" None false None w) H).
Defined.

End CascadeMore.

(** ** The ticket file *)

Module TktFacts.
Import Extractor Tkt NamingFacts NamingMore.

Lemma replace_LF_chars s : ~ In LF (chars (replace_LF s)).
Proof.
  induction s as [|c s IH]; [intros []|].
  cbn [replace_LF]. destruct (Ascii.eqb_spec c LF) as [->|N].
  - intros [H|[H|H]]; [discriminate | discriminate | exact (IH H)].
  - intros [H|H]; [congruence | exact (IH H)].
Qed.

Lemma replace_CR_chars s : ~ In CR (chars (replace_CR s)).
Proof.
  induction s as [|c s IH]; [intros []|].
  unfold replace_CR. cbn [map_string]. destruct (Ascii.eqb_spec c CR) as [->|N].
  - intros [H|H]; [discriminate | exact (IH H)].
  - intros [H|H]; [congruence | exact (IH H)].
Qed.

Lemma replace_LF_keeps s x :
  x <> backslash -> x <> "n"%char -> In x (chars (replace_LF s)) -> In x (chars s).
Proof.
  intros N1 N2. induction s as [|c s IH]; [intros []|].
  cbn [replace_LF]. destruct (Ascii.eqb c LF).
  - intros [H|[H|H]]; [congruence | congruence | right; exact (IH H)].
  - intros [H|H]; [left; exact H | right; exact (IH H)].
Qed.

Lemma replace_LF_fixed s : ~ In LF (chars s) -> replace_LF s = s.
Proof.
  induction s as [|c s IH]; [reflexivity|].
  intros H. cbn [replace_LF].
  destruct (Ascii.eqb_spec c LF) as [->|N]; [destruct H; left; reflexivity|].
  rewrite IH; [reflexivity|]. intros K. apply H. right. exact K.
Qed.

Lemma replace_CR_fixed s : ~ In CR (chars s) -> replace_CR s = s.
Proof.
  induction s as [|c s IH]; [reflexivity|].
  intros H. unfold replace_CR in *. cbn [map_string].
  destruct (Ascii.eqb_spec c CR) as [->|N]; [destruct H; left; reflexivity|].
  rewrite IH; [reflexivity|]. intros K. apply H. right. exact K.
Qed.

Lemma replace_CRLF_fixed s : ~ In CR (chars s) -> replace_CRLF s = s.
Proof.
  induction s as [|c s IH]; [reflexivity|].
  intros H. cbn [replace_CRLF].
  destruct s as [|d s]; [reflexivity|].
  destruct (Ascii.eqb_spec c CR) as [->|N]; [destruct H; left; reflexivity|].
  cbn [andb]. rewrite IH; [reflexivity|]. intros K. apply H. right. exact K.
Qed.

(** X14.  An escaped single-line field has no line break left: whatever
    the value, the result of [escapeNewlines] contains neither a line
    feed nor a carriage return, and escaping it again changes nothing.
    (So a value and its escaped form are written the same way: a line
    break and the two characters backslash, n cannot be told apart in
    the file.) *)
Theorem escapeNewlines_one_line value :
  ~ In LF (chars (escapeNewlines value))
  /\ ~ In CR (chars (escapeNewlines value))
  /\ escapeNewlines (escapeNewlines value) = escapeNewlines value.
Proof.
  assert (L : ~ In LF (chars (escapeNewlines value))) by apply replace_LF_chars.
  assert (C : ~ In CR (chars (escapeNewlines value))).
  { unfold escapeNewlines. intros H.
    apply replace_LF_keeps in H; [|discriminate|discriminate].
    exact (replace_CR_chars _ H). }
  split; [exact L|]. split; [exact C|].
  unfold escapeNewlines at 1.
  rewrite (replace_CRLF_fixed _ C), (replace_CR_fixed _ C), (replace_LF_fixed _ L).
  reflexivity.
Qed.

Lemma escapePipe_head s : forall rest, escapePipe s <> String "|" rest.
Proof.
  destruct s as [|c s]; cbn; [discriminate|].
  destruct (Ascii.eqb_spec c "|") as [->|N]; [discriminate|].
  intros rest [= H _]. congruence.
Qed.

Lemma escapePipe_escaped s : forall previous,
  pipes_escaped previous (escapePipe s) = true.
Proof.
  induction s as [|c s IH]; intros previous; cbn; [reflexivity|].
  destruct (Ascii.eqb_spec c "|") as [->|N]; cbn.
  - rewrite IH. reflexivity.
  - rewrite IH. destruct (Ascii.eqb_spec c "|"); [contradiction | reflexivity].
Qed.

(** X15.  [escapePipe] puts a backslash in front of every pipe of the
    value, and loses nothing: two values with the same escaped form are
    equal. *)
Theorem escapePipe_faithful :
  (forall value, pipes_escaped " " (escapePipe value) = true)
  /\ (forall a b, escapePipe a = escapePipe b -> a = b).
Proof.
  split; [intros value; apply escapePipe_escaped|].
  induction a as [|c a IH]; intros [|d b]; cbn.
  - reflexivity.
  - destruct (Ascii.eqb d "|"); discriminate.
  - destruct (Ascii.eqb c "|"); discriminate.
  - destruct (Ascii.eqb_spec c "|") as [->|Nc], (Ascii.eqb_spec d "|") as [->|Nd].
    + intros [= H]. f_equal. apply IH, H.
    + intros [= <- H]. exfalso. exact (escapePipe_head b _ (eq_sym H)).
    + intros [= -> H]. exfalso. exact (escapePipe_head a _ H).
    + intros [= -> H]. f_equal. apply IH, H.
Qed.

Lemma chars_append' a b : chars (a ++ b) = chars a ++ chars b.
Proof. apply chars_append. Qed.

Lemma escapePipe_keeps s x :
  x <> backslash -> In x (chars (escapePipe s)) -> In x (chars s).
Proof.
  intros N. induction s as [|c s IH]; [intros []|].
  cbn [escapePipe]. destruct (Ascii.eqb_spec c "|") as [->|Nc].
  - intros [H|[H|H]]; [congruence | left; exact H | right; exact (IH H)].
  - intros [H|H]; [left; exact H | right; exact (IH H)].
Qed.

Lemma string_of_nat_digits n x :
  In x (chars (string_of_nat n)) -> is_alnum x = true.
Proof.
  unfold string_of_nat. generalize (Nat.to_uint n). intros d.
  induction d; cbn; intros H; try destruct H as [<-|H]; try reflexivity;
    try (apply IHd; exact H); try contradiction.
Qed.

Lemma id_text_chars n x : In x (chars (id_text n)) -> is_alnum x = true.
Proof.
  unfold id_text. destruct (n =? 0); [intros [] | apply string_of_nat_digits].
Qed.

(** X17.  A comment is one line of the file: if its author and its
    timestamp have no line feed, its record has none, whatever the body
    is. *)
Theorem comment_line_single c :
  ~ In LF (chars (author c)) -> ~ In LF (chars (timestamp c)) ->
  ~ In LF (chars (comment_line c)).
Proof.
  intros A T. unfold comment_line.
  assert (E : forall s, ~ In LF (chars s) -> ~ In LF (chars (escapePipe s))).
  { intros s N H. apply N. apply escapePipe_keeps in H; [exact H | discriminate]. }
  assert (V : ~ In LF (chars (escapePipe
               (if includes (toLowerCase (escapePipe (author c) ++ " "
                                          ++ escapePipe (timestamp c))) "internal note"
                then "internal" else "")))).
  { apply E. destruct (includes _ _); cbn; intuition discriminate. }
  assert (I : ~ In LF (chars (escapePipe (id_text (comment_id c))))).
  { apply E. intros H. apply id_text_chars in H. discriminate. }
  assert (B : ~ In LF (chars (escapeNewlines (body c)))) by apply replace_LF_chars.
  rewrite !chars_append'. intros H.
  repeat (apply in_app_or in H as [H|H]);
    first [ exact (I H) | exact (E _ A H) | exact (E _ T H) | exact (V H)
          | exact (B H) | cbn in H; intuition discriminate ].
Qed.

Lemma escapePipe_empty s : escapePipe s = EmptyString -> s = EmptyString.
Proof.
  destruct s as [|c s]; [reflexivity|]. cbn. destruct (Ascii.eqb c "|"); discriminate.
Qed.

Lemma add_files_paths first_name key fs : forall paths paths',
  Forall (fun a => path a <> EmptyString) paths ->
  add_files first_name key paths fs = Some paths' ->
  Forall (fun a => path a <> EmptyString) paths'.
Proof.
  induction fs as [|f fs IH]; intros paths paths' H E; cbn in E.
  - injection E as <-. exact H.
  - unfold add_file in E.
    destruct (unique_filename key paths (first_name f)) as [n|]; [|discriminate].
    apply (fun P => IH _ paths' P E).
    apply Forall_app. split; [exact H|]. constructor; [|constructor].
    cbn. unfold attachment_path. intros Q.
    apply (f_equal String.length) in Q. rewrite !length_append in Q. cbn in Q. lia.
Qed.

(** X16.  Every downloaded file has its record: the entries the naming
    loop produces all have a path, so none is dropped by the test on the
    path, and the attachment records are one per downloaded file, in the
    order of the downloads, each with the id, the name and the path of
    its entry, pipes escaped. *)
Theorem attachment_records first_name key fs paths t :
  add_files first_name key [] fs = Some paths ->
  attachments t = map Some paths ->
  attachment_lines t
  = map (fun a => ("A|" ++ escapePipe (id_text (id a)) ++ "|" ++ escapePipe (name a)
                   ++ "|" ++ escapePipe (path a))%string) paths
  /\ length (attachment_lines t) = length fs.
Proof.
  intros E A.
  pose proof (add_files_paths first_name key fs [] paths (Forall_nil _) E) as NE.
  assert (L : length paths = length fs).
  { destruct (add_files_entries first_name key fs [] paths E) as (I & _).
    apply (f_equal (@length nat)) in I. cbn [map app] in I.
    rewrite !length_map in I. exact I. }
  assert (Q : attachment_lines t
              = map (fun a => ("A|" ++ escapePipe (id_text (id a)) ++ "|"
                               ++ escapePipe (name a) ++ "|" ++ escapePipe (path a))%string)
                    paths).
  { unfold attachment_lines. rewrite A. clear A E L.
    induction paths as [|a paths IH]; [reflexivity|].
    inversion NE as [|? ? Na NE']; subst. cbn [map flat_map].
    rewrite (IH NE'). unfold attachment_line.
    destruct (String.eqb_spec (escapePipe (path a)) "") as [Z|_];
      [apply escapePipe_empty in Z; contradiction | reflexivity]. }
  split; [exact Q|]. rewrite Q, length_map. exact L.
Qed.

(** A comment whose body has two lines. *)
Lemma comment_line_single_witness :
  let c := {| comment_id := 3; author := "Ann"; timestamp := "2 days ago";
              body := String "a" (String LF "b") |} in
  ~ In LF (chars (comment_line c)).
Proof.
  intros c. apply (comment_line_single c); cbn; intuition discriminate.
Defined.

(** One downloaded file. *)
Lemma attachment_records_witness :
  let fs := [{| file_id := 7; file_name := "a|b.txt"; file_url := "https://x.test/a" |}] in
  let paths := [{| id := 7; name := "a|b.txt"; path := "K/raw/attachments/a_b.txt" |}] in
  let t := {| ticketKey := "K"; title := "t"; ticket_url := "u"; extractedAt := "now";
              description := ""; comments := []; attachments := map Some paths |} in
  length (attachment_lines t) = length fs.
Proof.
  intros fs paths t.
  exact (proj2 (attachment_records api_filename "K" fs paths t eq_refl eq_refl)).
Defined.

End TktFacts.

(** ** Collecting and downloading the files *)

Module CollectFacts.
Import Extractor Regex Collect NamingFacts NamingMore.

(** *** Names that are never kept *)

Lemma split_class_without sep s :
  Forall (fun c => sep c = false) (list_ascii_of_string s) ->
  split_class sep s = [s].
Proof.
  induction s as [|c s IH]; intros H; [reflexivity|].
  cbn in H. inversion H as [|? ? Hc Hs]; subst. cbn [split_class].
  rewrite Hc, (IH Hs). reflexivity.
Qed.

Lemma map_string_fixed f s :
  Forall (fun c => f c = c) (list_ascii_of_string s) -> map_string f s = s.
Proof.
  induction s as [|c s IH]; intros H; [reflexivity|].
  cbn in H. inversion H as [|? ? Hc Hs]; subst. cbn. rewrite Hc, (IH Hs). reflexivity.
Qed.

Lemma uint_digits d :
  Forall (fun c => digit c = true) (list_ascii_of_string (NilEmpty.string_of_uint d)).
Proof. induction d; cbn; constructor; auto. Qed.

Lemma string_of_nat_digit n :
  Forall (fun c => digit c = true) (list_ascii_of_string (string_of_nat n)).
Proof. apply uint_digits. Qed.

Lemma digit_cases c :
  digit c = true ->
  lower c = c /\ (Ascii.eqb c "-" || Ascii.eqb c "_" || is_space c) = false.
Proof.
  unfold digit. intros H. apply andb_true_iff in H as [L U].
  apply Nat.leb_le in L, U.
  rewrite <- (ascii_nat_embedding c).
  assert (B : nat_of_ascii c < 58) by lia.
  remember (nat_of_ascii c) as n eqn:E. clear E.
  do 58 (destruct n as [|n]; [try lia; split; reflexivity|]). lia.
Qed.

(** The name image-N falls under the rule for generic names. *)
Lemma default_name_rejected url index :
  isUnnecessaryFile url (String.append "image-" (string_of_nat (index + 1))) = true.
Proof.
  set (digits := string_of_nat (index + 1)).
  assert (D : Forall (fun c => digit c = true) (list_ascii_of_string digits))
    by apply string_of_nat_digit.
  assert (Low : toLowerCase (String.append "image-" digits) = String.append "image-" digits).
  { unfold toLowerCase. cbn. do 6 f_equal. apply map_string_fixed.
    eapply Forall_impl; [|exact D]. intros c H. apply digit_cases, H. }
  assert (Parts : split_class (fun c => Ascii.eqb c "-" || Ascii.eqb c "_" || is_space c)
                    (String.append "image-" digits) = ["image"%string; digits]).
  { cbn. rewrite split_class_without; [reflexivity|].
    eapply Forall_impl; [|exact D]. intros c H. apply digit_cases, H. }
  unfold isUnnecessaryFile. rewrite Low, Parts.
  repeat match goal with
  | |- (if ?b then true else ?e) = true =>
      lazymatch e with
      | false => fail
      | _ => destruct b; [reflexivity|]
      end
  end.
  cbn. destruct digits; reflexivity.
Qed.

(** X18.  An image whose alternative text is missing or empty is named
    image-N by the script, and that name is always classified as
    unnecessary, whatever the URL and whatever N. *)
Theorem default_name_unnecessary url index i :
  alt i = None \/ alt i = Some EmptyString ->
  isUnnecessaryFile url (image_name index i) = true.
Proof.
  intros [H|H]; unfold image_name; rewrite H.
  - apply default_name_rejected.
  - cbn [String.eqb]. apply default_name_rejected.
Qed.

(** The third image of a page, without alternative text. *)
Lemma default_name_unnecessary_witness :
  isUnnecessaryFile "https://x.test/media/photo-of-the-rack.png"
    (image_name 2 {| src := "https://x.test/media/photo-of-the-rack.png"; alt := None |})
  = true.
Proof.
  apply (default_name_unnecessary "https://x.test/media/photo-of-the-rack.png" 2
           {| src := "https://x.test/media/photo-of-the-rack.png"; alt := None |}).
  left. reflexivity.
Defined.


(** *** [extractImages] *)

Section Images.

Variable resolve : string -> option string.

Lemma image_callback_invariant imgs index i st st' :
  nth_error imgs index = Some i ->
  images_invariant resolve imgs index st ->
  image_callback resolve st index i = Some st' ->
  images_invariant resolve imgs (S index) st'.
Proof.
  intros Nth [Seen Dist Asc Bound From] E.
  assert (Keep : images_invariant resolve imgs (S index) st).
  { constructor; auto. eapply Forall_impl; [|exact Bound]. cbn. intros; lia. }
  unfold image_callback in E.
  destruct (String.eqb (src i) ""); [injection E as <-; exact Keep|].
  destruct (startsWith (src i) "blob:") eqn:B; [injection E as <-; exact Keep|].
  destruct (if startsWith (src i) "http" then Some (src i) else resolve (src i))
    as [url|] eqn:U; [|discriminate].
  destruct (existsb (String.eqb url) (snd st)) eqn:S; [injection E as <-; exact Keep|].
  assert (New : ~ In url (snd st)).
  { intros H. assert (X : existsb (String.eqb url) (snd st) = true).
    { apply existsb_exists. exists url. split; [exact H | apply String.eqb_refl]. }
    congruence. }
  destruct (isUnnecessaryFile url (image_name index i)) eqn:Un; injection E as <-.
  - destruct Keep as [S1 D1 A1 B1 F1]. constructor; cbn [fst snd]; auto.
    intros u H. apply in_or_app. left. apply Seen, H.
  - assert (Alt : alt i = Some (image_name index i) /\ image_name index i <> EmptyString).
    { unfold image_name in *. destruct (alt i) as [a|].
      - destruct (String.eqb a "") eqn:Z.
        + rewrite default_name_rejected in Un. discriminate.
        + split; [reflexivity|]. intros Q. rewrite Q in Z. discriminate.
      - rewrite default_name_rejected in Un. discriminate. }
    constructor; cbn [fst snd].
    + rewrite map_app. intros u H. apply in_app_or in H as [H|[<-|[]]].
      * apply in_or_app. left. apply Seen, H.
      * apply in_or_app. right. left. reflexivity.
    + rewrite map_app. cbn. apply NoDup_app; [exact Dist | repeat constructor; intros [] |].
      intros u H [<-|[]]. apply New, Seen, H.
    + rewrite map_app. cbn.
      assert (G : forall l, StronglySorted lt l -> Forall (fun x => x <= index) l ->
                   StronglySorted lt (l ++ [index + 1])).
      { induction l as [|x l IH]; intros SS Bd; cbn.
        - repeat constructor.
        - inversion SS; subst. inversion Bd; subst. constructor; [apply IH; assumption|].
          apply Forall_app. split; [assumption|]. constructor; [lia | constructor]. }
      apply G; [exact Asc|]. rewrite Forall_map. exact Bound.
    + apply Forall_app. split.
      * eapply Forall_impl; [|exact Bound]. cbn. intros; lia.
      * constructor; [cbn; lia | constructor].
    + apply Forall_app. split; [exact From|]. constructor; [|constructor].
      cbn [file_url file_name file_id]. split; [exact Un|].
      exists i. replace (index + 1 - 1) with index by lia.
      split; [exact Nth|]. split; [lia|]. destruct Alt as (A1 & A2).
      split; [exact A1|]. split; [exact A2|]. split; [exact B|].
      destruct (startsWith (src i) "http"); [congruence | exact U].
Qed.

Lemma forEach_images_invariant imgs : forall rest index st st',
  skipn index imgs = rest ->
  images_invariant resolve imgs index st ->
  forEach_images resolve st index rest = Some st' ->
  images_invariant resolve imgs (length imgs) st'.
Proof.
  induction rest as [|i rest IH]; intros index st st' Sk Inv E.
  - cbn in E. injection E as <-.
    assert (L : length imgs <= index).
    { destruct (le_lt_dec (length imgs) index) as [H|H]; [exact H|].
      apply (f_equal (@length img)) in Sk. rewrite length_skipn in Sk. cbn in Sk. lia. }
    destruct Inv as [S1 D1 A1 B1 F1]. constructor; auto.
    rewrite Forall_forall in *. intros f Hf.
    destruct (F1 f Hf) as (_ & i & Nth & One & _).
    assert (file_id f - 1 < length imgs) by (apply nth_error_Some; congruence). lia.
  - cbn in E. destruct (image_callback resolve st index i) as [st1|] eqn:C; [|discriminate].
    assert (Nth : nth_error imgs index = Some i).
    { rewrite <- (firstn_skipn index imgs) at 1. rewrite Sk.
      assert (L : index <= length imgs).
      { destruct (le_lt_dec index (length imgs)) as [H|H]; [exact H|].
        rewrite skipn_all2 in Sk by lia. discriminate. }
      rewrite nth_error_app2; rewrite length_firstn, Nat.min_l by lia; [|lia].
      rewrite Nat.sub_diag. reflexivity. }
    apply (IH (S index) st1 st'); [|eapply image_callback_invariant; eauto|exact E].
    rewrite <- (Nat.add_1_l index), <- skipn_skipn, Sk. reflexivity.
Qed.

(** X19.  What [extractImages] returns when it returns: the URLs are
    pairwise distinct; the ids go up strictly; no image is one that
    [isUnnecessaryFile] rejects; and every image comes from the element at
    position id - 1 of the page, which has an alternative text that is not
    empty (the name of the image) and a source that is not a blob URL,
    the URL being the source itself when it starts with http and its
    resolution against the origin otherwise.  So an image without
    alternative text is never collected. *)
Theorem extractImages_sound imgElements images :
  extractImages resolve imgElements = Some images ->
  NoDup (map file_url images)
  /\ StronglySorted lt (map file_id images)
  /\ Forall (fun f =>
       isUnnecessaryFile (file_url f) (file_name f) = false
       /\ exists i, nth_error imgElements (file_id f - 1) = Some i
            /\ 1 <= file_id f
            /\ alt i = Some (file_name f) /\ file_name f <> EmptyString
            /\ startsWith (src i) "blob:" = false
            /\ (if startsWith (src i) "http" then src i = file_url f
                else resolve (src i) = Some (file_url f))) images.
Proof.
  unfold extractImages. intros E.
  destruct (forEach_images resolve ([], []) 0 imgElements) as [st|] eqn:F; [|discriminate].
  injection E as <-.
  destruct (forEach_images_invariant imgElements imgElements 0 ([], []) st eq_refl) as
    [S1 D1 A1 B1 F1]; [|exact F|auto].
  constructor; cbn; try constructor. intros ? [].
Qed.

(** X20.  [extractImages] throws only on a source that makes the URL
    constructor throw: a source that is not empty, is not a blob URL and
    does not start with http.  Elements without source, blob URLs and
    absolute URLs never make it fail. *)
Theorem extractImages_throws imgElements :
  extractImages resolve imgElements = None ->
  exists i, In i imgElements
    /\ src i <> EmptyString
    /\ startsWith (src i) "blob:" = false
    /\ startsWith (src i) "http" = false
    /\ resolve (src i) = None.
Proof.
  unfold extractImages.
  generalize 0 at 1. generalize (@nil file, @nil string).
  induction imgElements as [|i rest IH]; intros st index E; [discriminate|].
  cbn in E. destruct (image_callback resolve st index i) as [st'|] eqn:C.
  - destruct (IH st' (S index) E) as (j & In_ & H). exists j. split; [right; exact In_ | exact H].
  - exists i. split; [left; reflexivity|].
    unfold image_callback in C.
    destruct (String.eqb_spec (src i) "") as [|N]; [discriminate|].
    destruct (startsWith (src i) "blob:"); [discriminate|].
    destruct (startsWith (src i) "http"); [|destruct (resolve (src i)) eqn:R].
    + destruct (existsb _ _); [discriminate|]. destruct (isUnnecessaryFile _ _); discriminate.
    + destruct (existsb _ _); [discriminate|]. destruct (isUnnecessaryFile _ _); discriminate.
    + auto.
Qed.

End Images.

(** *** One list of files *)

Lemma Map_has_spec {V} (m : list (string * V)) key :
  Map_has m key = true <-> In key (map fst m).
Proof.
  unfold Map_has. rewrite existsb_exists. split.
  - intros ((k & v) & H & E). apply String.eqb_eq in E. cbn in E. subst.
    apply in_map_iff. exists (key, v). auto.
  - intros H. apply in_map_iff in H as ((k & v) & E & H). cbn in E. subst.
    exists (key, v). split; [exact H | apply String.eqb_refl].
Qed.

(** Setting a key the map does not have puts it last. *)
Lemma Map_set_new {V} (m : list (string * V)) key v :
  ~ In key (map fst m) -> Map_set m key v = m ++ [(key, v)].
Proof.
  induction m as [|(k & v') m IH]; intros H; [reflexivity|].
  cbn in *. destruct (String.eqb_spec k key) as [->|N]; [destruct H; auto|].
  rewrite IH by tauto. reflexivity.
Qed.

Lemma Subsequence_snoc_drop {A} (l all : list A) x :
  Subsequence l all -> Subsequence l (all ++ [x]).
Proof.
  induction 1; cbn; [repeat constructor | constructor; assumption | constructor; assumption].
Qed.

Lemma Subsequence_snoc_keep {A} (l all : list A) x :
  Subsequence l all -> Subsequence (l ++ [x]) (all ++ [x]).
Proof.
  induction 1; cbn; [repeat constructor | constructor; assumption | constructor; assumption].
Qed.

Lemma forEach_invariant files : forall m seen,
  map_invariant m seen ->
  map_invariant
    (fold_left (fun m f => if Map_has m (file_url f) then m
                           else Map_set m (file_url f) f) files m)
    (seen ++ files).
Proof.
  induction files as [|f files IH]; intros m seen Inv.
  - rewrite app_nil_r. exact Inv.
  - cbn [fold_left].
    replace (seen ++ f :: files) with ((seen ++ [f]) ++ files)
      by (rewrite <- app_assoc; reflexivity).
    apply IH. destruct Inv as [K D C F O].
    destruct (Map_has m (file_url f)) eqn:H.
    + apply Map_has_spec in H. constructor; auto.
      * intros u. rewrite map_app, in_app_iff, C. cbn. intuition congruence.
      * eapply Forall_impl; [|exact F]. cbn. intros g (b & a & -> & N).
        exists b, (a ++ [f]). rewrite <- app_assoc. auto.
      * apply Subsequence_snoc_drop, O.
    + assert (N : ~ In (file_url f) (map fst m)).
      { intros X. apply Map_has_spec in X. congruence. }
      rewrite (Map_set_new m _ f N). constructor.
      * apply Forall_app. split; [exact K | repeat constructor].
      * rewrite map_app. cbn. apply NoDup_app; [exact D | repeat constructor; intros [] |].
        intros u Hu [<-|[]]. exact (N Hu).
      * intros u. rewrite !map_app, !in_app_iff, C. cbn. tauto.
      * rewrite map_app. apply Forall_app. split.
        -- eapply Forall_impl; [|exact F]. cbn. intros g (b & a & -> & Ng).
           exists b, (a ++ [f]). rewrite <- app_assoc. auto.
        -- constructor; [|constructor]. cbn. exists seen, []. split; [reflexivity|].
           intros X. apply N, C, X.
      * rewrite map_app. cbn. apply Subsequence_snoc_keep, O.
Qed.

(** X21.  The list of files [extractTicket] downloads from: no URL
    occurs twice; every URL of the three sources occurs; each file kept is
    the first one with its URL in the order attachments, attachments of
    comments, images; and the files kept are in that order. *)
Theorem allFiles_first_by_url attachments commentAttachments images :
  let all := attachments ++ commentAttachments ++ images in
  let result := allFiles attachments commentAttachments images in
  NoDup (map file_url result)
  /\ (forall u, In u (map file_url all) <-> In u (map file_url result))
  /\ Forall (fun g => exists before after,
               all = before ++ g :: after
               /\ ~ In (file_url g) (map file_url before)) result
  /\ Subsequence result all.
Proof.
  intros all result.
  assert (E : map_invariant [] []).
  { constructor; cbn; try constructor; tauto. }
  pose proof (forEach_invariant all [] [] E) as [K D C F O].
  cbn [app] in *. fold (allFiles attachments commentAttachments images) in F, O.
  fold result in F, O.
  assert (U : map file_url result = map fst
               (fold_left (fun m f => if Map_has m (file_url f) then m
                                      else Map_set m (file_url f) f) all [])).
  { unfold result, allFiles. fold all. rewrite map_map.
    apply map_ext_in. intros kv H. rewrite Forall_forall in K. symmetry. apply K, H. }
  rewrite U. auto.
Qed.

(** *** The download loops *)

Section Loops.

Variables (skipped : file -> bool) (download_of : file -> option download)
          (first_name : file -> string) (ticketKey : string).

Lemma for_of_body files : forall paths n,
  NoDup (map path paths) ->
  exists paths',
    add_files first_name ticketKey paths
      (filter (fun f => negb (skipped f) && is_some (download_of f)) files)
    = Some paths'
    /\ for_of (body ticketKey skipped download_of first_name) (paths, n) files
       = Some (paths', n + (length paths' - length paths))
    /\ length paths <= length paths'.
Proof.
  induction files as [|f files IH]; intros paths n ND.
  - exists paths. cbn. rewrite Nat.sub_diag, Nat.add_0_r. auto.
  - cbn [for_of filter]. unfold body at 1. cbn [fst snd].
    destruct (skipped f); cbn [negb andb].
    { apply IH, ND. }
    destruct (download_of f) as [d|]; cbn [is_some].
    2:{ apply IH, ND. }
    destruct (add_file_unique first_name ticketKey paths f ND) as (p1 & E1 & ND1 & L1).
    cbn [add_files]. rewrite E1.
    destruct (IH p1 (S n) ND1) as (p2 & E2 & F2 & L2).
    exists p2. split; [exact E2|]. split; [|lia].
    rewrite F2. do 2 f_equal. lia.
Qed.

End Loops.

(** X22.  The loop of [extractTicket] always runs to the end of the list:
    a file that is unnecessary or whose download gives nothing is left
    out and the loop goes on.  The entries are those of the files that
    are necessary and were downloaded, in their order, with their ids
    and names; their paths are pairwise distinct; and the counter of
    downloads is their number. *)
Theorem dom_loop ticketKey blobUrl_of session_world files :
  let kept := filter (dom_kept blobUrl_of session_world) files in
  exists attachmentPaths,
    for_of (dom_body ticketKey blobUrl_of session_world) ([], 0) files
    = Some (attachmentPaths, length kept)
    /\ NoDup (map path attachmentPaths)
    /\ map id attachmentPaths = map file_id kept
    /\ map name attachmentPaths = map file_name kept.
Proof.
  intros kept.
  destruct (for_of_body (fun f => isUnnecessaryFile (file_url f) (file_name f))
              (session_download blobUrl_of session_world) dom_filename ticketKey
              files [] 0 (NoDup_nil _)) as (paths & E & F & _).
  fold (dom_kept blobUrl_of session_world) in E. fold kept in E.
  destruct (names_unique dom_filename ticketKey kept [] (NoDup_nil _))
    as (paths' & E' & ND & L).
  assert (paths' = paths) by congruence. subst paths'.
  destruct (add_files_entries _ _ _ _ _ E) as (I & N).
  exists paths. repeat split; auto.
  change (dom_body ticketKey blobUrl_of session_world)
    with (body ticketKey (fun f => isUnnecessaryFile (file_url f) (file_name f))
            (session_download blobUrl_of session_world) dom_filename).
  rewrite F. cbn [length] in *. do 2 f_equal. lia.
Qed.

(** *** The loop of [extractTicketViaAPI] *)

Section ApiLoop.

Variable ticketKey : string.
Variable blobUrl_of apiUrl_of : file -> option string.
Variable authHeader_of : download -> string.
Variable session_world api_world : file -> world.

(** Every iteration ends before the first download: without a URL at the
    [continue], with one at the ReferenceError, which the [catch] logs. *)
Lemma api_body_throws st f :
  api_body ticketKey blobUrl_of apiUrl_of authHeader_of session_world api_world st f
  = Some (if String.eqb (file_url f) "" then st else warned st (file_name f)).
Proof.
  unfold api_body, api_try. destruct (String.eqb (file_url f) ""); reflexivity.
Qed.

Lemma api_for_of_warns files : forall st,
  api_for_of ticketKey blobUrl_of apiUrl_of authHeader_of session_world api_world st files
  = Some {| api_attachmentPaths := api_attachmentPaths st;
            api_downloadCount := api_downloadCount st;
            api_calls := api_calls st;
            api_warnings :=
              api_warnings st
                ++ map file_name
                     (filter (fun f => negb (String.eqb (file_url f) "")) files) |}.
Proof.
  induction files as [|f files IH]; intros st.
  - cbn. rewrite app_nil_r. destruct st; reflexivity.
  - cbn [api_for_of]. rewrite api_body_throws, IH. cbn [filter].
    destruct (String.eqb (file_url f) ""); cbn [negb]; [reflexivity|].
    cbn [warned api_attachmentPaths api_downloadCount api_calls api_warnings map].
    rewrite <- app_assoc. reflexivity.
Qed.

End ApiLoop.

(** X23.  The loop of [extractTicketViaAPI] archives nothing, whatever the
    ticket has and whatever the network would serve.  Each iteration for
    a file with a URL throws a ReferenceError at its first statement,
    which reads [result] before the [const result] of the same block has
    run; the [catch] logs a warning and the loop goes on.  So the loop
    always runs to the end of the list, [downloadFile] is never called,
    [attachmentPaths] stays empty, [downloadCount] stays 0, and there is
    one warning for each file that has a URL, in order. *)
Theorem api_loop ticketKey blobUrl_of apiUrl_of authHeader_of session_world api_world
    files :
  api_for_of ticketKey blobUrl_of apiUrl_of authHeader_of session_world api_world
             api_start files
  = Some {| api_attachmentPaths := [];
            api_downloadCount := 0;
            api_calls := [];
            api_warnings :=
              map file_name
                  (filter (fun f => negb (String.eqb (file_url f) "")) files) |}.
Proof. rewrite api_for_of_warns. reflexivity. Qed.

(** X8.  The ticket file [extractTicketViaAPI] writes records no
    attachment, whatever attachments the ticket has and whatever the
    network would serve: it is the version line, the header line, the
    description block and the comment lines, and nothing else. *)
Theorem api_ticket_without_attachments ticketKey blobUrl_of apiUrl_of authHeader_of
    session_world api_world ticketData allFiles :
  api_ticket_file ticketKey blobUrl_of apiUrl_of authHeader_of session_world api_world
                  ticketData allFiles
  = Some (join (String Tkt.LF EmptyString)
            (["TKT|v1"%string; Tkt.header_line ticketData]
               ++ Tkt.description_lines ticketData ++ Tkt.comment_lines ticketData)).
Proof.
  unfold api_ticket_file. rewrite api_for_of_warns.
  unfold Tkt.convertToTktFormat, Tkt.lines, Tkt.attachment_lines.
  cbn [api_attachmentPaths api_start map flat_map Tkt.attachments].
  rewrite app_nil_r. reflexivity.
Qed.

(** A picture with a description, served over https. *)
Lemma extractImages_sound_witness :
  let imgs := [{| src := "https://x.test/media/diagram.png"; alt := Some "network diagram"%string |};
               {| src := "https://x.test/media/x.png"; alt := None |}] in
  let images := [{| file_id := 1; file_name := "network diagram";
                    file_url := "https://x.test/media/diagram.png" |}] in
  extractImages (fun _ => None) imgs = Some images
  /\ NoDup (map file_url images).
Proof.
  intros imgs images.
  assert (E : extractImages (fun _ => None) imgs = Some images) by reflexivity.
  split; [exact E|].
  exact (proj1 (extractImages_sound (fun _ => None) imgs images E)).
Defined.

(** A source the URL constructor refuses. *)
Lemma extractImages_throws_witness :
  let imgs := [{| src := "//["; alt := Some "x"%string |}] in
  extractImages (fun _ => None) imgs = None
  /\ exists i, In i imgs /\ src i <> EmptyString.
Proof.
  intros imgs.
  assert (E : extractImages (fun _ => None) imgs = None) by reflexivity.
  split; [exact E|].
  destruct (extractImages_throws (fun _ => None) imgs E) as (i & H & N & _).
  exists i. auto.
Defined.

End CollectFacts.

(** ** The engine *)

Module RegexFacts.
Import Extractor Regex TicketKey.

Lemma take_skip n : forall s, (take n s ++ skip n s)%string = s.
Proof.
  induction n as [|n IH]; intros [|c s]; cbn; try reflexivity.
  rewrite IH. reflexivity.
Qed.

Lemma take_length n : forall s,
  n <= String.length s -> String.length (take n s) = n.
Proof.
  induction n as [|n IH]; intros [|c s] H; cbn in *; try reflexivity; try lia.
  rewrite IH by lia. reflexivity.
Qed.

Lemma run_length_bound class s : run_length class s <= String.length s.
Proof.
  induction s as [|c s IH]; cbn; [lia|]. destruct (class c); lia.
Qed.

Lemma take_run class n : forall s,
  n <= run_length class s ->
  Forall (fun c => class c = true) (list_ascii_of_string (take n s)).
Proof.
  induction n as [|n IH]; intros [|c s] H; cbn in *; try constructor; try lia.
  - destruct (class c); [reflexivity | lia].
  - destruct (class c); [apply IH; lia | lia].
Qed.

Lemma prefix_split a : forall s,
  String.prefix a s = true -> s = (a ++ skip (String.length a) s)%string.
Proof.
  induction a as [|c a IH]; intros [|d s] H; cbn in *; try reflexivity; try discriminate.
  destruct (Ascii.ascii_dec c d) as [->|N]; [|discriminate].
  rewrite <- (IH s H). reflexivity.
Qed.

Lemma concat_cons t ts :
  String.concat EmptyString (t :: ts) = (t ++ String.concat EmptyString ts)%string.
Proof.
  destruct ts as [|u ts]; cbn; [|reflexivity].
  induction t as [|c t IH]; cbn; [reflexivity|]. rewrite <- IH. reflexivity.
Qed.

Lemma append_assoc (a b c : string) : ((a ++ b) ++ c = a ++ (b ++ c))%string.
Proof. induction a as [|x a IH]; cbn; [reflexivity | rewrite IH; reflexivity]. Qed.

(** What a match is: every item has matched its text, and the texts, one
    after the other, are the beginning of the string (all of it under
    [$]). *)
Lemma match_here_sound items to_end : forall s texts,
  match_here items to_end s = Some texts ->
  Forall2 item_matches items texts
  /\ exists rest, s = (String.concat EmptyString texts ++ rest)%string
       /\ (to_end = true -> rest = EmptyString).
Proof.
  induction items as [|i items IH]; intros s texts H.
  - cbn in H. destruct to_end.
    + destruct s; [|discriminate]. injection H as <-.
      split; [constructor|]. exists EmptyString. auto.
    + injection H as <-. split; [constructor|]. exists s. split; [reflexivity | discriminate].
  - destruct i as [class|least class|alternatives]; cbn [match_here] in H.
    + destruct s as [|c s]; [discriminate|].
      destruct (class c) eqn:C; [|discriminate].
      destruct (match_here items to_end s) as [ts|] eqn:M; [|discriminate].
      injection H as <-. destruct (IH _ _ M) as (F & rest & -> & E).
      split; [constructor; [exists c; auto | exact F]|].
      exists rest. rewrite concat_cons. auto.
    + revert texts H.
      assert (G : forall n texts, n <= run_length class s ->
                (fix give_back (taken : nat) : option (list string) :=
                   if taken <? least then None
                   else
                     match match_here items to_end (skip taken s) with
                     | Some texts => Some (take taken s :: texts)
                     | None => match taken with
                               | S fewer => give_back fewer
                               | 0 => None
                               end
                     end) n = Some texts ->
                Forall2 item_matches (Many least class :: items) texts
                /\ exists rest, s = (String.concat EmptyString texts ++ rest)%string
                     /\ (to_end = true -> rest = EmptyString)).
      { induction n as [|n IHn]; intros texts B K.
        - destruct (0 <? least) eqn:L; [discriminate|]. apply Nat.ltb_ge in L.
          destruct (match_here items to_end (skip 0 s)) as [ts|] eqn:M; [|discriminate].
          injection K as <-. destruct (IH _ _ M) as (F & rest & Q & E).
          split; [constructor; [split; [cbn; lia | constructor] | exact F]|].
          exists rest. rewrite concat_cons. cbn in *. auto.
        - destruct (S n <? least) eqn:L; [discriminate|]. apply Nat.ltb_ge in L.
          destruct (match_here items to_end (skip (S n) s)) as [ts|] eqn:M.
          + assert (T : texts = take (S n) s :: ts) by congruence.
            clear K. subst texts. destruct (IH _ _ M) as (F & rest & Q & E).
            split.
            * constructor; [|exact F]. split; [|exact (take_run class (S n) s B)].
              rewrite (take_length (S n) s); [exact L|].
              pose proof (run_length_bound class s). lia.
            * exists rest. rewrite concat_cons, append_assoc, <- Q, take_skip. auto.
          + apply IHn; [lia | exact K]. }
      intros texts H. apply (G (run_length class s)); [lia | exact H].
    + revert texts H.
      assert (G : forall alts texts, incl alts alternatives ->
                (fix next (alts : list string) : option (list string) :=
                   match alts with
                   | [] => None
                   | a :: others =>
                       if String.prefix a s
                       then match match_here items to_end (skip (String.length a) s) with
                            | Some texts => Some (a :: texts)
                            | None => next others
                            end
                       else next others
                   end) alts = Some texts ->
                Forall2 item_matches (OneOf alternatives :: items) texts
                /\ exists rest, s = (String.concat EmptyString texts ++ rest)%string
                     /\ (to_end = true -> rest = EmptyString)).
      { induction alts as [|a alts IHa]; intros texts Inc K; [discriminate|].
        assert (Inc' : incl alts alternatives) by (intros x Hx; apply Inc; right; exact Hx).
        destruct (String.prefix a s) eqn:P; [|apply IHa; assumption].
        destruct (match_here items to_end (skip (String.length a) s)) as [ts|] eqn:M;
          [|apply IHa; assumption].
        injection K as <-. destruct (IH _ _ M) as (F & rest & Q & E).
        split; [constructor; [apply Inc; left; reflexivity | exact F]|].
        exists rest. rewrite concat_cons, append_assoc, <- Q. split; [|exact E].
        apply prefix_split, P. }
      intros texts H. apply (G alternatives); [apply incl_refl | exact H].
Qed.

(** A match found by the search is a match somewhere in the string. *)
Lemma search_sound items to_end : forall s texts,
  search items to_end s = Some texts ->
  Forall2 item_matches items texts
  /\ exists before rest,
       s = (before ++ String.concat EmptyString texts ++ rest)%string
       /\ (to_end = true -> rest = EmptyString).
Proof.
  induction s as [|c s IH]; intros texts H; cbn [search] in H.
  - destruct (match_here items to_end EmptyString) as [ts|] eqn:M; [|discriminate].
    injection H as <-. destruct (match_here_sound _ _ _ _ M) as (F & rest & Q & E).
    split; [exact F|]. exists EmptyString, rest. auto.
  - destruct (match_here items to_end (String c s)) as [ts|] eqn:M.
    + injection H as <-. destruct (match_here_sound _ _ _ _ M) as (F & rest & Q & E).
      split; [exact F|]. exists EmptyString, rest. auto.
    + destruct (IH _ H) as (F & before & rest & -> & E).
      split; [exact F|]. exists (String c before), rest. auto.
Qed.

End RegexFacts.

(** ** The key of the ticket *)

Module TicketKeyFacts.
Import Extractor Regex TicketKey RegexFacts NamingFacts.

Lemma not_empty_length (s : string) : 1 <= String.length s -> s <> EmptyString.
Proof. destruct s; cbn; [lia | discriminate]. Qed.

Lemma concat_nil : String.concat EmptyString [] = EmptyString.
Proof. reflexivity. Qed.

Lemma append_empty (s : string) : (s ++ "")%string = s.
Proof. induction s as [|c s IH]; cbn; [reflexivity | rewrite IH; reflexivity]. Qed.

(** The texts of a match of [key_pattern]. *)
Lemma key_texts texts :
  Forall2 item_matches key_pattern texts ->
  plain_key (String.concat EmptyString texts).
Proof.
  intros F. unfold key_pattern in F.
  inversion F as [|? l ? ts1 Hl F1]; subst.
  inversion F1 as [|? h ? ts2 Hh F2]; subst.
  inversion F2 as [|? d ? ts3 Hd F3]; subst.
  inversion F3; subst.
  unfold literal in Hh. cbn [item_matches] in Hl, Hh, Hd.
  destruct Hl as (Ll & Fl). destruct Hd as (Ld & Fd).
  destruct Hh as (c & -> & Hc).
  apply Ascii.eqb_eq in Hc. subst c.
  exists l, d. rewrite !concat_cons, concat_nil, append_empty.
  repeat split; auto using not_empty_length.
Qed.

Lemma long_key_texts texts :
  Forall2 item_matches long_key_pattern texts ->
  numbered_key (String.concat EmptyString texts).
Proof.
  intros F. unfold long_key_pattern in F.
  inversion F as [|? l ? ts1 Hl F1]; subst.
  inversion F1 as [|? n ? ts2 Hn F2]; subst.
  inversion F2 as [|? h ? ts3 Hh F3]; subst.
  inversion F3 as [|? d ? ts4 Hd F4]; subst.
  inversion F4; subst.
  unfold literal in Hh. cbn [item_matches] in Hl, Hn, Hh, Hd.
  destruct Hl as (Ll & Fl). destruct Hn as (Ln & Fn).
  destruct Hd as (Ld & Fd). destruct Hh as (c & -> & Hc).
  apply Ascii.eqb_eq in Hc. subst c.
  exists l, n, d. rewrite !concat_cons, concat_nil, append_empty.
  repeat split; auto using not_empty_length.
Qed.

Lemma group_found before pattern s k :
  group before pattern s = Some k ->
  exists texts, search pattern false s = Some texts
    /\ k = String.concat EmptyString (List.skipn before texts).
Proof.
  unfold group. destruct (search pattern false s) as [texts|]; [|discriminate].
  destruct (String.eqb _ _); [discriminate|]. intros [= <-]. eauto.
Qed.

Lemma concat_app (a b : list string) :
  String.concat EmptyString (a ++ b)
  = (String.concat EmptyString a ++ String.concat EmptyString b)%string.
Proof.
  induction a as [|x a IH]; [reflexivity|].
  cbn [app]. rewrite !concat_cons, IH, append_assoc. reflexivity.
Qed.

Lemma simple_key_shape s k :
  simple_key s = Some k ->
  plain_key k /\ exists before rest, s = (before ++ k ++ rest)%string.
Proof.
  intros H. apply group_found in H as (texts & S & ->). cbn [List.skipn].
  destruct (search_sound _ _ _ _ S) as (F & before & rest & Q & _).
  split; [apply key_texts, F | eauto].
Qed.

Lemma long_key_shape s k :
  long_key s = Some k ->
  numbered_key k /\ exists before rest, s = (before ++ k ++ rest)%string.
Proof.
  intros H. apply group_found in H as (texts & S & ->). cbn [List.skipn].
  destruct (search_sound _ _ _ _ S) as (F & before & rest & Q & _).
  split; [apply long_key_texts, F | eauto].
Qed.

Lemma browse_key_shape s k :
  browse_key s = Some k ->
  plain_key k /\ exists before rest, s = (before ++ k ++ rest)%string.
Proof.
  intros H. apply group_found in H as (texts & S & ->).
  destruct (search_sound _ _ _ _ S) as (F & before & rest & Q & _).
  unfold browse_pattern in F. apply Forall2_app_inv_l in F as (t1 & t2 & F1 & F2 & ->).
  assert (L : length t1 = 8).
  { apply Forall2_length in F1. rewrite <- F1. reflexivity. }
  rewrite skipn_app, skipn_all2, L, Nat.sub_diag by lia. cbn [List.skipn app].
  split; [apply key_texts, F2|].
  rewrite concat_app, append_assoc in Q.
  exists (before ++ String.concat EmptyString t1)%string, rest.
  rewrite append_assoc. exact Q.
Qed.

Lemma last_segment_key_shape s k :
  last_segment_key s = Some k -> plain_key k /\ In k (split "/" s).
Proof.
  unfold last_segment_key.
  destruct (filter _ (split "/" s)) as [|p ps] eqn:E; [discriminate|].
  assert (I : In (last (p :: ps) EmptyString) (p :: ps)).
  { destruct (exists_last (l := p :: ps)) as (l' & a & ->); [discriminate|].
    rewrite last_last. apply in_or_app. right. left. reflexivity. }
  remember (last (p :: ps) EmptyString) as lastPart eqn:Lp. clear Lp.
  destruct (test_from_start key_pattern true lastPart) eqn:T; [|discriminate].
  intros [= <-]. split.
  - unfold test_from_start in T.
    destruct (match_here key_pattern true lastPart) as [texts|] eqn:M; [|discriminate].
    destruct (match_here_sound _ _ _ _ M) as (F & rest & Q & End_).
    rewrite (End_ eq_refl), append_empty in Q. rewrite Q. apply key_texts, F.
  - rewrite <- E in I. apply filter_In in I. tauto.
Qed.

Lemma chars_append_ a b :
  list_ascii_of_string (a ++ b) = list_ascii_of_string a ++ list_ascii_of_string b.
Proof. apply chars_append. Qed.

Lemma plain_key_safe k :
  plain_key k ->
  Forall (fun c => key_character c = true) (list_ascii_of_string k)
  /\ k <> EmptyString /\ k <> UNKNOWN /\ In "-"%char (list_ascii_of_string k).
Proof.
  intros (l & d & -> & Nl & Nd & Fl & Fd).
  assert (H : In "-"%char (list_ascii_of_string (l ++ "-" ++ d))).
  { rewrite chars_append_. apply in_or_app. right. left. reflexivity. }
  repeat split.
  - rewrite chars_append_. apply Forall_app. split.
    + eapply Forall_impl; [|exact Fl]. intros c Hc. unfold key_character. rewrite Hc. reflexivity.
    + cbn. constructor; [reflexivity|].
      eapply Forall_impl; [|exact Fd]. intros c Hc. unfold key_character.
      rewrite Hc, orb_true_r. reflexivity.
  - destruct l; [congruence | discriminate].
  - intros Q. rewrite Q in H. cbn in H. intuition discriminate.
  - exact H.
Qed.

Lemma numbered_key_safe k :
  numbered_key k ->
  Forall (fun c => key_character c = true) (list_ascii_of_string k)
  /\ k <> EmptyString /\ k <> UNKNOWN /\ In "-"%char (list_ascii_of_string k).
Proof.
  intros (l & n & d & -> & Ll & Nn & Nd & Fl & Fn & Fd).
  assert (H : In "-"%char (list_ascii_of_string (l ++ n ++ "-" ++ d))).
  { rewrite !chars_append_. apply in_or_app. right. apply in_or_app. right.
    left. reflexivity. }
  repeat split.
  - rewrite !chars_append_. apply Forall_app. split; [|apply Forall_app; split].
    + eapply Forall_impl; [|exact Fl]. intros c Hc. unfold key_character. rewrite Hc. reflexivity.
    + eapply Forall_impl; [|exact Fn]. intros c Hc. unfold key_character.
      rewrite Hc, orb_true_r. reflexivity.
    + cbn. constructor; [reflexivity|].
      eapply Forall_impl; [|exact Fd]. intros c Hc. unfold key_character.
      rewrite Hc, orb_true_r. reflexivity.
  - destruct l; [cbn in Ll; lia | discriminate].
  - intros Q. rewrite Q in H. cbn in H. intuition discriminate.
  - exact H.
Qed.

(** X24.  [extractTicketKeyFromUrl] returns UNKNOWN or a piece of the URL
    that is a key: letters, a hyphen and digits, or at least two letters,
    digits, a hyphen and digits. *)
Theorem extractTicketKeyFromUrl_shape url :
  let k := extractTicketKeyFromUrl url in
  k = UNKNOWN
  \/ ((plain_key k \/ numbered_key k)
      /\ exists before rest, url = (before ++ k ++ rest)%string).
Proof.
  intros k. unfold k, extractTicketKeyFromUrl.
  destruct (String.eqb url ""); [left; reflexivity|].
  destruct (browse_key url) as [b|] eqn:B.
  { right. destruct (browse_key_shape _ _ B). auto. }
  destruct (long_key url) as [l|] eqn:L.
  { right. destruct (long_key_shape _ _ L). auto. }
  destruct (simple_key url) as [s|] eqn:S.
  { right. destruct (simple_key_shape _ _ S). auto. }
  left. reflexivity.
Qed.

Lemma from_elements_shape els k :
  from_elements els = Some k -> plain_key k.
Proof.
  induction els as [|[el|] els IH]; cbn; [discriminate| |exact IH].
  destruct (simple_key (text el)) as [t|] eqn:T.
  { intros [= <-]. apply (simple_key_shape _ _ T). }
  destruct (href el) as [h|]; [|exact IH].
  destruct (String.eqb h ""); [exact IH|].
  destruct (simple_key h) as [t|] eqn:H; [|exact IH].
  intros [= <-]. apply (simple_key_shape _ _ H).
Qed.

(** The key [extractTicketKey] finds, when it finds one. *)
Lemma extractTicketKey_cases p :
  (extractTicketKey p = UNKNOWN
   /\ browse_key (location_href p) = None
   /\ simple_key (location_href p) = None
   /\ last_segment_key (location_pathname p) = None)
  \/ plain_key (extractTicketKey p).
Proof.
  unfold extractTicketKey.
  destruct (browse_key (location_href p)) as [k|] eqn:B1; cbn [or_else].
  { right. apply (browse_key_shape _ _ B1). }
  destruct (browse_key (location_pathname p)) as [k|] eqn:B2; cbn [or_else].
  { right. apply (browse_key_shape _ _ B2). }
  destruct (simple_key (location_pathname p)) as [k|] eqn:S1; cbn [or_else].
  { right. apply (simple_key_shape _ _ S1). }
  destruct (simple_key (location_href p)) as [k|] eqn:S2; cbn [or_else].
  { right. apply (simple_key_shape _ _ S2). }
  destruct (from_elements (found p)) as [k|] eqn:E; cbn [or_else].
  { right. apply (from_elements_shape _ _ E). }
  destruct (last_segment_key (location_pathname p)) as [k|] eqn:L1; cbn [or_else].
  { right. apply (last_segment_key_shape _ _ L1). }
  destruct (last_segment_key (location_href p)) as [k|] eqn:L2.
  { right. apply (last_segment_key_shape _ _ L2). }
  left. auto.
Qed.

Lemma not_UNKNOWN k : k <> UNKNOWN -> String.eqb k UNKNOWN = false.
Proof. intros H. destruct (String.eqb_spec k UNKNOWN); [contradiction | reflexivity]. Qed.

(** X26.  Of the fallbacks [extractTicket] runs after [extractTicketKey]
    has answered UNKNOWN, only the pattern for keys with digits in the
    project part can still find something: the browse pattern, the last
    segment of the path and the three patterns of
    [extractTicketKeyFromUrl] were tried on the same URL before, or are
    tried on it again.  So the key [extractTicket] settles on is the one
    of [extractTicketKey] when there is one, else the first match of that
    pattern in the URL, else UNKNOWN. *)
Theorem settled_key_fallback p :
  settled_key p
  = if String.eqb (extractTicketKey p) UNKNOWN
    then match long_key (location_href p) with
         | Some k => k
         | None => UNKNOWN
         end
    else extractTicketKey p.
Proof.
  unfold settled_key.
  destruct (extractTicketKey_cases p) as [(U & B & S & L) | K].
  - rewrite U. cbn [String.eqb Ascii.eqb Bool.eqb UNKNOWN andb]. rewrite B, L.
    destruct (long_key (location_href p)) as [k|] eqn:Lk.
    + destruct (numbered_key_safe k (proj1 (long_key_shape _ _ Lk))) as (_ & _ & N & _).
      rewrite (not_UNKNOWN k N). reflexivity.
    + cbn [String.eqb Ascii.eqb Bool.eqb UNKNOWN andb].
      unfold extractTicketKeyFromUrl. rewrite B, Lk, S.
      destruct (String.eqb (location_href p) ""); reflexivity.
  - destruct (plain_key_safe _ K) as (_ & _ & N & _).
    rewrite !(not_UNKNOWN _ N). reflexivity.
Qed.

(** X25.  The name of the folder in the archive is always usable: it is
    jira-ticket or a key found on the page, so it is never empty, never
    UNKNOWN, and made of letters, digits and hyphens only (no slash, no
    dot, none of the reserved characters). *)
Theorem finalTicketKey_safe p :
  let k := finalTicketKey p in
  (k = "jira-ticket"%string \/ plain_key k \/ numbered_key k)
  /\ Forall (fun c => key_character c = true) (list_ascii_of_string k)
  /\ k <> EmptyString /\ k <> UNKNOWN.
Proof.
  intros k.
  assert (C : k = "jira-ticket"%string \/ plain_key k \/ numbered_key k).
  { unfold k, finalTicketKey.
    assert (S : settled_key p = UNKNOWN \/ plain_key (settled_key p)
                \/ numbered_key (settled_key p)).
    { unfold settled_key.
      destruct (extractTicketKey_cases p) as [(U & B & S & L) | K].
      - rewrite U. cbn [String.eqb Ascii.eqb Bool.eqb UNKNOWN andb]. rewrite B, L.
        destruct (long_key (location_href p)) as [n|] eqn:Lk.
        + pose proof (proj1 (long_key_shape _ _ Lk)) as Nk.
          destruct (numbered_key_safe n Nk) as (_ & _ & N & _).
          rewrite (not_UNKNOWN n N). auto.
        + cbn [String.eqb Ascii.eqb Bool.eqb UNKNOWN andb].
          unfold extractTicketKeyFromUrl. rewrite B, Lk, S.
          left. destruct (String.eqb (location_href p) ""); reflexivity.
      - destruct (plain_key_safe _ K) as (_ & _ & N & _).
        rewrite !(not_UNKNOWN _ N). auto. }
    destruct S as [-> | [K | K]]; [left; reflexivity | |].
    - destruct (plain_key_safe _ K) as (_ & _ & N & _).
      rewrite (not_UNKNOWN _ N). auto.
    - destruct (numbered_key_safe _ K) as (_ & _ & N & _).
      rewrite (not_UNKNOWN _ N). auto. }
  split; [exact C|].
  destruct C as [-> | [K | K]].
  - repeat split; try discriminate. repeat constructor.
  - destruct (plain_key_safe _ K) as (A & B & D & _). auto.
  - destruct (numbered_key_safe _ K) as (A & B & D & _). auto.
Qed.

(** A key with digits in its project part. *)
Lemma settled_key_fallback_witness :
  let p := {| location_href := "https://x.atlassian.net/browse/CUHC001-614";
              location_pathname := "/browse/CUHC001-614"; found := [] |} in
  extractTicketKey p = UNKNOWN /\ settled_key p = "CUHC001-614"%string.
Proof.
  intros p. split; [reflexivity|].
  rewrite (settled_key_fallback p). reflexivity.
Defined.

(** *** A key after /browse/ is found *)

Lemma run_length_prefix class (a : string) : forall b,
  Forall (fun c => class c = true) (list_ascii_of_string a) ->
  String.length a <= run_length class (a ++ b).
Proof.
  induction a as [|c a IH]; intros b H; cbn; [lia|].
  inversion H as [|? ? Hc Ha]; subst. rewrite Hc. specialize (IH b Ha). lia.
Qed.

(** A repetition that can take its least number of characters and let the
    rest match does match. *)
Lemma many_matches least class rest to_end s :
  (exists n, least <= n <= run_length class s
             /\ match_here rest to_end (skip n s) <> None) ->
  match_here (Many least class :: rest) to_end s <> None.
Proof.
  intros (n & B & M). cbn [match_here].
  assert (G : forall m, n <= m ->
            (fix give_back (taken : nat) : option (list string) :=
               if taken <? least then None
               else
                 match match_here rest to_end (skip taken s) with
                 | Some texts => Some (take taken s :: texts)
                 | None => match taken with
                           | S fewer => give_back fewer
                           | 0 => None
                           end
                 end) m <> None).
  { induction m as [|m IH]; intros Le.
    - assert (n = 0) by lia. subst n.
      replace (0 <? least) with false by (symmetry; apply Nat.ltb_ge; lia).
      destruct (match_here rest to_end (skip 0 s)); [discriminate | contradiction].
    - replace (S m <? least) with false by (symmetry; apply Nat.ltb_ge; lia).
      destruct (match_here rest to_end (skip (S m) s)) eqn:E; [discriminate|].
      destruct (Nat.eq_dec n (S m)) as [->|N]; [congruence|].
      apply IH. lia. }
  apply G. lia.
Qed.

Lemma skip_append (a : string) : forall b, skip (String.length a) (a ++ b) = b.
Proof. induction a as [|c a IH]; intros b; cbn; [reflexivity | apply IH]. Qed.

Lemma chr_matches class c rest items to_end :
  class c = true ->
  match_here items to_end rest <> None ->
  match_here (Chr class :: items) to_end (String c rest) <> None.
Proof.
  intros C M. cbn [match_here]. rewrite C.
  destruct (match_here items to_end rest); [discriminate | contradiction].
Qed.

(** The key pattern matches at a key. *)
Lemma key_pattern_matches l c rest :
  l <> EmptyString ->
  Forall (fun x => letter x = true) (list_ascii_of_string l) ->
  digit c = true ->
  match_here key_pattern false (l ++ "-" ++ String c rest) <> None.
Proof.
  intros Nl Fl Dc. unfold key_pattern.
  apply many_matches.
  exists (String.length l). split.
  - split; [destruct l; [congruence | cbn; lia]|].
    apply run_length_prefix, Fl.
  - rewrite skip_append. cbn [append]. unfold literal.
    apply chr_matches; [reflexivity|].
    apply many_matches.
    exists 1. split; [cbn; rewrite Dc; lia | discriminate].
Qed.

Lemma literal_i_matches (b p : string) : forall rest items,
  toLowerCase b = toLowerCase p ->
  match_here items false rest <> None ->
  match_here (map literal_i (list_ascii_of_string p) ++ items) false (b ++ rest) <> None.
Proof.
  revert b. induction p as [|x p IH]; intros [|y b] rest items E M; cbn in E; try discriminate.
  - exact M.
  - injection E as E1 E2. cbn [list_ascii_of_string map app append]. unfold literal_i at 1.
    apply chr_matches; [rewrite E1; apply Ascii.eqb_refl|].
    apply IH; assumption.
Qed.

Lemma search_finds items to_end s : forall before,
  match_here items to_end s <> None ->
  search items to_end (before ++ s) <> None.
Proof.
  induction before as [|c before IH]; intros M.
  - cbn [append]. destruct s; cbn [search];
      destruct (match_here items to_end _); try discriminate; contradiction.
  - cbn [append search].
    destruct (match_here items to_end (String c (before ++ s))); [discriminate|].
    apply IH, M.
Qed.

Lemma group_nonempty before pattern s texts k :
  search pattern false s = Some texts ->
  String.concat EmptyString (List.skipn before texts) = k -> k <> EmptyString ->
  group before pattern s = Some k.
Proof.
  intros S <- N. unfold group. rewrite S.
  destruct (String.eqb_spec (String.concat EmptyString (List.skipn before texts)) "");
    [contradiction | reflexivity].
Qed.

(** X29.  A key after /browse/ is found, and it wins: if the URL of the
    page has, anywhere and in any case, /browse/ followed by letters, a
    hyphen and a digit, [extractTicketKey] returns what the browse
    pattern finds in the URL, which is a key; the path, the elements of
    the page and the last segments are not looked at. *)
Theorem browse_key_wins p before b l c rest :
  location_href p = (before ++ b ++ l ++ "-" ++ String c rest)%string ->
  toLowerCase b = "/browse/"%string ->
  l <> EmptyString ->
  Forall (fun x => letter x = true) (list_ascii_of_string l) ->
  digit c = true ->
  browse_key (location_href p) = Some (extractTicketKey p)
  /\ plain_key (extractTicketKey p).
Proof.
  intros U B Nl Fl Dc.
  assert (M : search browse_pattern false (location_href p) <> None).
  { rewrite U. apply search_finds. unfold browse_pattern.
    apply (literal_i_matches b "/browse/"); [exact B|].
    apply key_pattern_matches; assumption. }
  destruct (search browse_pattern false (location_href p)) as [texts|] eqn:S;
    [|contradiction].
  destruct (search_sound _ _ _ _ S) as (F & _).
  unfold browse_pattern in F. apply Forall2_app_inv_l in F as (t1 & t2 & F1 & F2 & ->).
  assert (L : length t1 = 8).
  { apply Forall2_length in F1. rewrite <- F1. reflexivity. }
  pose proof (key_texts _ F2) as K.
  assert (G : browse_key (location_href p)
              = Some (String.concat EmptyString t2)).
  { apply (group_nonempty 8 browse_pattern _ (t1 ++ t2)); [exact S | |].
    - rewrite skipn_app, skipn_all2, L, Nat.sub_diag by lia. reflexivity.
    - apply (plain_key_safe _ K). }
  unfold extractTicketKey. rewrite G. cbn [or_else]. auto.
Qed.

(** The usual address of a ticket. *)
Lemma browse_key_wins_witness :
  let p := {| location_href := "https://x.atlassian.net/browse/PROJ-123?focus=1";
              location_pathname := "/browse/PROJ-123";
              found := [] |} in
  plain_key (extractTicketKey p).
Proof.
  intros p.
  refine (proj2 (browse_key_wins p "https://x.atlassian.net" "/browse/" "PROJ" "1"
                   "23?focus=1" eq_refl eq_refl _ _ eq_refl)).
  - discriminate.
  - repeat constructor.
Defined.

End TicketKeyFacts.

(** ** The one-shot fetch *)

Module OneShotFacts.
Import Extractor OneShot NamingFacts NamingMore.

(** *** Arithmetic of the sextets *)

Lemma quarters a : a / 4 * 4 + a mod 4 = a.
Proof. pose proof (Nat.div_mod_eq a 4). lia. Qed.

Lemma sixteenths b : b / 16 * 16 + b mod 16 = b.
Proof. pose proof (Nat.div_mod_eq b 16). lia. Qed.

Lemma sixtyfourths c : c / 64 * 64 + c mod 64 = c.
Proof. pose proof (Nat.div_mod_eq c 64). lia. Qed.

Lemma high_low x y n : 0 < n -> y < n -> (x * n + y) / n = x /\ (x * n + y) mod n = y.
Proof.
  intros P H. split.
  - rewrite Nat.add_comm, Nat.div_add by lia. rewrite Nat.div_small by exact H. reflexivity.
  - rewrite Nat.add_comm, Nat.Div0.mod_add. apply Nat.mod_small, H.
Qed.

Lemma div_bound b n m : 0 < n -> b < n * m -> b / n < m.
Proof. intros P H. apply Nat.Div0.div_lt_upper_bound. exact H. Qed.

Lemma mod_bound b n : 0 < n -> b mod n < n.
Proof. intros P. apply Nat.mod_upper_bound. lia. Qed.

(** *** The alphabet *)

Lemma character_of_spec n :
  n < 64 ->
  sextet_of (character_of n) = Some n
  /\ character_of n <> "="%char
  /\ character_of n <> ","%char
  /\ ascii_whitespace (character_of n) = false.
Proof.
  intros H.
  do 64 (destruct n as [|n]; [repeat split; try reflexivity; discriminate|]). lia.
Qed.

Lemma sextets_characters ss :
  Forall (fun s => s < 64) ss -> sextets (map character_of ss) = Some ss.
Proof.
  induction 1 as [|s ss H _ IH]; [reflexivity|].
  cbn [map sextets]. rewrite (proj1 (character_of_spec s H)), IH. reflexivity.
Qed.

(** *** The text of an encoding *)

Lemma mod4_step n : (4 + n) mod 4 = n mod 4.
Proof.
  replace (4 + n) with (n + 1 * 4) by lia. apply Nat.Div0.mod_add.
Qed.

Lemma encode_encoding n : forall data,
  length data <= n -> Forall (fun x => x < 256) data ->
  exists ss pad, encoding data ss pad.
Proof.
  induction n as [|n IH]; intros data L B.
  { destruct data; [|cbn in L; lia]. exists [], []. constructor; cbn; auto. }
  destruct data as [|a [|b [|c rest]]].
  - exists [], []. constructor; cbn; auto.
  - inversion B as [|? ? Ba _]; subst.
    exists [a / 4; (a mod 4) * 16], ["="%char; "="%char]. constructor.
    + reflexivity.
    + constructor; [|constructor; [|constructor]].
      * apply div_bound; lia.
      * pose proof (mod_bound a 4). lia.
    + right. right. split; reflexivity.
    + cbn [octets]. rewrite Nat.div_mul by lia. rewrite quarters. reflexivity.
  - inversion B as [|? ? Ba B1]; subst. inversion B1 as [|? ? Bb _]; subst.
    exists [a / 4; (a mod 4) * 16 + b / 16; (b mod 16) * 4], ["="%char]. constructor.
    + reflexivity.
    + pose proof (mod_bound a 4). pose proof (mod_bound b 16).
      assert (b / 16 < 16) by (apply div_bound; lia).
      constructor; [|constructor; [|constructor; [|constructor]]]; try lia.
      apply div_bound; lia.
    + right. left. split; reflexivity.
    + cbn [octets].
      assert (Hb : b / 16 < 16) by (apply div_bound; lia).
      destruct (high_low (a mod 4) (b / 16) 16 ltac:(lia) Hb) as (Q & R).
      rewrite Q, R, Nat.div_mul by lia. rewrite quarters, sixteenths. reflexivity.
  - inversion B as [|? ? Ba B1]; subst. inversion B1 as [|? ? Bb B2]; subst.
    inversion B2 as [|? ? Bc B3]; subst.
    destruct (IH rest) as (ss & pad & [T Sx P O]); [cbn in L; lia | exact B3|].
    exists (a / 4 :: (a mod 4) * 16 + b / 16 :: (b mod 16) * 4 + c / 64 :: c mod 64 :: ss),
           pad.
    assert (Hb : b / 16 < 16) by (apply div_bound; lia).
    assert (Hc : c / 64 < 4) by (apply div_bound; lia).
    constructor.
    + cbn [encode map app]. rewrite T. reflexivity.
    + pose proof (mod_bound a 4). pose proof (mod_bound b 16). pose proof (mod_bound c 64).
      constructor; [|constructor; [|constructor; [|constructor; [|exact Sx]]]]; try lia.
      apply div_bound; lia.
    + cbn [length]. change (S (S (S (S (length ss))))) with (4 + length ss).
      rewrite mod4_step. exact P.
    + cbn [octets].
      destruct (high_low (a mod 4) (b / 16) 16 ltac:(lia) Hb) as (Q1 & R1).
      destruct (high_low (b mod 16) (c / 64) 4 ltac:(lia) Hc) as (Q2 & R2).
      rewrite Q1, R1, Q2, R2, quarters, sixteenths, sixtyfourths, O. reflexivity.
Qed.

Lemma strip_padding_encoding data ss pad :
  encoding data ss pad -> strip_padding (encode data) = map character_of ss.
Proof.
  intros [T Sx P O]. rewrite T. unfold strip_padding.
  assert (Last : forall q r, rev (map character_of ss) = q :: r -> q <> "="%char).
  { intros q r E.
    assert (I : In q (map character_of ss)).
    { apply in_rev. rewrite E. left. reflexivity. }
    apply in_map_iff in I as (s & <- & Hs). rewrite Forall_forall in Sx.
    apply (character_of_spec s (Sx s Hs)). }
  destruct P as [(-> & M) | [(-> & M) | (-> & M)]];
    rewrite length_app, length_map; cbn [length].
  - rewrite app_nil_r, Nat.add_0_r, M. cbn [Nat.eqb].
    destruct (rev (map character_of ss)) as [|p [|q r]] eqn:R; try reflexivity.
    destruct (Ascii.eqb_spec p "=") as [->|_]; [|reflexivity].
    exfalso. exact (Last _ _ eq_refl eq_refl).
  - replace ((length ss + 1) mod 4) with 0
      by (rewrite <- Nat.Div0.add_mod_idemp_l, M; reflexivity).
    cbn [Nat.eqb]. rewrite rev_app_distr. cbn [rev app].
    destruct (rev (map character_of ss)) as [|q r] eqn:R.
    + apply (f_equal (@length ascii)) in R. rewrite length_rev, length_map in R.
      rewrite R in M. discriminate.
    + cbn [Ascii.eqb Bool.eqb]. destruct (Ascii.eqb_spec q "=") as [->|_].
      * exfalso. exact (Last _ _ eq_refl eq_refl).
      * apply (f_equal (@rev ascii)) in R. rewrite rev_involutive in R.
        rewrite R. reflexivity.
  - replace ((length ss + 2) mod 4) with 0
      by (rewrite <- Nat.Div0.add_mod_idemp_l, M; reflexivity).
    cbn [Nat.eqb]. rewrite rev_app_distr. cbn [rev app].
    cbn [Ascii.eqb Bool.eqb]. apply rev_involutive.
Qed.

Lemma encode_plain data ss pad :
  encoding data ss pad ->
  Forall (fun c => ascii_whitespace c = false /\ c <> ","%char) (encode data).
Proof.
  intros [T Sx P O]. rewrite T. apply Forall_app. split.
  - rewrite Forall_map. eapply Forall_impl; [|exact Sx]. intros s H.
    destruct (character_of_spec s H) as (_ & _ & C & W). auto.
  - destruct P as [(-> & _) | [(-> & _) | (-> & _)]]; repeat constructor; discriminate.
Qed.

Lemma filter_all {A} (f : A -> bool) l : Forall (fun x => f x = true) l -> filter f l = l.
Proof.
  induction 1 as [|x l H _ IH]; [reflexivity|]. cbn. rewrite H, IH. reflexivity.
Qed.

Lemma byte_of_to_nat b : byte_of_nat (Byte.to_nat b) = b.
Proof. unfold byte_of_nat. rewrite Byte.of_to_nat. reflexivity. Qed.

(** [atob] reads back what the reader has written. *)
Lemma atob_base64 (b : bytes) : atob (base64 b) = Some b.
Proof.
  assert (B : Forall (fun x => x < 256) (map Byte.to_nat b)).
  { rewrite Forall_map. apply Forall_forall. intros x _.
    pose proof (Byte.to_nat_bounded x). lia. }
  destruct (encode_encoding _ _ (le_n _) B) as (ss & pad & E).
  unfold atob, base64. rewrite list_ascii_of_string_of_list_ascii.
  rewrite filter_all.
  2:{ eapply Forall_impl; [|exact (encode_plain _ _ _ E)]. cbn. intros c (W & _).
      rewrite W. reflexivity. }
  rewrite (strip_padding_encoding _ _ _ E), length_map.
  destruct E as [T Sx P O].
  assert (M : (length ss mod 4 =? 1) = false).
  { destruct P as [(_ & ->) | [(_ & ->) | (_ & ->)]]; reflexivity. }
  rewrite M, (sextets_characters ss Sx), O, map_map.
  f_equal. rewrite <- (map_id b) at 2. apply map_ext. apply byte_of_to_nat.
Qed.

Lemma base64_plain (b : bytes) :
  ~ In ","%char (list_ascii_of_string (base64 b)).
Proof.
  assert (B : Forall (fun x => x < 256) (map Byte.to_nat b)).
  { rewrite Forall_map. apply Forall_forall. intros x _.
    pose proof (Byte.to_nat_bounded x). lia. }
  destruct (encode_encoding _ _ (le_n _) B) as (ss & pad & E).
  unfold base64. rewrite list_ascii_of_string_of_list_ascii.
  pose proof (encode_plain _ _ _ E) as P. rewrite Forall_forall in P.
  intros H. destruct (P _ H) as (_ & N). congruence.
Qed.

Lemma base64_empty (b : bytes) : base64 b = EmptyString -> b = [].
Proof.
  unfold base64. destruct b as [|x [|y [|z rest]]]; [reflexivity| | |]; discriminate.
Qed.

(** The part of the data URL the service worker sends. *)
Lemma base64data_readAsDataURL media_type b :
  ~ In ","%char (list_ascii_of_string media_type) ->
  base64data (readAsDataURL media_type b) = base64 (blob_bytes b).
Proof.
  intros H. unfold base64data, readAsDataURL.
  change ("data:" ++ media_type ++ ";base64," ++ base64 (blob_bytes b))%string
    with (String.append "data:" (String.append media_type
            (String.append ";base64" (String "," (base64 (blob_bytes b)))))).
  assert (A : forall x y z : string,
            String.append x (String.append y (String.append z
                            (String "," (base64 (blob_bytes b)))))
            = String.append (String.append x (String.append y z))
                            (String "," (base64 (blob_bytes b)))).
  { intros x y z. induction x as [|c x IH]; cbn.
    - induction y as [|d y IHy]; cbn; [reflexivity | rewrite IHy; reflexivity].
    - rewrite IH. reflexivity. }
  rewrite A, split_append, (split_without _ _ (base64_plain (blob_bytes b))).
  rewrite split_without; [reflexivity|].
  rewrite !chars_append. intros I.
  apply in_app_or in I as [I|I]; [cbn in I; intuition discriminate|].
  apply in_app_or in I as [I|I]; [exact (H I) | cbn in I; intuition discriminate].
Qed.

(** X27.  The one-shot fetch gives the client the bytes the service
    worker has read.  Whatever the request of the service worker does,
    the client gets a download exactly when the fetch resolved with an ok
    response, its blob was read and is not empty; the download then has
    exactly the bytes and the type of that blob.  This holds whenever the
    media type the reader writes into the data URL has no comma. *)
Theorem one_shot_round_trip media_type f fn :
  ~ In ","%char (list_ascii_of_string media_type) ->
  downloadFileViaBackgroundBlob fn (Replied (Some (downloadFileAsBlob media_type f)))
  = match f with
    | FetchResolves true (Some b) true =>
        match blob_bytes b with
        | [] => None
        | _ :: _ =>
            Some {| filename := fn;
                    blob := {| blob_bytes := blob_bytes b; blob_type := blob_type b |} |}
        end
    | _ => None
    end.
Proof.
  intros H. destruct f as [|[|] [b|] [|]]; try reflexivity.
  unfold downloadFileViaBackgroundBlob, downloadFileAsBlob, loaded_reply.
  cbn [negb success blob_base64 decoded reply_type andb].
  rewrite (base64data_readAsDataURL media_type b H), atob_base64.
  destruct (String.eqb_spec (base64 (blob_bytes b)) "") as [Z|N].
  - apply base64_empty in Z. rewrite Z. reflexivity.
  - destruct (blob_bytes b); [exfalso; apply N; reflexivity | reflexivity].
Qed.

(** Three bytes of a PDF. *)
Lemma one_shot_round_trip_witness :
  let b := {| blob_bytes := [x25; x50; x44]; blob_type := "application/pdf" |} in
  downloadFileViaBackgroundBlob "f.pdf"
    (Replied (Some (downloadFileAsBlob "application/pdf" (FetchResolves true (Some b) true))))
  = Some {| filename := "f.pdf"; blob := b |}.
Proof.
  intros b.
  apply (one_shot_round_trip "application/pdf" (FetchResolves true (Some b) true) "f.pdf").
  cbn. intuition discriminate.
Defined.

End OneShotFacts.
(** ** The text of a piece of the page *)

Module HtmlFacts.
Import Html.

Lemma trim_start_suffix t : exists dropped, t = dropped ++ trim_start t.
Proof.
  induction t as [|c t (d & IH)]; [exists []; reflexivity|].
  cbn [trim_start]. destruct (is_white_space c).
  - exists (c :: d). cbn. rewrite <- IH. reflexivity.
  - exists []. reflexivity.
Qed.

Lemma trim_start_head t c rest :
  trim_start t = c :: rest -> is_white_space c = false.
Proof.
  induction t as [|d t IH]; [discriminate|].
  cbn [trim_start]. destruct (is_white_space d) eqn:E; [exact IH|].
  intros [= <- _]. exact E.
Qed.

(** What [trim] keeps is a piece of the text that neither begins nor ends
    with white space. *)
Lemma trim_infix t : exists before after, t = before ++ trim t ++ after.
Proof.
  unfold trim.
  destruct (trim_start_suffix t) as (d1 & E1).
  destruct (trim_start_suffix (rev (trim_start t))) as (d2 & E2).
  exists d1, (rev d2). rewrite <- rev_app_distr, <- E2, rev_involutive. exact E1.
Qed.

Lemma trim_ends t :
  (forall c rest, trim t = c :: rest -> is_white_space c = false)
  /\ (forall c before, trim t = before ++ [c] -> is_white_space c = false).
Proof.
  unfold trim.
  set (D := trim_start t).
  set (T := trim_start (rev D)).
  destruct (trim_start_suffix (rev D)) as (d2 & E2). fold T in E2.
  split.
  - intros c rest H.
    assert (ED : D = rev T ++ rev d2).
    { rewrite <- rev_app_distr, <- E2, rev_involutive. reflexivity. }
    rewrite H in ED. cbn [app] in ED.
    exact (trim_start_head t c _ ED).
  - intros c before H.
    apply (f_equal (@rev N)) in H. rewrite rev_involutive, rev_app_distr in H.
    cbn [rev app] in H. exact (trim_start_head _ c _ H).
Qed.

Lemma collapse_from_spaces in_run t c :
  In c (collapse_from in_run t) -> is_white_space c = true -> c = SPACE.
Proof.
  revert in_run. induction t as [|d t IH]; intros in_run H S; [destruct H|].
  cbn [collapse_from] in H. destruct (is_white_space d) eqn:E.
  - destruct in_run; [exact (IH _ H S)|].
    destruct H as [<-|H]; [reflexivity | exact (IH _ H S)].
  - destruct H as [<-|H]; [congruence | exact (IH _ H S)].
Qed.

Lemma collapse_from_run t rest : collapse_from true t <> SPACE :: rest.
Proof.
  revert rest. induction t as [|d t IH]; intros rest; [discriminate|].
  cbn [collapse_from]. destruct (is_white_space d) eqn:E; [apply IH|].
  intros [= -> _]. discriminate.
Qed.

Lemma collapse_from_single t : forall in_run before after,
  collapse_from in_run t <> before ++ SPACE :: SPACE :: after.
Proof.
  induction t as [|d t IH]; intros in_run before after.
  - destruct before; discriminate.
  - cbn [collapse_from]. destruct (is_white_space d) eqn:E.
    + destruct in_run; [apply IH|].
      destruct before as [|b before]; cbn.
      * intros [= H]. exact (collapse_from_run _ _ H).
      * intros [= _ H]. exact (IH _ _ _ H).
    + destruct before as [|b before]; cbn.
      * intros [= -> _]. discriminate.
      * intros [= _ H]. exact (IH _ _ _ H).
Qed.

(** X28.  The text [cleanHtml] returns is normalised, whatever the page
    holds: of all the white space of JavaScript (tabs, line terminators,
    the space, the no-break space and the other Unicode spaces [\s] and
    [trim] know) it holds only the space U+0020, never two in a row, never
    at the beginning or at the end.  In particular it has no line feed, no
    carriage return and no Unicode line or paragraph separator. *)
Theorem cleanHtml_normal extractTextWithStrikethrough html :
  let result := cleanHtml extractTextWithStrikethrough html in
  (forall c, In c result -> is_white_space c = true -> c = SPACE)
  /\ (forall before after, result <> before ++ SPACE :: SPACE :: after)
  /\ (forall c rest, result = c :: rest -> is_white_space c = false)
  /\ (forall c before, result = before ++ [c] -> is_white_space c = false)
  /\ (~ In 10%N result /\ ~ In 13%N result
      /\ ~ In 8232%N result /\ ~ In 8233%N result).
Proof.
  intros result. unfold result, cleanHtml.
  destruct html as [|h html'].
  { repeat split; try (intros; destruct before; discriminate); try discriminate;
      try (intros c []); intros []. }
  set (raw := extractTextWithStrikethrough (h :: html')).
  destruct (trim_infix (collapse raw)) as (b & a & E).
  assert (Sp : forall c, In c (trim (collapse raw)) -> is_white_space c = true -> c = SPACE).
  { intros c H. apply (collapse_from_spaces false raw). unfold collapse in E.
    rewrite E. apply in_or_app. right. apply in_or_app. left. exact H. }
  split; [exact Sp|]. split; [|split; [apply trim_ends | split; [apply trim_ends|]]].
  - intros before after H. rewrite H in E.
    apply (collapse_from_single raw false (b ++ before) (after ++ a)).
    unfold collapse in E. rewrite E, <- !app_assoc. reflexivity.
  - repeat split; intros H; specialize (Sp _ H eq_refl); discriminate.
Qed.

(** No-break spaces are white space like any other: the text of
    [a&nbsp;&nbsp;b&nbsp;] is cleaned to [a b]. *)
Lemma cleanHtml_nbsp html :
  html <> [] -> cleanHtml (fun _ => nbsp_text) html = [97; 32; 98]%N.
Proof. destruct html; [congruence | reflexivity]. Qed.

End HtmlFacts.
(** ** The cascade, strategy by strategy *)

Module PlanFacts.
Import Extractor CascadePlan CascadeFacts OneShot OneShotFacts.

Lemma after_after tr a o : after tr (after [a] o) = after (tr ++ [a]) o.
Proof. unfold after. cbn. rewrite <- app_assoc. reflexivity. Qed.

Lemma after_nil o : after [] o = o.
Proof. destruct o. reflexivity. Qed.

(** *** The code follows the list of strategies *)

Section Blocks.
Variable url fn : string.
Variable blobUrl : option string.
Variable useApiAuth : bool.
Variable apiAuthHeader : option string.
Variable w : world.

Lemma try_success a rest d :
  yields fn w a = Some d -> try_in_order fn w (a :: rest) = ([a], Some d).
Proof. intros Y. cbn [try_in_order]. rewrite Y. reflexivity. Qed.

Lemma try_halt a rest :
  yields fn w a = None -> empty_body w a = true ->
  try_in_order fn w (a :: rest) = ([a], None).
Proof. intros Y E. cbn [try_in_order]. rewrite Y, E. reflexivity. Qed.

Lemma try_next a rest :
  yields fn w a = None -> empty_body w a = false ->
  try_in_order fn w (a :: rest) = after [a] (try_in_order fn w rest).
Proof. intros Y E. cbn [try_in_order]. rewrite Y, E. reflexivity. Qed.

Lemma via_background_plan tr :
  via_background fn w tr = after tr (try_in_order fn w [Streaming]).
Proof.
  unfold via_background. cbn [try_in_order yields]. unfold empty_body. cbn [in_page_fetch andb].
  destruct (downloadFileViaBackground _ _ _); reflexivity.
Qed.

Lemma xhr_then_background_plan tr :
  xhr_then_background fn w tr = after tr (try_in_order fn w [XhrFallback; Streaming]).
Proof.
  unfold xhr_then_background, via_background. cbn [try_in_order yields].
  unfold empty_body. cbn [in_page_fetch andb].
  destruct (downloadFileViaXHR _ _ _); [reflexivity|].
  destruct (downloadFileViaBackground _ _ _); unfold after; cbn; rewrite <- app_assoc; reflexivity.
Qed.

Hypothesis R : remote url = true.

Let appl := applicable url blobUrl useApiAuth apiAuthHeader w.

(** The candidates after the three in-page fetches. *)
Lemma tail_plan :
  filter appl [XhrFallback; Streaming]
  = if fallback useApiAuth apiAuthHeader w then [XhrFallback; Streaming] else [Streaming].
Proof.
  unfold appl. cbn [filter applicable]. rewrite R. cbn [andb].
  destruct (fallback _ _ _); reflexivity.
Qed.


Ltac known :=
  repeat match goal with
         | H : ?x = _ |- context [?x] => rewrite H
         end.

Ltac booleans :=
  cbn [andb negb orb Nat.eqb Nat.ltb Nat.leb Bool.eqb];
  rewrite ?andb_false_r, ?andb_true_r;
  cbn [andb negb orb Nat.eqb Nat.ltb Nat.leb Bool.eqb].

Ltac conditions :=
  unfold appl; cbn [filter applicable];
  unfold fallback; known; unfold again, in_hand, forbidden, denied, api_auth;
  known; booleans; known; booleans.

Ltac fetched :=
  cbn [yields]; unfold empty_body; cbn [in_page_fetch empty_payload andb]; unfold answered_empty, accepts; known;
  booleans; known; booleans; try reflexivity;
  try (match goal with
       | |- context [is_opaque ?t] => destruct (is_opaque t)
       end; reflexivity).

Lemma check_response_plan tr a r :
  yields fn w a = accepts fn r ->
  empty_body w a
  = r_ok r && match r_blob r with Some b => size b =? 0 | None => false end ->
  fallback useApiAuth apiAuthHeader w = denied r ->
  check_response fn w (tr ++ [a]) r
  = after tr (try_in_order fn w (a :: filter appl [XhrFallback; Streaming])).
Proof.
  intros Y E F. unfold check_response, read_blob. rewrite tail_plan, F.
  unfold accepts in Y. unfold denied.
  destruct (r_ok r) eqn:OK; cbn [negb andb] in *.
  - destruct (r_blob r) as [b|] eqn:B.
    + destruct (size b) as [|n] eqn:Z; cbn [Nat.eqb Nat.ltb Nat.leb] in *.
      * rewrite try_halt by assumption. reflexivity.
      * erewrite try_success by eassumption. reflexivity.
    + rewrite try_next by assumption.
      rewrite after_after, via_background_plan. reflexivity.
  - destruct ((r_status r =? 403) || is_opaque (r_type r)).
    + rewrite try_next by assumption.
      rewrite after_after, xhr_then_background_plan. reflexivity.
    + rewrite try_next by assumption.
      rewrite after_after, via_background_plan. reflexivity.
Qed.

Lemma fetch_phase_plan tr :
  fetch_phase url fn useApiAuth apiAuthHeader w tr
  = after tr (try_in_order fn w
       (filter appl [FetchSameOrigin (sends_authorization url useApiAuth apiAuthHeader); FetchInclude;
                     FetchSameOriginAgain; XhrFallback; Streaming])).
Proof.
  unfold fetch_phase.
  change (useApiAuth && truthy apiAuthHeader && includes url "/rest/api/")
    with (sends_authorization url useApiAuth apiAuthHeader).
  assert (Filt : filter appl [FetchSameOrigin (sends_authorization url useApiAuth apiAuthHeader); FetchInclude;
                              FetchSameOriginAgain; XhrFallback; Streaming]
                 = FetchSameOrigin (sends_authorization url useApiAuth apiAuthHeader)
                   :: filter appl [FetchInclude; FetchSameOriginAgain; XhrFallback; Streaming]).
  { unfold appl. cbn [filter applicable]. rewrite R. reflexivity. }
  rewrite Filt. clear Filt.
  destruct (fetch_same_origin w) as [|r1] eqn:F1.
  - rewrite try_next by fetched.
    rewrite after_after, xhr_then_background_plan. do 2 f_equal.
    conditions. reflexivity.
  - destruct (r_ok r1) eqn:OK1; cbn [negb].
    + destruct (is_opaque (r_type r1)) eqn:O1.
      * rewrite try_next by fetched.
        rewrite after_after, via_background_plan. do 2 f_equal.
        conditions. reflexivity.
      * rewrite OK1. cbn [negb andb].
        rewrite check_response_plan; [do 2 f_equal| | |].
        -- conditions. reflexivity.
        -- fetched.
        -- fetched.
        -- conditions. reflexivity.
    + rewrite try_next by fetched. rewrite after_after.
      assert (Filt : filter appl [FetchInclude; FetchSameOriginAgain; XhrFallback; Streaming]
                     = FetchInclude :: filter appl [FetchSameOriginAgain; XhrFallback; Streaming]).
      { conditions. reflexivity. }
      rewrite Filt. clear Filt.
      destruct (fetch_include w) as [|r2] eqn:F2.
      * rewrite try_next by fetched.
        rewrite after_after, via_background_plan. do 2 f_equal.
        conditions. reflexivity.
      * destruct (is_opaque (r_type r2)) eqn:O2.
        -- rewrite try_next by fetched.
           rewrite after_after, via_background_plan. do 2 f_equal.
           conditions. reflexivity.
        -- assert (AG : again useApiAuth apiAuthHeader w
                        = negb (r_ok r2) && (r_status r2 =? 403) && useApiAuth
                          && truthy apiAuthHeader).
           { unfold again, in_hand, forbidden, api_auth. known. cbn [negb andb].
             destruct (r_ok r2), (r_status r2 =? 403), useApiAuth, (truthy apiAuthHeader);
               reflexivity. }
           destruct (negb (r_ok r2) && (r_status r2 =? 403) && useApiAuth
                     && truthy apiAuthHeader) eqn:Again.
           ++ assert (OK2 : r_ok r2 = false).
              { destruct (r_ok r2); [discriminate | reflexivity]. }
              rewrite try_next by fetched. rewrite after_after.
              assert (Filt : filter appl [FetchSameOriginAgain; XhrFallback; Streaming]
                             = FetchSameOriginAgain :: filter appl [XhrFallback; Streaming]).
              { unfold appl. cbn [filter applicable]. rewrite R, AG. reflexivity. }
              rewrite Filt. clear Filt.
              destruct (fetch_same_origin_again w) as [|r3] eqn:F3.
              ** rewrite try_next by fetched.
                 rewrite after_after, xhr_then_background_plan. do 2 f_equal.
                 conditions. reflexivity.
              ** apply check_response_plan.
                 --- fetched.
                 --- fetched.
                 --- conditions. reflexivity.
           ++ assert (Filt : filter appl [FetchSameOriginAgain; XhrFallback; Streaming]
                             = filter appl [XhrFallback; Streaming]).
              { unfold appl. cbn [filter applicable]. rewrite R, AG. reflexivity. }
              rewrite Filt. clear Filt.
              apply check_response_plan.
              --- fetched.
              --- fetched.
              --- conditions. reflexivity.
Qed.


Lemma after_auth_plan tr :
  (if includes url "/secure/attachment/" || includes url "/attachment/"
   then match downloadFileViaXHR fn (fst (xhr_first w)) (snd (xhr_first w)) with
        | Some xhrResult => (tr ++ [XhrFirst], Some xhrResult)
        | None => fetch_phase url fn useApiAuth apiAuthHeader w (tr ++ [XhrFirst])
        end
   else fetch_phase url fn useApiAuth apiAuthHeader w tr)
  = after tr (try_in_order fn w
       (filter appl [XhrFirst; FetchSameOrigin (sends_authorization url useApiAuth apiAuthHeader); FetchInclude;
                     FetchSameOriginAgain; XhrFallback; Streaming])).
Proof.
  change (filter appl [XhrFirst; FetchSameOrigin (sends_authorization url useApiAuth apiAuthHeader); FetchInclude;
                       FetchSameOriginAgain; XhrFallback; Streaming])
    with (if appl XhrFirst
          then XhrFirst :: filter appl [FetchSameOrigin (sends_authorization url useApiAuth apiAuthHeader);
                                        FetchInclude; FetchSameOriginAgain; XhrFallback;
                                        Streaming]
          else filter appl [FetchSameOrigin (sends_authorization url useApiAuth apiAuthHeader);
                            FetchInclude; FetchSameOriginAgain; XhrFallback; Streaming]).
  unfold appl at 1. cbn [applicable]. rewrite R. cbn [andb]. unfold attachment_url.
  destruct (includes url "/secure/attachment/" || includes url "/attachment/").
  - destruct (downloadFileViaXHR fn _ _) as [d|] eqn:X.
    + erewrite try_success by exact X. reflexivity.
    + rewrite try_next by (try exact X; reflexivity).
      rewrite after_after. apply fetch_phase_plan.
  - apply fetch_phase_plan.
Qed.

Lemma auth_plan tr :
  (if useApiAuth && truthy apiAuthHeader then
     match downloadFileViaBackgroundBlob fn (one_shot w) with
     | Some bgResult => (tr ++ [OneShotAuth], Some bgResult)
     | None =>
         if includes url "/secure/attachment/" || includes url "/attachment/"
         then match downloadFileViaXHR fn (fst (xhr_first w)) (snd (xhr_first w)) with
              | Some xhrResult => ((tr ++ [OneShotAuth]) ++ [XhrFirst], Some xhrResult)
              | None => fetch_phase url fn useApiAuth apiAuthHeader w
                          ((tr ++ [OneShotAuth]) ++ [XhrFirst])
              end
         else fetch_phase url fn useApiAuth apiAuthHeader w (tr ++ [OneShotAuth])
     end
   else
     if includes url "/secure/attachment/" || includes url "/attachment/"
     then match downloadFileViaXHR fn (fst (xhr_first w)) (snd (xhr_first w)) with
          | Some xhrResult => (tr ++ [XhrFirst], Some xhrResult)
          | None => fetch_phase url fn useApiAuth apiAuthHeader w (tr ++ [XhrFirst])
          end
     else fetch_phase url fn useApiAuth apiAuthHeader w tr)
  = after tr (try_in_order fn w
       (filter appl [OneShotAuth; XhrFirst; FetchSameOrigin (sends_authorization url useApiAuth apiAuthHeader);
                     FetchInclude; FetchSameOriginAgain; XhrFallback; Streaming])).
Proof.
  change (filter appl [OneShotAuth; XhrFirst; FetchSameOrigin (sends_authorization url useApiAuth apiAuthHeader);
                       FetchInclude; FetchSameOriginAgain; XhrFallback; Streaming])
    with (if appl OneShotAuth
          then OneShotAuth :: filter appl [XhrFirst; FetchSameOrigin (sends_authorization url useApiAuth apiAuthHeader); FetchInclude;
                                           FetchSameOriginAgain; XhrFallback; Streaming]
          else filter appl [XhrFirst; FetchSameOrigin (sends_authorization url useApiAuth apiAuthHeader);
                            FetchInclude; FetchSameOriginAgain; XhrFallback; Streaming]).
  unfold appl at 1. cbn [applicable]. rewrite R. cbn [andb]. unfold api_auth.
  destruct (useApiAuth && truthy apiAuthHeader).
  - destruct (downloadFileViaBackgroundBlob fn (one_shot w)) as [d|] eqn:O.
    + erewrite try_success by exact O. reflexivity.
    + rewrite try_next by (try exact O; reflexivity).
      rewrite after_after. apply after_auth_plan.
  - apply after_auth_plan.
Qed.

End Blocks.

Section Whole.
Variable url fn : string.
Variable blobUrl : option string.
Variable useApiAuth : bool.
Variable apiAuthHeader : option string.
Variable w : world.

Lemma local_handle_plan :
  local_handle fn blobUrl w
  = if has_handle blobUrl then ([LocalHandle], yields fn w LocalHandle) else ([], None).
Proof.
  unfold local_handle, has_handle. cbn [yields]. unfold accepts.
  destruct blobUrl as [b|]; [|reflexivity].
  destruct (startsWith b "blob:"); [|reflexivity].
  destruct (local_fetch w) as [|r]; [reflexivity|].
  destruct (r_ok r); [|reflexivity].
  destruct (r_blob r) as [bl|]; [|reflexivity].
  destruct (0 <? size bl); reflexivity.
Qed.

Lemma local_only :
  remote url = false ->
  filter (applicable url blobUrl useApiAuth apiAuthHeader w)
    [OneShotAuth; XhrFirst; FetchSameOrigin (sends_authorization url useApiAuth apiAuthHeader);
     FetchInclude; FetchSameOriginAgain; XhrFallback; Streaming] = [].
Proof. intros R. cbn [filter applicable]. rewrite R. reflexivity. Qed.

Lemma remainder_plan tr :
  (if startsWith url "blob:" || startsWith url "data:" then (tr, None)
   else
     (if useApiAuth && truthy apiAuthHeader then
        match downloadFileViaBackgroundBlob fn (one_shot w) with
        | Some bgResult => (tr ++ [OneShotAuth], Some bgResult)
        | None =>
            if includes url "/secure/attachment/" || includes url "/attachment/"
            then match downloadFileViaXHR fn (fst (xhr_first w)) (snd (xhr_first w)) with
                 | Some xhrResult => ((tr ++ [OneShotAuth]) ++ [XhrFirst], Some xhrResult)
                 | None => fetch_phase url fn useApiAuth apiAuthHeader w
                             ((tr ++ [OneShotAuth]) ++ [XhrFirst])
                 end
            else fetch_phase url fn useApiAuth apiAuthHeader w (tr ++ [OneShotAuth])
        end
      else
        if includes url "/secure/attachment/" || includes url "/attachment/"
        then match downloadFileViaXHR fn (fst (xhr_first w)) (snd (xhr_first w)) with
             | Some xhrResult => (tr ++ [XhrFirst], Some xhrResult)
             | None => fetch_phase url fn useApiAuth apiAuthHeader w (tr ++ [XhrFirst])
             end
        else fetch_phase url fn useApiAuth apiAuthHeader w tr))
  = after tr (try_in_order fn w
       (filter (applicable url blobUrl useApiAuth apiAuthHeader w)
          [OneShotAuth; XhrFirst; FetchSameOrigin (sends_authorization url useApiAuth apiAuthHeader);
           FetchInclude; FetchSameOriginAgain; XhrFallback; Streaming])).
Proof.
  destruct (remote url) eqn:R.
  - pose proof R as R'. unfold remote in R'. apply negb_true_iff in R'. rewrite R'.
    apply (auth_plan url fn blobUrl useApiAuth apiAuthHeader w R tr).
  - pose proof R as R'. unfold remote in R'. apply negb_false_iff in R'. rewrite R'.
    rewrite (local_only R). unfold after. cbn. rewrite app_nil_r. reflexivity.
Qed.

Lemma downloadFile_plan :
  downloadFile url fn blobUrl useApiAuth apiAuthHeader w
  = cascade url fn blobUrl useApiAuth apiAuthHeader w.
Proof.
  unfold cascade, strategies.
  set (rest := [OneShotAuth; XhrFirst; FetchSameOrigin (sends_authorization url useApiAuth apiAuthHeader);
                FetchInclude; FetchSameOriginAgain; XhrFallback; Streaming]).
  change (filter (applicable url blobUrl useApiAuth apiAuthHeader w) (LocalHandle :: rest))
    with (if has_handle blobUrl
          then LocalHandle :: filter (applicable url blobUrl useApiAuth apiAuthHeader w) rest
          else filter (applicable url blobUrl useApiAuth apiAuthHeader w) rest).
  unfold downloadFile. rewrite local_handle_plan.
  destruct (has_handle blobUrl).
  - destruct (yields fn w LocalHandle) as [d|] eqn:Y.
    + erewrite try_success by exact Y. reflexivity.
    + rewrite try_next by (try exact Y; reflexivity). apply remainder_plan.
  - unfold rest. rewrite <- (after_nil (try_in_order _ _ _)). apply remainder_plan.
Qed.

End Whole.

(** *** What a run over the candidates looks like *)

Lemma ascending_filter (f : attempt -> bool) l : ascending l -> ascending (filter f l).
Proof.
  unfold ascending. induction 1 as [|a l S IH F]; cbn [filter]; [constructor|].
  destruct (f a); [|exact IH]. constructor; [exact IH|].
  rewrite Forall_forall in *. intros b Hb. apply filter_In in Hb as (Hb & _). auto.
Qed.

Lemma strategies_ascending url useApiAuth apiAuthHeader :
  ascending (strategies url useApiAuth apiAuthHeader).
Proof.
  unfold ascending, strategies.
  repeat (apply SSorted_cons;
          [|repeat (apply Forall_cons; [cbn; lia|]); apply Forall_nil]).
  apply SSorted_nil.
Qed.

Section Run.
Variable fn : string.
Variable w : world.

Lemma stops_false a :
  stops fn w a = false <-> yields fn w a = None /\ empty_body w a = false.
Proof.
  unfold stops. destruct (yields fn w a); split; try discriminate; try tauto.
  - intros (H & _). discriminate.
Qed.

Lemma try_stop a rest :
  stops fn w a = true -> try_in_order fn w (a :: rest) = ([a], yields fn w a).
Proof.
  unfold stops. intros H. cbn [try_in_order].
  destruct (yields fn w a); [reflexivity|]. rewrite H. reflexivity.
Qed.

Lemma try_go a rest :
  stops fn w a = false ->
  try_in_order fn w (a :: rest) = after [a] (try_in_order fn w rest).
Proof. intros H. apply stops_false in H as (Y & E). apply try_next; assumption. Qed.

(** How a run over the candidates ends: at the first candidate that
    stops it, or after the last candidate, with nothing. *)
Lemma try_shape l :
  (exists before a rest,
      l = before ++ a :: rest
      /\ try_in_order fn w l = (before ++ [a], yields fn w a)
      /\ stops fn w a = true
      /\ Forall (fun b => stops fn w b = false) before)
  \/ (try_in_order fn w l = (l, None) /\ Forall (fun b => stops fn w b = false) l).
Proof.
  induction l as [|x l IH].
  - right. split; [reflexivity | constructor].
  - destruct (stops fn w x) eqn:Sx.
    + left. exists [], x, l. repeat split; [apply try_stop, Sx | exact Sx | constructor].
    + rewrite (try_go _ _ Sx).
      destruct IH as [(before & a & rest & -> & E & Sa & F)|(E & F)]; rewrite E.
      * left. exists (x :: before), a, rest. repeat split; auto.
      * right. split; [reflexivity | constructor; assumption].
Qed.

Lemma try_In l :
  ascending l ->
  forall a, In a (fst (try_in_order fn w l))
            <-> In a l /\ forall b, In b l -> code_rank b < code_rank a ->
                                    stops fn w b = false.
Proof.
  induction l as [|x l IH]; intros A a.
  - cbn. split; [tauto | intros [[] _]].
  - inversion A as [|? ? A' F]; subst. rewrite Forall_forall in F.
    assert (First : forall b, In b (x :: l) -> code_rank b < code_rank x -> False).
    { intros b [<-|Hb] L; [lia|]. specialize (F b Hb). lia. }
    destruct (stops fn w x) eqn:Sx.
    + rewrite (try_stop _ _ Sx). cbn [fst]. split.
      * intros [<-|[]]. split; [left; reflexivity|]. intros b Hb L. destruct (First b Hb L).
      * intros [[<-|Ha] H]; [left; reflexivity|]. exfalso.
        specialize (H x (or_introl eq_refl) (F a Ha)). congruence.
    + rewrite (try_go _ _ Sx). unfold after. cbn [fst app]. split.
      * intros [<-|Ha].
        -- split; [left; reflexivity|]. intros b Hb L. destruct (First b Hb L).
        -- apply (IH A') in Ha as (Ha & H). split; [right; exact Ha|].
           intros b [<-|Hb] L; [exact Sx | exact (H b Hb L)].
      * intros [[<-|Ha] H]; [left; reflexivity|]. right. apply (IH A'). split; [exact Ha|].
        intros b Hb L. apply H; [right; exact Hb | exact L].
Qed.

End Run.

Section Outcome.
Variable url fn : string.
Variable blobUrl : option string.
Variable useApiAuth : bool.
Variable apiAuthHeader : option string.
Variable w : world.

Let o := downloadFile url fn blobUrl useApiAuth apiAuthHeader w.
Let candidates := filter (applicable url blobUrl useApiAuth apiAuthHeader w)
                         (strategies url useApiAuth apiAuthHeader).

Lemma candidates_ascending : ascending candidates.
Proof. apply ascending_filter, strategies_ascending. Qed.

Lemma candidates_remote :
  remote url = true ->
  exists before, candidates = before ++ [Streaming].
Proof.
  intros R. unfold candidates, strategies.
  change [LocalHandle; OneShotAuth; XhrFirst;
          FetchSameOrigin (sends_authorization url useApiAuth apiAuthHeader);
          FetchInclude; FetchSameOriginAgain; XhrFallback; Streaming]
    with ([LocalHandle; OneShotAuth; XhrFirst;
           FetchSameOrigin (sends_authorization url useApiAuth apiAuthHeader);
           FetchInclude; FetchSameOriginAgain; XhrFallback] ++ [Streaming]).
  rewrite filter_app.
  change (filter (applicable url blobUrl useApiAuth apiAuthHeader w) [Streaming])
    with (if remote url then [Streaming] else []).
  rewrite R. eauto.
Qed.

Lemma started_iff a :
  In a (fst o)
  <-> In a candidates
      /\ forall b, In b candidates -> code_rank b < code_rank a -> stops fn w b = false.
Proof.
  unfold o. rewrite downloadFile_plan. apply try_In, candidates_ascending.
Qed.

Lemma stopping_last a :
  In a (fst o) -> stops fn w a = true ->
  exists before, fst o = before ++ [a] /\ snd o = yields fn w a.
Proof.
  unfold o. rewrite downloadFile_plan. unfold cascade. fold candidates.
  intros I S.
  destruct (try_shape fn w candidates) as [(before & x & rest & _ & E & Sx & F)|(E & F)];
    rewrite E in *; cbn [fst snd] in *; rewrite Forall_forall in F.
  - apply in_app_or in I as [I|[<-|[]]]; [specialize (F a I); congruence|]. eauto.
  - specialize (F a I). congruence.
Qed.

Lemma nothing_found :
  snd o = None ->
  Forall (fun a => yields fn w a = None) (fst o)
  /\ (remote url = true ->
      exists before a, fst o = before ++ [a]
                       /\ (a = Streaming \/ empty_body w a = true)).
Proof.
  unfold o. rewrite downloadFile_plan. unfold cascade. fold candidates.
  destruct (try_shape fn w candidates) as [(before & x & rest & _ & E & Sx & F)|(E & F)];
    rewrite E; cbn [fst snd]; intros N.
  - split.
    + apply Forall_app. split.
      * eapply Forall_impl; [|exact F]. cbn. intros b Hb. apply stops_false in Hb. tauto.
      * constructor; [exact N | constructor].
    + intros _. exists before, x. split; [reflexivity|]. right.
      unfold stops in Sx. rewrite N in Sx. exact Sx.
  - split.
    + eapply Forall_impl; [|exact F]. cbn. intros b Hb. apply stops_false in Hb. tauto.
    + intros R. destruct (candidates_remote R) as [before B]. exists before, Streaming. auto.
Qed.

End Outcome.

(** *** Empty payloads *)

Lemma ascending_tail l1 l2 : ascending (l1 ++ l2) -> ascending l2.
Proof.
  unfold ascending. induction l1 as [|a l1 IH]; cbn; [auto|].
  intros H. inversion H; subst. auto.
Qed.

(** In a trace two operations of consecutive rank are neighbours. *)
Lemma next_started tr a b :
  ascending tr -> In a tr -> In b tr -> code_rank b = S (code_rank a) ->
  exists before more, tr = before ++ a :: b :: more.
Proof.
  intros A Ia Ib L. apply in_split in Ia as (l1 & l2 & ->).
  destruct (ascending_middle _ _ _ A) as (B1 & B2).
  rewrite Forall_forall in B1, B2.
  apply in_app_or in Ib as [Ib|[<-|Ib]];
    [specialize (B1 b Ib); lia | lia |].
  destruct l2 as [|x l2]; [destruct Ib|].
  apply ascending_tail in A. inversion A as [|? ? A1 F1]; subst.
  inversion A1 as [|? ? A2 F2]; subst. rewrite Forall_forall in F2.
  destruct Ib as [<-|Ib]; [eauto|].
  specialize (F2 b Ib). specialize (B2 x (or_introl eq_refl)). lia.
Qed.

Lemma try_nonempty fn w l : l <> [] -> fst (try_in_order fn w l) <> [].
Proof.
  destruct l as [|x l]; [congruence|]. intros _. cbn [try_in_order].
  destruct (yields fn w x); [discriminate|].
  destruct (empty_body w x); discriminate.
Qed.

Lemma empty_payload_yields fn w a : empty_payload w a = true -> yields fn w a = None.
Proof.
  destruct a; cbn [empty_payload yields]; unfold answered_empty, loaded_empty, accepts,
    downloadFileViaXHR; try discriminate.
  - destruct (local_fetch w) as [|r]; [discriminate|].
    destruct (r_ok r); [|discriminate]. destruct (r_blob r) as [b|]; [|discriminate].
    cbn. intros Z. apply Nat.eqb_eq in Z. rewrite Z. reflexivity.
  - destruct (fst (xhr_first w)) as [st [b|]| |]; try discriminate.
    + destruct (st =? 200); [|discriminate]. cbn. intros Z. apply Nat.eqb_eq in Z.
      rewrite Z. reflexivity.
    + destruct (snd (xhr_first w)) as [st [b|]| |]; try discriminate.
      destruct (st =? 200); [|discriminate]. cbn. intros Z. apply Nat.eqb_eq in Z.
      rewrite Z. reflexivity.
  - destruct (fetch_same_origin w) as [|r]; [discriminate|].
    destruct (r_ok r); [|discriminate]. destruct (is_opaque (r_type r)); [discriminate|].
    destruct (r_blob r) as [b|]; [|discriminate].
    cbn. intros Z. apply Nat.eqb_eq in Z. rewrite Z. reflexivity.
  - destruct (fetch_include w) as [|r]; [discriminate|].
    destruct (r_ok r); [|discriminate]. destruct (is_opaque (r_type r)); [discriminate|].
    destruct (r_blob r) as [b|]; [|discriminate].
    cbn. intros Z. apply Nat.eqb_eq in Z. rewrite Z. reflexivity.
  - destruct (fetch_same_origin_again w) as [|r]; [discriminate|].
    destruct (r_ok r); [|discriminate]. destruct (r_blob r) as [b|]; [|discriminate].
    cbn. intros Z. apply Nat.eqb_eq in Z. rewrite Z. reflexivity.
  - destruct (fst (xhr_fallback w)) as [st [b|]| |]; try discriminate.
    + destruct (st =? 200); [|discriminate]. cbn. intros Z. apply Nat.eqb_eq in Z.
      rewrite Z. reflexivity.
    + destruct (snd (xhr_fallback w)) as [st [b|]| |]; try discriminate.
      destruct (st =? 200); [|discriminate]. cbn. intros Z. apply Nat.eqb_eq in Z.
      rewrite Z. reflexivity.
Qed.

(** What the client makes of a reply of the service worker is never
    empty. *)
Lemma worker_acceptable fn o :
  from_worker o -> acceptable (downloadFileViaBackgroundBlob fn o).
Proof.
  destruct o as [|[response|]]; try (intros; exact I).
  intros (media_type & f & C & ->).
  destruct f as [|[|] [b|] [|]]; try exact I.
  unfold downloadFileViaBackgroundBlob, downloadFileAsBlob, loaded_reply.
  cbn [negb success blob_base64 decoded reply_type andb].
  rewrite (base64data_readAsDataURL media_type b C), atob_base64.
  destruct (String.eqb_spec (base64 (blob_bytes b)) "") as [Z|N]; [exact I|].
  cbn. unfold size. cbn.
  destruct (blob_bytes b); [exfalso; apply N; reflexivity | cbn; lia].
Qed.

Section Guard.
Variable url fn : string.
Variable blobUrl : option string.
Variable useApiAuth : bool.
Variable apiAuthHeader : option string.
Variable w : world.

Lemma candidate_applicable a :
  In a (fst (downloadFile url fn blobUrl useApiAuth apiAuthHeader w)) ->
  applicable url blobUrl useApiAuth apiAuthHeader w a = true.
Proof.
  intros H. apply started_iff in H as (H & _). apply filter_In in H. tauto.
Qed.

Lemma applicable_remote a :
  a <> LocalHandle ->
  applicable url blobUrl useApiAuth apiAuthHeader w a = true -> remote url = true.
Proof.
  intros N. destruct a; cbn [applicable]; try congruence;
    intros H; try apply andb_true_iff in H as (H & _); exact H.
Qed.

(** After an operation that does not stop the cascade the one of the next
    rank is started, when it is applicable. *)
Lemma proceeds a b :
  In a (fst (downloadFile url fn blobUrl useApiAuth apiAuthHeader w)) ->
  stops fn w a = false ->
  In b (strategies url useApiAuth apiAuthHeader) ->
  applicable url blobUrl useApiAuth apiAuthHeader w b = true ->
  code_rank b = S (code_rank a) ->
  (forall c, In c (strategies url useApiAuth apiAuthHeader) ->
             code_rank c = code_rank a -> c = a) ->
  exists before more,
    fst (downloadFile url fn blobUrl useApiAuth apiAuthHeader w)
    = before ++ a :: b :: more.
Proof.
  intros Ia Sa Ib Ab L U.
  apply next_started; auto.
  - destruct (downloadFile_well url fn blobUrl useApiAuth apiAuthHeader w) as (A & _).
    exact A.
  - apply started_iff. apply started_iff in Ia as (_ & H).
    split; [apply filter_In; auto|].
    intros c Ic Lc.
    assert (C : code_rank c < code_rank a \/ code_rank c = code_rank a) by lia.
    destruct C as [C|C]; [apply H; assumption|].
    apply filter_In in Ic as (Ic & _). rewrite (U c Ic C). exact Sa.
Qed.

End Guard.

(** C8, as the code has it.  [downloadFile] is the run over its list of
    strategies: the local handle, when the descriptor has a blob: handle;
    and, unless the URL itself is a blob: or data: URL, the privileged
    one-shot fetch with the auth header, when API auth is supplied; the
    XHR up front, for attachment URLs; the same-origin fetch (with the
    Authorization header under API auth on API URLs); the fetch including
    credentials, when the same-origin fetch got a response that is not
    ok; the second same-origin fetch, under API auth when the response in
    hand is visible, not ok and a 403; the XHR as a fallback, when a
    same-origin fetch threw or the last response is not ok and a 403 or
    opaque; the privileged streaming fetch.  The strategies whose
    condition holds are tried in this order, none twice, up to the first
    that yields a download, which is the result, or up to an in-page
    fetch answered ok with an empty body, where the result is null.  So
    an operation is started exactly when its condition holds and no
    operation before it has ended the cascade; a null result means that
    every operation started yielded nothing, and for a URL that is not
    local that the streaming fetch was tried or an in-page fetch was
    answered with an empty body.  The local handle can only come first
    and the streaming fetch only last, and a local handle that yields a
    download is the only operation started. *)
Theorem cascade_order url fn blobUrl useApiAuth apiAuthHeader w :
  let o := downloadFile url fn blobUrl useApiAuth apiAuthHeader w in
  let candidates :=
    filter (applicable url blobUrl useApiAuth apiAuthHeader w)
           (strategies url useApiAuth apiAuthHeader) in
  o = try_in_order fn w candidates
  /\ ascending (fst o)
  /\ first_success (yields fn w) o
  /\ (forall a, In a (fst o)
                <-> In a candidates
                    /\ forall b, In b candidates -> code_rank b < code_rank a ->
                                 stops fn w b = false)
  /\ (snd o = None ->
      Forall (fun a => yields fn w a = None) (fst o)
      /\ (remote url = true ->
          exists before a, fst o = before ++ [a]
                           /\ (a = Streaming \/ empty_body w a = true)))
  /\ (forall before after, fst o = before ++ LocalHandle :: after -> before = [])
  /\ (forall before after, fst o = before ++ Streaming :: after -> after = [])
  /\ (forall b d, blobUrl = Some b -> startsWith b "blob:" = true ->
        yields fn w LocalHandle = Some d -> o = ([LocalHandle], Some d)).
Proof.
  intros o candidates.
  destruct (downloadFile_well url fn blobUrl useApiAuth apiAuthHeader w) as (A & F).
  fold o in A, F.
  split; [apply downloadFile_plan|]. split; [exact A|]. split; [exact F|].
  split; [apply started_iff|]. split; [apply nothing_found|]. split; [|split].
  - intros before after E. rewrite E in A.
    destruct (ascending_middle _ _ _ A) as (B & _).
    destruct before as [|b before]; [reflexivity|].
    inversion B; subst. cbn in *. lia.
  - intros before after E. rewrite E in A.
    destruct (ascending_middle _ _ _ A) as (_ & B).
    destruct after as [|b after]; [reflexivity|].
    inversion B; subst. pose proof (code_rank_bound b). cbn in *. lia.
  - intros b d -> S Y. unfold o, downloadFile, local_handle. rewrite S.
    cbn [yields] in Y. unfold accepts in Y.
    destruct (local_fetch w) as [|r]; [discriminate|].
    destruct (r_ok r); [|discriminate].
    destruct (r_blob r) as [bl|]; [|discriminate].
    destruct (0 <? size bl); [|discriminate].
    injection Y as <-. reflexivity.
Qed.

(** A file behind a blob URL: no network operation is started. *)
Lemma cascade_order_witness :
  startsWith "blob:https://host/1f" "blob:" = true
  /\ yields "report.pdf" handle_served LocalHandle
     = Some {| filename := "report.pdf"; blob := pdf |}
  /\ downloadFile "https://host/secure/attachment/1/report.pdf" "report.pdf"
       (Some "blob:https://host/1f"%string) false None handle_served
     = ([LocalHandle], Some {| filename := "report.pdf"; blob := pdf |}).
Proof.
  split; [reflexivity|]. split; [reflexivity|].
  destruct (cascade_order "https://host/secure/attachment/1/report.pdf" "report.pdf"
              (Some "blob:https://host/1f"%string) false None handle_served)
    as (_ & _ & _ & _ & _ & _ & _ & H).
  exact (H _ _ eq_refl eq_refl eq_refl).
Defined.

(** C7, as the code has it.  Whatever the page and the network do, no
    strategy but the one-shot fetch yields an empty payload, and the
    one-shot fetch yields none when its reply is one the service worker
    sends; so [downloadFile] returns an empty payload from none of them.
    An operation whose transport reported success with a blob of size 0
    yields nothing.  After a local handle (for a URL that is not local)
    or an XHR that yields nothing, the cascade starts its next operation:
    after the XHR up front the same-origin fetch, after the XHR as a
    fallback the streaming fetch.  After any of the three in-page fetches
    answered ok with an empty body it returns null at once: that fetch is
    the last operation started. *)
Theorem empty_payload_guard url fn blobUrl useApiAuth apiAuthHeader w :
  let o := downloadFile url fn blobUrl useApiAuth apiAuthHeader w in
  let authorization := sends_authorization url useApiAuth apiAuthHeader in
  (forall a, a <> OneShotAuth -> acceptable (yields fn w a))
  /\ (from_worker (one_shot w) ->
      (forall a, acceptable (yields fn w a)) /\ acceptable (snd o))
  /\ (acceptable (snd o) \/ snd o = yields fn w OneShotAuth)
  /\ (forall a, empty_payload w a = true -> yields fn w a = None)
  /\ (In LocalHandle (fst o) -> yields fn w LocalHandle = None -> remote url = true ->
      exists a more, fst o = LocalHandle :: a :: more)
  /\ (In XhrFirst (fst o) -> yields fn w XhrFirst = None ->
      exists before more,
        fst o = before ++ XhrFirst :: FetchSameOrigin authorization :: more)
  /\ (In XhrFallback (fst o) -> yields fn w XhrFallback = None ->
      exists before, fst o = before ++ [XhrFallback; Streaming])
  /\ (forall a, in_page_fetch a = true -> In a (fst o) -> empty_payload w a = true ->
      exists before, fst o = before ++ [a] /\ snd o = None).
Proof.
  intros o authorization.
  assert (Result : acceptable (snd o) \/ snd o = yields fn w OneShotAuth).
  { destruct (downloadFile_well url fn blobUrl useApiAuth apiAuthHeader w) as (_ & F).
    fold o in F. unfold first_success in F.
    destruct (snd o) as [d|]; [|left; exact I].
    destruct F as (before & a & _ & Y & _).
    destruct a; try (left; change (acceptable (Some d)); rewrite <- Y;
                     apply yields_acceptable; discriminate).
    right. symmetry. exact Y. }
  split; [intros a; apply yields_acceptable|].
  split; [|split; [exact Result|split; [intros a; apply empty_payload_yields|]]].
  - intros W.
    assert (One : acceptable (yields fn w OneShotAuth)) by apply worker_acceptable, W.
    split.
    + intros a. destruct a; try (apply yields_acceptable; discriminate). exact One.
    + destruct Result as [R|R]; [exact R | rewrite R; exact One].
  - split; [|split; [|split]].
    + intros I Y R.
      pose proof (candidate_applicable _ _ _ _ _ _ _ I) as H. cbn [applicable] in H.
      assert (E : o = after [LocalHandle]
                        (try_in_order fn w
                           (filter (applicable url blobUrl useApiAuth apiAuthHeader w)
                              (tl (strategies url useApiAuth apiAuthHeader))))).
      { unfold o. rewrite downloadFile_plan. unfold cascade, strategies.
        cbn [filter applicable tl]. rewrite H. apply try_next; [exact Y | reflexivity]. }
      rewrite E. unfold after. cbn [fst app].
      destruct (fst (try_in_order fn w _)) as [|a more] eqn:T; [|eauto].
      exfalso. revert T. apply try_nonempty.
      unfold strategies. cbn [tl filter applicable]. rewrite R. cbn [andb].
      repeat match goal with
             | |- context [if ?c then _ else _] => destruct c
             end; discriminate.
    + intros I Y.
      pose proof (candidate_applicable _ _ _ _ _ _ _ I) as H.
      apply applicable_remote in H; [|discriminate].
      apply (proceeds url fn blobUrl useApiAuth apiAuthHeader w XhrFirst); auto.
      * apply stops_false. split; [exact Y | reflexivity].
      * unfold strategies. cbn. tauto.
      * unfold strategies. intros c Hc. cbn in Hc.
        repeat destruct Hc as [<-|Hc]; cbn; try discriminate; try reflexivity.
        destruct Hc.
    + intros I Y.
      pose proof (candidate_applicable _ _ _ _ _ _ _ I) as H.
      apply applicable_remote in H; [|discriminate].
      destruct (proceeds url fn blobUrl useApiAuth apiAuthHeader w XhrFallback Streaming)
        as (before & more & E); auto.
      * apply stops_false. split; [exact Y | reflexivity].
      * unfold strategies. cbn. tauto.
      * unfold strategies. intros c Hc. cbn in Hc.
        repeat destruct Hc as [<-|Hc]; cbn; try discriminate; try reflexivity.
        destruct Hc.
      * exists before. fold o in E. rewrite E. do 3 f_equal.
        destruct (downloadFile_well url fn blobUrl useApiAuth apiAuthHeader w) as (A & _).
        fold o in A. rewrite E in A.
        change (before ++ XhrFallback :: Streaming :: more)
          with (before ++ [XhrFallback] ++ Streaming :: more) in A.
        rewrite app_assoc in A.
        destruct (ascending_middle _ _ _ A) as (_ & B).
        destruct more as [|c more]; [reflexivity|].
        inversion B; subst. pose proof (code_rank_bound c). cbn in *. lia.
    + intros a P I E.
      assert (Y : yields fn w a = None) by apply empty_payload_yields, E.
      destruct (stopping_last url fn blobUrl useApiAuth apiAuthHeader w a I)
        as (before & T & S).
      * unfold stops, empty_body. rewrite Y, P, E. reflexivity.
      * exists before. split; [exact T | exact (eq_trans S Y)].
Qed.

(** The same-origin fetch answers 200 with an empty body. *)
Lemma empty_payload_guard_witness :
  let o := downloadFile "https://host/files/report.pdf" "report.pdf" None false None
             empty_answer in
  in_page_fetch (FetchSameOrigin false) = true
  /\ In (FetchSameOrigin false) (fst o)
  /\ empty_payload empty_answer (FetchSameOrigin false) = true
  /\ exists before, fst o = before ++ [FetchSameOrigin false] /\ snd o = None.
Proof.
  intros o.
  assert (I : In (FetchSameOrigin false) (fst o)) by (left; reflexivity).
  split; [reflexivity|]. split; [exact I|]. split; [reflexivity|].
  destruct (empty_payload_guard "https://host/files/report.pdf" "report.pdf"
              None false None empty_answer) as (_ & _ & _ & _ & _ & _ & _ & H).
  exact (H (FetchSameOrigin false) eq_refl I eq_refl).
Defined.

End PlanFacts.
